(** * A shallow embedding of the conversion core of rom_converter.py

    The model follows [ROMConverterApp] in [rom_converter.py]: descriptor
    discovery, CUE parsing, the per-file pipeline, the postprocessing
    policies, the result loop of the worker pool, the metrics tracker, the
    archive discovery and the name cleaning used when CHD files are moved.

    Modelling choices:
    - a path is the list of its components (a POSIX [PurePath]); the file
      system is a finite map from file paths to their contents, so a file
      "exists" when it is in the domain of the map and its size is the
      length of its contents;
    - a name or a text is a Rocq [string], one character per code point
      from U+0000 to U+00FF (Latin-1); the name cleaning is also written
      over any alphabet with the Unicode tests of its patterns
      ([Alphabet]), Python's [str] among them;
    - external programs (chdman, the archive decoders) are function
      arguments: every theorem holds for every behaviour of them;
    - the worker pool is modelled by its observable events (a worker picks
      a job, a job finishes, the stop button, the result loop collects a
      finished job); the sequential pipeline is plain state passing. *)

From Stdlib Require Import Ascii String QArith Qround.
From stdpp Require Import base list gmap sets strings sorting pretty.

Local Open Scope nat_scope.

(* ------------------------------------------------------------------ *)
(** ** Characters and strings *)

(** [str.isspace] (what [\s] matches in a [str] pattern) on the code
    points U+0000 to U+00FF: tab, line feed, vertical tab, form feed,
    carriage return, the separators 0x1c-0x1f, space, next line 0x85 and
    no-break space 0xa0. *)
Definition is_space (c : ascii) : bool :=
  let n := nat_of_ascii c in
  ((9 <=? n) && (n <=? 13)) || ((28 <=? n) && (n <=? 32)) || (n =? 133) || (n =? 160).

Definition is_digit (c : ascii) : bool :=
  let n := nat_of_ascii c in (48 <=? n) && (n <=? 57).

(** ASCII case folding, as [re.IGNORECASE] compares letters. *)
Definition lower (c : ascii) : ascii :=
  let n := nat_of_ascii c in
  if (65 <=? n) && (n <=? 90) then ascii_of_nat (n + 32) else c.

Fixpoint lower_str (s : string) : string :=
  match s with
  | EmptyString => EmptyString
  | String c s' => String (lower c) (lower_str s')
  end.

(** Case-insensitive literal prefix: the rest of [s] after [p]. *)
Fixpoint prefix_ci (p s : string) : option string :=
  match p with
  | EmptyString => Some s
  | String c p' =>
      match s with
      | EmptyString => None
      | String d s' => if Ascii.eqb (lower c) (lower d) then prefix_ci p' s' else None
      end
  end.

(** [\s*] (greedy). *)
Fixpoint skip_spaces (s : string) : string :=
  match s with
  | String c s' => if is_space c then skip_spaces s' else s
  | EmptyString => s
  end.

(** [\s+] (greedy). *)
Definition spaces1 (s : string) : option string :=
  match s with
  | String c s' => if is_space c then Some (skip_spaces s') else None
  | EmptyString => None
  end.

(** One literal character. *)
Definition expect (q : ascii) (s : string) : option string :=
  match s with
  | String c s' => if Ascii.eqb c q then Some s' else None
  | EmptyString => None
  end.

(** [[^q]*] (greedy): the longest prefix without [q], and the rest. *)
Fixpoint take_until (q : ascii) (s : string) : string * string :=
  match s with
  | EmptyString => (EmptyString, EmptyString)
  | String c s' =>
      if Ascii.eqb c q then (EmptyString, s)
      else let '(a, b) := take_until q s' in (String c a, b)
  end.

Fixpoint ends_with_aux (suf s : string) : bool :=
  if String.eqb s suf then true
  else match s with
       | EmptyString => false
       | String _ s' => ends_with_aux suf s'
       end.

(** [s.endswith(suf)], and the glob [*suf] on one name. *)
Definition ends_with (suf s : string) : bool := ends_with_aux suf s.

(** Index of the last ['.'] of a name ([str.rfind]). *)
Fixpoint last_dot_aux (s : string) (i : nat) (acc : option nat) : option nat :=
  match s with
  | EmptyString => acc
  | String c s' => last_dot_aux s' (S i) (if Ascii.eqb c "." then Some i else acc)
  end.

(** [PurePath.suffix] and [PurePath.stem]: the suffix starts at the last
    dot, provided it is neither the first nor the last character. *)
Definition dot_split (name : string) : option nat :=
  match last_dot_aux name 0 None with
  | Some i => if (0 <? i) && (i <? String.length name - 1) then Some i else None
  | None => None
  end.

Definition name_suffix (name : string) : string :=
  match dot_split name with
  | Some i => substring i (String.length name - i) name
  | None => ""
  end.

Definition name_stem (name : string) : string :=
  match dot_split name with
  | Some i => substring 0 i name
  | None => name
  end.

(* ------------------------------------------------------------------ *)
(** ** Paths and the file system *)

Definition Path := list string.

Definition path_name (p : Path) : string := default "" (last p).
Definition path_parent (p : Path) : Path := removelast p.
Definition path_div (p : Path) (n : string) : Path := p ++ [n].

(** [path.with_suffix(suf)]. *)
Definition with_suffix (p : Path) (suf : string) : Path :=
  path_div (path_parent p) (name_stem (path_name p) +:+ suf).

(** Components of a relative path string, as [PurePosixPath] parses it:
    empty components and ["."] are dropped. *)
Fixpoint split_slash (s : string) (cur : string) : list string :=
  match s with
  | EmptyString => [cur]
  | String c s' =>
      if Ascii.eqb c "/" then cur :: split_slash s' "" else split_slash s' (cur +:+ String c "")
  end.

Definition path_parts (s : string) : list string :=
  filter (fun x => negb (String.eqb x "" || String.eqb x ".")) (split_slash s "").

(** [dir / s]: an absolute [s] replaces [dir]. *)
Definition path_join (dir : Path) (s : string) : Path :=
  match s with
  | String "/" _ => path_parts s
  | _ => dir ++ path_parts s
  end.

Abbreviation FS := (gmap Path string).

Definition file_exists (fs : FS) (p : Path) : bool := bool_decide (p ∈ dom fs).

Definition file_size (fs : FS) (p : Path) : nat :=
  match fs !! p with Some c => String.length c | None => 0 end.

(** [shutil.move(src, dst)] onto a destination that does not exist. *)
Definition move_file (fs : FS) (src dst : Path) : FS :=
  match fs !! src with
  | Some c => <[dst := c]> (delete src fs)
  | None => fs
  end.

(* ------------------------------------------------------------------ *)
(** ** [parse_cue_file]: the pattern FILE, spaces, a quoted name, spaces,
    BINARY (the source's [FILE\s+Q([^Q]+)Q\s+BINARY] with Q the double
    quote), case insensitive, scanned by [findall] *)

Definition dquote : ascii := ascii_of_nat 34.

(** One match attempt at the current position: the captured name and the
    text after the match. Every quantifier of the pattern is followed by a
    character it cannot consume, so the greedy match is the only one. *)
Definition match_file_entry (s : string) : option (string * string) :=
  s1 ← prefix_ci "file" s;
  s2 ← spaces1 s1;
  s3 ← expect dquote s2;
  let '(nm, s4) := take_until dquote s3 in
  if String.eqb nm "" then None else
  s5 ← expect dquote s4;
  s6 ← spaces1 s5;
  s7 ← prefix_ci "binary" s6;
  Some (nm, s7).

(** [re.findall]: try at each position, resume after a match, otherwise
    advance by one character. A match is never empty, so [length s]
    rounds suffice. *)
Fixpoint findall_fuel (fuel : nat) (s : string) : list string :=
  match fuel with
  | O => []
  | S f =>
      match s with
      | EmptyString => []
      | String _ s' =>
          match match_file_entry s with
          | Some (nm, rest) => nm :: findall_fuel f rest
          | None => findall_fuel f s'
          end
      end
  end.

Definition cue_findall (s : string) : list string := findall_fuel (String.length s) s.

(** [parse_cue_file]: each match resolved against the CUE's directory; a
    reference whose file does not exist only produces a warning and is
    left out; an unreadable CUE yields the empty list. The model matches
    the content as it is stored; the source first decodes it as UTF-8
    with [errors='ignore'] and translates newlines, which leaves ASCII
    content without carriage returns as it is. *)
Definition parse_cue_file (fs : FS) (cue_path : Path) : list Path :=
  match fs !! cue_path with
  | None => []
  | Some content =>
      filter (fun b => file_exists fs b = true)
        (map (path_join (path_parent cue_path)) (cue_findall content))
  end.

(* ------------------------------------------------------------------ *)
(** ** Duplicate-name loops: [while dest.exists(): dest = ...; counter += 1] *)

(** [cand 0] is the first destination tried, [cand k] the one tried with
    [counter = k]. The loop cannot run more often than there are files,
    which [first_free_not_in] below makes precise. *)
Fixpoint first_free (fs : FS) (cand : nat -> Path) (k fuel : nat) : Path :=
  match fuel with
  | O => cand k
  | S f => if file_exists fs (cand k) then first_free fs cand (S k) f else cand k
  end.

Definition free_dest (fs : FS) (cand : nat -> Path) : Path :=
  first_free fs cand 0 (size (dom fs)).

(** Destinations in [move_to_backup_folder]: [backup_dir / name], then
    [backup_dir / (stem + "_" + str(counter) + suffix)]. *)
Definition backup_cand (backup_dir : Path) (f : Path) (k : nat) : Path :=
  match k with
  | O => path_div backup_dir (path_name f)
  | S _ => path_div backup_dir
             (name_stem (path_name f) +:+ "_" +:+ pretty k +:+ name_suffix (path_name f))
  end.

(* ------------------------------------------------------------------ *)
(** ** Postprocessing of originals *)

Definition backup_move_one (backup_dir : Path) (fs : FS) (f : Path) : FS :=
  if file_exists fs f then move_file fs f (free_dest fs (backup_cand backup_dir f)) else fs.

(** [move_to_backup_folder]: the BIN files found by [parse_cue_file], then
    the descriptor, into [parent / "original_backup"]. When a regular file
    already has that name, [backup_dir.mkdir(exist_ok=True)] raises
    [FileExistsError]; the [except] clause catches it and nothing moves. *)
Definition move_to_backup_folder (fs : FS) (cue_path : Path) : FS :=
  let backup_dir := path_div (path_parent cue_path) "original_backup" in
  if file_exists fs backup_dir then fs else
  let bin_files := parse_cue_file fs cue_path in
  let fs1 := foldl (backup_move_one backup_dir) fs bin_files in
  backup_move_one backup_dir fs1 cue_path.

Definition delete_one (fs : FS) (f : Path) : FS :=
  if file_exists fs f then delete f fs else fs.

(** [delete_original_files]. *)
Definition delete_original_files (fs : FS) (cue_path : Path) : FS :=
  let bin_files := parse_cue_file fs cue_path in
  delete_one (foldl delete_one fs bin_files) cue_path.

(* ------------------------------------------------------------------ *)
(** ** [convert_to_chd] *)

(** What [subprocess.run] reports: the return code and what the tool left
    at the output path, or a timeout (possibly after a partial write). *)
Inductive tool_result :=
  | ToolRan (rc : Z) (out : option string)
  | ToolTimeout (out : option string).

(** chdman: mode, input, output, current files. *)
Definition chdman_fn := string -> Path -> Path -> FS -> tool_result.

Record state := mkState {
  st_fs : FS;
  st_calls : list (string * Path * Path);  (** chdman invocations *)
  st_orig : nat;                            (** [total_original_size] *)
  st_chd : nat;                             (** [total_chd_size] *)
  st_extracts : list Path                   (** archives handed to [extract_archive] *)
}.

Definition set_fs (st : state) (fs : FS) : state :=
  mkState fs (st_calls st) (st_orig st) (st_chd st) (st_extracts st).

(** What a call returns: [None], a boolean, or an exception that escapes. *)
Inductive ret := RNone | RBool (b : bool) | RExc.

Definition write_out (fs : FS) (chd : Path) (out : option string) : FS :=
  match out with Some c => <[chd := c]> fs | None => fs end.

Definition convert_to_chd (chdman : chdman_fn) (st : state) (path : Path) : state * ret :=
  let fs := st_fs st in
  let chd_path := with_suffix path ".chd" in
  if file_exists fs chd_path then (st, RBool true) else
  let ext := lower_str (name_suffix (path_name path)) in
  let cmd :=
    if String.eqb ext ".cue" then
      Some ("createcd", sum_list (map (file_size fs) (parse_cue_file fs path)) + file_size fs path)
    else if String.eqb ext ".iso" then Some ("createdvd", file_size fs path)
    else None in
  match cmd with
  | None => (st, RBool false)
  | Some (mode, original_size) =>
      (* [path.stat()] runs before the [try]: a vanished descriptor raises *)
      if negb (file_exists fs path) then (st, RExc) else
      let calls := st_calls st ++ [(mode, path, chd_path)] in
      match chdman mode path chd_path fs with
      | ToolTimeout out =>
          (mkState (write_out fs chd_path out) calls (st_orig st) (st_chd st) (st_extracts st),
           RBool false)
      | ToolRan rc out =>
          let fs2 := write_out fs chd_path out in
          if Z.eqb rc 0 && file_exists fs2 chd_path then
            (mkState fs2 calls (st_orig st + original_size) (st_chd st + file_size fs2 chd_path)
               (st_extracts st),
             RBool true)
          else (mkState fs2 calls (st_orig st) (st_chd st) (st_extracts st), RBool false)
      end
  end.

(* ------------------------------------------------------------------ *)
(** ** [process_single_file] *)

Record config := mkConfig {
  cfg_recursive : bool;
  cfg_ps1_cues : bool;             (** [process_ps1_cues] *)
  cfg_ps2_isos : bool;             (** [process_ps2_isos] *)
  cfg_extract : bool;              (** [extract_compressed] *)
  cfg_delete_archives : bool;      (** [delete_archives_after_extract] *)
  cfg_delete_originals : bool;
  cfg_move_to_backup : bool;
  cfg_seven_zip : bool             (** a 7-Zip path is configured *)
}.

(** [is_converting] is read when the job starts. *)
Definition process_single_file (chdman : chdman_fn) (cfg : config) (is_converting : bool)
    (st : state) (f : Path) : state * ret :=
  if negb is_converting then (st, RNone) else
  let '(st1, success) := convert_to_chd chdman st f in
  match success with
  | RBool true =>
      if cfg_delete_originals cfg then (set_fs st1 (delete_original_files (st_fs st1) f), success)
      else if cfg_move_to_backup cfg then (set_fs st1 (move_to_backup_folder (st_fs st1) f), success)
      else (st1, success)
  | _ => (st1, success)
  end.

(* ------------------------------------------------------------------ *)
(** ** A run of the pipeline over a job list

    The pool runs the jobs on several threads; one schedule of it is the
    jobs taken one after another in some order, each run to its end. The
    tally is the one of [conversion_thread]: a [True] result is a success,
    a [False] result or an exception a failure, [None] is not counted. *)

Fixpoint run_jobs (chdman : chdman_fn) (cfg : config) (st : state) (jobs : list Path)
    : state * list ret :=
  match jobs with
  | [] => (st, [])
  | j :: js =>
      let '(st1, r) := process_single_file chdman cfg true st j in
      let '(st2, rs) := run_jobs chdman cfg st1 js in
      (st2, r :: rs)
  end.

Definition is_success (r : ret) : bool := match r with RBool true => true | _ => false end.
Definition is_failure (r : ret) : bool :=
  match r with RBool false | RExc => true | _ => false end.

Record tally := mkTally { successful : nat; failed : nat; total : nat }.

Definition tally_of (total_jobs : nat) (rs : list ret) : tally :=
  mkTally (length (filter (fun r => is_success r = true) rs))
          (length (filter (fun r => is_failure r = true) rs)) total_jobs.

(** Each job of the list finds its CHD in place when its turn comes. *)
Fixpoint outputs_present (chdman : chdman_fn) (cfg : config) (st : state) (jobs : list Path)
    : Prop :=
  match jobs with
  | [] => True
  | j :: js =>
      file_exists (st_fs st) (with_suffix j ".chd") = true /\
      outputs_present chdman cfg (fst (process_single_file chdman cfg true st j)) js
  end.

(* ------------------------------------------------------------------ *)
(** ** Discovery: [glob], [rglob] and [sorted] *)

(** [Path.__lt__] compares the lists of components lexicographically. *)
Fixpoint parts_compare (p q : Path) : comparison :=
  match p, q with
  | [], [] => Eq
  | [], _ :: _ => Lt
  | _ :: _, [] => Gt
  | a :: p', b :: q' =>
      match String.compare a b with
      | Eq => parts_compare p' q'
      | c => c
      end
  end.

Definition path_le (p q : Path) : Prop := parts_compare p q <> Gt.

Global Instance path_le_dec : RelDecision path_le.
Proof. intros p q. unfold path_le. apply _. Defined.

(** [sorted(...)] on paths. *)
Definition sorted_paths (l : list Path) : list Path := merge_sort path_le l.

(** The files [dir.glob("*" + ext)] (directly in [dir]) or
    [dir.rglob("*" + ext)] (anywhere below [dir]) yields. *)
Definition glob_match (dir : Path) (recursive : bool) (ext : string) (p : Path) : bool :=
  bool_decide (dir `prefix_of` p) &&
  (if recursive then length dir <? length p else length p =? S (length dir)) &&
  ends_with ext (path_name p).

Definition glob (fs : FS) (dir : Path) (recursive : bool) (ext : string) : list Path :=
  filter (fun p => glob_match dir recursive ext p = true) (elements (dom fs)).

(** [find_game_files]. *)
Definition find_game_files (cfg : config) (fs : FS) (dir : Path) : list Path :=
  let rec := cfg_recursive cfg in
  sorted_paths
    ((if cfg_ps1_cues cfg then glob fs dir rec ".cue" else []) ++
     (if cfg_ps2_isos cfg then glob fs dir rec ".iso" else [])).

(** [COMPRESSED_EXTENSIONS], a Python set: its iteration order does not
    show in the sorted result. *)
Definition COMPRESSED_EXTENSIONS : list string :=
  [".zip"; ".7z"; ".rar"; ".gz"; ".tar"; ".tar.gz"; ".tgz"].

(** [find_compressed_files]. *)
Definition find_compressed_files (fs : FS) (dir : Path) (recursive : bool) : list Path :=
  sorted_paths (flat_map (glob fs dir recursive) COMPRESSED_EXTENSIONS).

(* ------------------------------------------------------------------ *)
(** ** Extraction *)

(** [str.replace(old, "")] for a non-empty [old]. *)
Fixpoint remove_all_fuel (fuel : nat) (old s : string) : string :=
  match fuel with
  | O => s
  | S f =>
      match s with
      | EmptyString => EmptyString
      | String c s' =>
          match String.prefix old s with
          | true => remove_all_fuel f old (substring (String.length old) (String.length s) s)
          | false => String c (remove_all_fuel f old s')
          end
      end
  end.

Definition remove_all (old s : string) : string := remove_all_fuel (String.length s) old s.

(** The decoders: zipfile, tarfile (plain or gzip) and 7-Zip, given the
    archive, the folder and the files: the files they leave behind and
    whether they succeeded. A decoder that fails part way (a corrupt
    member, a truncated archive, 7-Zip exiting non-zero or timing out)
    may already have written files. *)
Definition extractor_fn := string -> Path -> Path -> FS -> FS * bool.

(** [extract_archive]: the folder, the dispatch on the extension, and the
    result [(success, folder)] with the files after the attempt. When a
    regular file has the folder's name, [extract_folder.mkdir(exist_ok=True)]
    raises and the [except] clause returns [(False, None)]; a missing
    archive makes the decoder raise before it writes anything. *)
Definition extract_archive (unpack : extractor_fn) (seven_zip : bool) (fs : FS)
    (archive : Path) : FS * option Path :=
  let name := path_name archive in
  let folder :=
    if ends_with ".tar.gz" name || ends_with ".tgz" name
    then path_div (path_parent archive) (remove_all ".tgz" (remove_all ".tar.gz" name))
    else path_div (path_parent archive) (name_stem name) in
  if file_exists fs folder then (fs, None) else
  let ext := lower_str (name_suffix name) in
  let kind :=
    if String.eqb ext ".zip" then Some "zip"
    else if String.eqb ext ".tar" then Some "tar"
    else if String.eqb ext ".gz" || String.eqb ext ".tgz" || ends_with ".tar.gz" name
    then Some "tar:gz"
    else if (String.eqb ext ".7z" || String.eqb ext ".rar") && seven_zip then Some "7z"
    else None in
  match kind with
  | None => (fs, None)
  | Some k =>
      if file_exists fs archive then
        let '(fs', ok) := unpack k archive folder fs in
        (fs', if ok then Some folder else None)
      else (fs, None)
  end.

(** [extract_all_archives]: every archive found is handed to
    [extract_archive] in turn; a success may delete the archive. *)
Definition extract_step (unpack : extractor_fn) (cfg : config) (st : state) (archive : Path)
    : state :=
  let st1 := mkState (st_fs st) (st_calls st) (st_orig st) (st_chd st)
               (st_extracts st ++ [archive]) in
  match extract_archive unpack (cfg_seven_zip cfg) (st_fs st1) archive with
  | (fs', Some _) =>
      set_fs st1 (if cfg_delete_archives cfg then delete archive fs' else fs')
  | (fs', None) => set_fs st1 fs'
  end.

Definition extract_all_archives (unpack : extractor_fn) (cfg : config) (st : state)
    (dir : Path) : state :=
  foldl (extract_step unpack cfg) st (find_compressed_files (st_fs st) dir (cfg_recursive cfg)).

(* ------------------------------------------------------------------ *)
(** ** [start_conversion] and [conversion_thread] (one schedule) *)

Definition reset_totals (st : state) : state :=
  mkState (st_fs st) (st_calls st) 0 0 (st_extracts st).

Definition conversion_thread (chdman : chdman_fn) (unpack : extractor_fn) (cfg : config)
    (dir : Path) (st : state) : state * tally :=
  let st1 := if cfg_extract cfg then extract_all_archives unpack cfg st dir else st in
  let game_files := find_game_files cfg (st_fs st1) dir in
  match game_files with
  | [] => (st1, mkTally 0 0 0)
  | _ =>
      let '(st2, rs) := run_jobs chdman cfg (reset_totals st1) game_files in
      (st2, tally_of (length game_files) rs)
  end.

Inductive start_outcome := Refused | Ran (t : tally).

(** [start_conversion]: [dir_ok] is [os.path.isdir(self.source_dir)],
    [confirmed] the answer to the deletion question. *)
Definition start_conversion (chdman : chdman_fn) (unpack : extractor_fn) (cfg : config)
    (dir : Path) (dir_ok confirmed : bool) (st : state) : state * start_outcome :=
  if negb dir_ok then (st, Refused)
  else if cfg_delete_originals cfg && cfg_move_to_backup cfg then (st, Refused)
  else if cfg_delete_originals cfg && negb confirmed then (st, Refused)
  else let '(st', t) := conversion_thread chdman unpack cfg dir st in (st', Ran t).

(* ------------------------------------------------------------------ *)
(** ** The worker pool and the result loop of [conversion_thread]

    All jobs are submitted at once; a worker takes a queued job when one
    of the [max_workers] slots is free; [process_single_file] first reads
    [is_converting] and returns [None] when it is cleared, otherwise the
    job converts and ends with its result [res i]. The loop of
    [as_completed] takes a finished future, checks [is_converting] (and
    breaks, cancelling the queued futures, when it is cleared), then reads
    the result and counts it. *)

Inductive jstatus := Queued | Running | Finished (r : ret) | Dropped.

Inductive loop_state := LWait | LHandle (i : nat) | LBroken.

Record pool := mkPool {
  pl_flag : bool;                 (** [is_converting] *)
  pl_jobs : list jstatus;         (** the futures, by submission index *)
  pl_started : list nat;          (** jobs that went past the flag check *)
  pl_loop : loop_state;
  pl_yielded : list nat;          (** futures [as_completed] handed out *)
  pl_counted : list (nat * bool); (** counted results: [true] a success *)
  pl_succ : nat;                  (** [successful] *)
  pl_fail : nat                   (** [failed] *)
}.

Inductive event :=
  | EStart (i : nat)    (** a worker takes job [i] *)
  | EFinish (i : nat)   (** job [i] returns from the pipeline *)
  | EStop               (** [stop_conversion] *)
  | ECollect (i : nat)  (** [as_completed] yields the future of job [i] *)
  | EHandle.            (** the loop reads that future's result *)

Definition pool_init (n : nat) : pool := mkPool true (replicate n Queued) [] LWait [] [] 0 0.

Definition is_running (s : jstatus) : bool := match s with Running => true | _ => false end.

Definition drop_queued (s : jstatus) : jstatus := match s with Queued => Dropped | _ => s end.

Definition pool_step (max_workers : nat) (res : nat -> ret) (p : pool) (e : event) : pool :=
  match e with
  | EStart i =>
      match pl_jobs p !! i with
      | Some Queued =>
          if length (filter (fun s => is_running s = true) (pl_jobs p)) <? max_workers then
            if pl_flag p
            then mkPool (pl_flag p) (<[i := Running]> (pl_jobs p)) (pl_started p ++ [i])
                   (pl_loop p) (pl_yielded p) (pl_counted p) (pl_succ p) (pl_fail p)
            else mkPool (pl_flag p) (<[i := Finished RNone]> (pl_jobs p)) (pl_started p)
                   (pl_loop p) (pl_yielded p) (pl_counted p) (pl_succ p) (pl_fail p)
          else p
      | _ => p
      end
  | EFinish i =>
      match pl_jobs p !! i with
      | Some Running =>
          mkPool (pl_flag p) (<[i := Finished (res i)]> (pl_jobs p)) (pl_started p)
            (pl_loop p) (pl_yielded p) (pl_counted p) (pl_succ p) (pl_fail p)
      | _ => p
      end
  | EStop =>
      mkPool false (pl_jobs p) (pl_started p) (pl_loop p) (pl_yielded p) (pl_counted p)
        (pl_succ p) (pl_fail p)
  | ECollect i =>
      match pl_loop p, pl_jobs p !! i with
      | LWait, Some (Finished _) =>
          if bool_decide (i ∈ pl_yielded p) then p
          else if pl_flag p
          then mkPool (pl_flag p) (pl_jobs p) (pl_started p) (LHandle i) (pl_yielded p ++ [i])
                 (pl_counted p) (pl_succ p) (pl_fail p)
          else mkPool (pl_flag p) (drop_queued <$> pl_jobs p) (pl_started p) LBroken
                 (pl_yielded p ++ [i]) (pl_counted p) (pl_succ p) (pl_fail p)
      | _, _ => p
      end
  | EHandle =>
      match pl_loop p with
      | LHandle i =>
          match pl_jobs p !! i with
          | Some (Finished (RBool true)) =>
              mkPool (pl_flag p) (pl_jobs p) (pl_started p) LWait (pl_yielded p)
                (pl_counted p ++ [(i, true)]) (S (pl_succ p)) (pl_fail p)
          | Some (Finished (RBool false)) | Some (Finished RExc) =>
              mkPool (pl_flag p) (pl_jobs p) (pl_started p) LWait (pl_yielded p)
                (pl_counted p ++ [(i, false)]) (pl_succ p) (S (pl_fail p))
          | _ =>
              mkPool (pl_flag p) (pl_jobs p) (pl_started p) LWait (pl_yielded p)
                (pl_counted p) (pl_succ p) (pl_fail p)
          end
      | _ => p
      end
  end.

Definition pool_run (max_workers : nat) (res : nat -> ret) (p : pool) (evs : list event) : pool :=
  foldl (pool_step max_workers res) p evs.

(* ------------------------------------------------------------------ *)
(** ** [update_metrics]: the ETA, in exact rational arithmetic *)

Definition avg_time (durations : list Q) : Q :=
  match durations with
  | [] => 0%Q
  | _ => (fold_left Qplus durations 0 / inject_Z (Z.of_nat (length durations)))%Q
  end.

(** [None] is what [format_seconds] shows as [--]. *)
Definition overall_eta (completed total : Z) (durations : list Q) (cpu_cores : Z) : option Q :=
  let avg := avg_time durations in
  let remaining := Z.max (total - completed) 0 in
  if Qeq_bool avg 0 then None
  else Some (avg * (inject_Z remaining / inject_Z (Z.max cpu_cores 1)))%Q.

(* ------------------------------------------------------------------ *)
(** ** [clean_game_name]

    The file name is a Python [str], a sequence of code points, and the
    three patterns are [str] patterns: [\s] and [str.strip()] take the
    characters for which [str.isspace] holds, [\d] takes every decimal
    digit, and under [re.IGNORECASE] a letter of the pattern matches every
    character it case-folds with. The transform is written over any
    alphabet that gives these three tests and the ASCII characters the
    patterns spell out; [latin1] below is the alphabet the file names of
    this development are read in. *)

Class Alphabet (A : Type) := {
  alph_eq_dec :: EqDecision A;
  (** [str.isspace]: what [\s] and [strip] take *)
  is_space_a : A -> bool;
  (** what [\d] takes *)
  is_digit_a : A -> bool;
  (** the letter of the pattern matches the character under [re.IGNORECASE] *)
  match_ci : ascii -> A -> bool;
  (** the characters written in the patterns and in the f-string *)
  lit : ascii -> A
}.

(** What the three patterns rely on, and what Python's [str] satisfies:
    the pattern characters are distinct characters; the space is
    whitespace and the parentheses and brackets are not; a decimal digit
    is no whitespace and [)] is no digit; and no letter of [Disc] matches
    [)]. Under these each quantifier of the patterns stops at a character
    it cannot take, so the greedy matches of [Text] are the matches of the
    backtracking regex engine. *)
Definition alphabet_ok (A : Type) `{Alphabet A} : Prop :=
  (forall a b : ascii, lit a = lit b -> a = b) /\
  is_space_a (lit " ") = true /\
  is_space_a (lit "(") = false /\ is_space_a (lit ")") = false /\
  is_space_a (lit "[") = false /\ is_space_a (lit "]") = false /\
  (forall x, is_digit_a x = true -> is_space_a x = false) /\
  is_digit_a (lit ")") = false /\
  match_ci "D" (lit ")") = false /\ match_ci "i" (lit ")") = false /\
  match_ci "s" (lit ")") = false /\ match_ci "c" (lit ")") = false.

Module Text.
Section Alph.
Context {A : Type} `{Alphabet A}.

(** The character is the pattern character [q]. *)
Definition is_lit (q : ascii) (x : A) : bool := bool_decide (x = lit q).

(** [\s*] (greedy). *)
Fixpoint skip_spaces (s : list A) : list A :=
  match s with
  | x :: s' => if is_space_a x then skip_spaces s' else s
  | [] => []
  end.

(** [\d*] (greedy). *)
Fixpoint skip_digits (s : list A) : list A :=
  match s with
  | x :: s' => if is_digit_a x then skip_digits s' else s
  | [] => []
  end.

(** [\d+] (greedy). *)
Definition digits1 (s : list A) : option (list A) :=
  match s with
  | x :: s' => if is_digit_a x then Some (skip_digits s') else None
  | [] => None
  end.

(** One literal character of the pattern. *)
Definition expect (q : ascii) (s : list A) : option (list A) :=
  match s with
  | x :: s' => if is_lit q x then Some s' else None
  | [] => None
  end.

(** A literal word of the pattern under [re.IGNORECASE]: the rest of [s]. *)
Fixpoint prefix_ci (p : string) (s : list A) : option (list A) :=
  match p with
  | EmptyString => Some s
  | String c p' =>
      match s with
      | x :: s' => if match_ci c x then prefix_ci p' s' else None
      | [] => None
      end
  end.

(** [[^q]*] (greedy): the longest prefix without [q], and the rest. *)
Fixpoint take_until (q : ascii) (s : list A) : list A * list A :=
  match s with
  | [] => ([], [])
  | x :: s' =>
      if is_lit q x then ([], s)
      else let '(a, b) := take_until q s' in (x :: a, b)
  end.

(** One attempt of [\(Disc\s*\d+\)] under [re.IGNORECASE] at the start
    of [s]. Returns the rest after the match. *)
Definition match_disc (s : list A) : option (list A) :=
  s1 ← expect "(" s;
  s2 ← prefix_ci "Disc" s1;
  s3 ← digits1 (skip_spaces s2);
  expect ")" s3.

(** [re.search(...).group(0)], or the empty string when nothing matches. *)
Fixpoint search_disc (s : list A) : list A :=
  match s with
  | [] => []
  | _ :: s' =>
      match match_disc s with
      | Some rest => take (length s - length rest) s
      | None => search_disc s'
      end
  end.

(** One attempt of the pattern [\s*] [o] [[^c]+] [c], for [o c] being
    the parenthesis or the bracket pair. Returns the rest after the
    match. *)
Definition match_group (o c : ascii) (s : list A) : option (list A) :=
  s1 ← expect o (skip_spaces s);
  let '(inner, s2) := take_until c s1 in
  match inner with
  | [] => None
  | _ => expect c s2
  end.

(** [re.sub(pattern, "", s)]: every match, left to right, removed. *)
Fixpoint sub_group_fuel (fuel : nat) (o c : ascii) (s : list A) : list A :=
  match fuel with
  | O => s
  | S f =>
      match s with
      | [] => []
      | x :: s' =>
          match match_group o c s with
          | Some rest => sub_group_fuel f o c rest
          | None => x :: sub_group_fuel f o c s'
          end
      end
  end.

Definition sub_group (o c : ascii) (s : list A) : list A := sub_group_fuel (length s) o c s.

(** [re.sub(r"\s+", " ", s)]. *)
Fixpoint collapse_spaces_aux (prev : bool) (s : list A) : list A :=
  match s with
  | [] => []
  | x :: s' =>
      if is_space_a x
      then (if prev then collapse_spaces_aux true s' else lit " " :: collapse_spaces_aux true s')
      else x :: collapse_spaces_aux false s'
  end.

Definition collapse_spaces (s : list A) : list A := collapse_spaces_aux false s.

(** [str.rstrip()]. *)
Fixpoint rstrip (s : list A) : list A :=
  match s with
  | [] => []
  | x :: s' =>
      match rstrip s' with
      | [] => if is_space_a x then [] else [x]
      | r => x :: r
      end
  end.

(** [str.strip()]. *)
Definition strip (s : list A) : list A := rstrip (skip_spaces s).

(** The three substitutions and the strip: [name] before the disc tag is
    put back. *)
Definition clean_name_body (filename : list A) : list A :=
  let name := sub_group "(" ")" filename in
  let name := sub_group "[" "]" name in
  strip (collapse_spaces name).

(** The truth value of a [str]. *)
Definition nonempty (s : list A) : bool :=
  match s with [] => false | _ => true end.

Definition clean_game_name (filename : list A) : list A :=
  let disc_tag := search_disc filename in
  let name := clean_name_body filename in
  if nonempty disc_tag then name ++ lit " " :: disc_tag else name.

(** [q not in s]. *)
Fixpoint char_free (q : ascii) (s : list A) : bool :=
  match s with
  | [] => true
  | x :: s' => negb (is_lit q x) && char_free q s'
  end.

(** No letter of the word [p] matches the character [q]. *)
Fixpoint ci_free (q : ascii) (p : string) : bool :=
  match p with
  | EmptyString => true
  | String c p' => negb (match_ci c (lit q)) && ci_free q p'
  end.

(** No whitespace at either end, and every whitespace run is one space:
    what [re.sub(r"\s+", " ", name).strip()] leaves. *)
Fixpoint collapsed (prev : bool) (s : list A) : bool :=
  match s with
  | [] => true
  | x :: s' =>
      if is_space_a x then negb prev && is_lit " " x && collapsed true s'
      else collapsed false s'
  end.

(** No match of [\s*] [o] [[^c]+] [c] starts anywhere in [s]: every [o]
    is followed at once by [c], or by no [c] at all. *)
Fixpoint no_group (o c : ascii) (s : list A) : bool :=
  match s with
  | [] => true
  | x :: s' =>
      (negb (is_lit o x) ||
       match s' with y :: _ => is_lit c y | [] => true end ||
       char_free c s') && no_group o c s'
  end.

End Alph.
End Text.

(** Latin-1: a Rocq character is the code point U+0000 to U+00FF of the
    same number. Its whitespace is [is_space], its decimal digits are
    [0] to [9], and a letter of a pattern folds with its other ASCII case
    only (the other characters Python folds with [i] or [s] lie outside
    this range). *)
#[global] Instance latin1 : Alphabet ascii := {|
  is_space_a := is_space;
  is_digit_a := is_digit;
  match_ci := fun c x => Ascii.eqb (lower c) (lower x);
  lit := fun c => c
|}.

(** [clean_game_name] on a file name. *)
Definition clean_game_name (filename : string) : string :=
  string_of_list_ascii (Text.clean_game_name (list_ascii_of_string filename)).

(* ------------------------------------------------------------------ *)
(** ** [execute_move] of the Move CHD Files dialog *)

(** [new_name.rsplit(".", 1)[0]]. *)
Fixpoint rsplit_dot (s : string) : option (string * string) :=
  match s with
  | EmptyString => None
  | String c s' =>
      match rsplit_dot s' with
      | Some (b, r) => Some (String c b, r)
      | None => if Ascii.eqb c "." then Some ("", s') else None
      end
  end.

Definition rsplit_base (s : string) : string :=
  match rsplit_dot s with Some (b, _) => b | None => s end.

(** Destinations: [dest_path / new_name], then
    [dest_path / (base_name + " (" + str(counter) + ").chd")]. *)
Definition move_cand (dest_path : Path) (new_name : string) (k : nat) : Path :=
  match k with
  | O => path_div dest_path new_name
  | S _ => path_div dest_path (rsplit_base new_name +:+ " (" +:+ pretty k +:+ ").chd")
  end.

Definition move_new_name (remove_locale : bool) (chd : Path) : string :=
  if remove_locale then clean_game_name (name_stem (path_name chd)) +:+ ".chd"
  else path_name chd.

(** One file: the destination chosen, then [shutil.copy2] or
    [shutil.move]. *)
Definition execute_move_one (remove_locale copy_instead : bool) (dest_path : Path)
    (fs : FS) (chd : Path) : FS * Path :=
  let dest_file := free_dest fs (move_cand dest_path (move_new_name remove_locale chd)) in
  match fs !! chd with
  | Some c => (if copy_instead then <[dest_file := c]> fs else move_file fs chd dest_file, dest_file)
  | None => (fs, dest_file)
  end.

(** The loop over [found_files]: the final files and the destinations. *)
Fixpoint execute_move (remove_locale copy_instead : bool) (dest_path : Path) (fs : FS)
    (found_files : list Path) : FS * list Path :=
  match found_files with
  | [] => (fs, [])
  | chd :: rest =>
      let '(fs1, d) := execute_move_one remove_locale copy_instead dest_path fs chd in
      let '(fs2, ds) := execute_move remove_locale copy_instead dest_path fs1 rest in
      (fs2, d :: ds)
  end.

(* ------------------------------------------------------------------ *)
(** ** Concrete inputs *)

Definition nl : string := String (ascii_of_nat 10) "".
Definition quoted (s : string) : string := String dquote (s +:+ String dquote "").
Definition cue_entry (bin : string) : string := "FILE " +:+ quoted bin +:+ " BINARY" +:+ nl.

Definition st_of (fs : FS) : state := mkState fs [] 0 0 [].

(** A chdman that fails, and one that writes its output. *)
Definition chdman_fail : chdman_fn := fun _ _ _ _ => ToolRan 1 None.
Definition chdman_ok : chdman_fn := fun _ _ _ _ => ToolRan 0 (Some "CHD").

Definition unpack_none : extractor_fn := fun _ _ _ fs => (fs, false).


Definition cfg_with (delete_originals move_to_backup : bool) : config :=
  mkConfig true true true false false delete_originals move_to_backup false.

(** A CUE whose CHD is already there. *)
Definition fs_converted : FS :=
  <[["roms"; "Game.cue"] := cue_entry "Game.bin"]>
  (<[["roms"; "Game.bin"] := "data"]>
  (<[["roms"; "Game.chd"] := "chd"]> ∅)).

(** A CUE naming three BIN files, of which the third is missing. *)
Definition cue_three : string := cue_entry "a.bin" +:+ cue_entry "b.bin" +:+ cue_entry "c.bin".

Definition fs_sidecars : FS :=
  <[["roms"; "Game.cue"] := cue_three]>
  (<[["roms"; "a.bin"] := "aaaa"]>
  (<[["roms"; "b.bin"] := "bb"]> ∅)).

(** Two converted games in one folder. *)
Definition fs_two_converted : FS :=
  <[["roms"; "A.cue"] := cue_entry "A.bin"]> (<[["roms"; "A.bin"] := "1"]>
  (<[["roms"; "A.chd"] := "x"]>
  (<[["roms"; "B.iso"] := "22"]> (<[["roms"; "B.chd"] := "y"]> ∅)))).

(** A gzip tarball and a zip archive. *)
Definition fs_archives : FS :=
  <[["roms"; "game.tar.gz"] := "archive"]> (<[["roms"; "other.zip"] := "zip"]> ∅).

(** Two CHD files whose cleaned names are both [Game.chd]. *)
Definition fs_chds : FS :=
  <[["s"; "a"; "Game (USA).chd"] := "1"]> (<[["s"; "b"; "Game (Europe).chd"] := "2"]> ∅).

(** What holds of every pool state the run reaches: running and finished
    jobs went past the flag check, the loop counts each yielded future at
    most once, and the totals are the counts of the results recorded. *)
Definition pool_inv (p : pool) : Prop :=
  (forall i, pl_jobs p !! i = Some Running -> i ∈ pl_started p) /\
  (forall i r, pl_jobs p !! i = Some (Finished r) -> r <> RNone -> i ∈ pl_started p) /\
  (forall i b, (i, b) ∈ pl_counted p -> i ∈ pl_started p) /\
  NoDup (pl_yielded p) /\
  (forall i, i ∈ (pl_counted p).*1 -> i ∈ pl_yielded p) /\
  NoDup (pl_counted p).*1 /\
  (forall i, pl_loop p = LHandle i -> i ∈ pl_yielded p /\ i ∉ (pl_counted p).*1) /\
  pl_succ p = length (filter (fun x => x.2 = true) (pl_counted p)) /\
  pl_fail p = length (filter (fun x => x.2 = false) (pl_counted p)).

(** What the results recorded say: a finished job that went through the
    pipeline holds its own result [res i], and a counted pair [(i, b)]
    has [b] a success exactly when [res i] is one. *)
Definition pool_results_ok (res : nat -> ret) (p : pool) : Prop :=
  (forall i r, pl_jobs p !! i = Some (Finished r) -> r <> RNone -> r = res i) /\
  (forall i b, (i, b) ∈ pl_counted p -> res i <> RNone /\ b = is_success (res i)).

(** Two jobs, two workers: both start, job 0 is counted, then the user
    stops while job 1 is still converting. *)
Definition sched_stop_in_flight : list event :=
  [EStart 0; EStart 1; EFinish 0; ECollect 0; EHandle; EStop; EFinish 1; ECollect 1].

(** [c not in s]. *)
Fixpoint char_free (c : ascii) (s : string) : bool :=
  match s with
  | EmptyString => true
  | String d s' => negb (Ascii.eqb d c) && char_free c s'
  end.

(* ------------------------------------------------------------------ *)
(** ** [format_seconds] and the status line of [update_metrics] *)

(** [int(x)]: truncation toward zero. *)
Definition q_int (x : Q) : Z := Z.quot (Qnum x) (Zpos (Qden x)).

(** [None] is Python's [None]. *)
Definition format_seconds (seconds : option Q) : string :=
  match seconds with
  | None => "--"
  | Some x =>
      if negb (Qle_bool 0 x) then "--" else
      let n := q_int x in
      let m := (n / 60)%Z in
      let s := (n mod 60)%Z in
      let h := (m / 60)%Z in
      let m := (m mod 60)%Z in
      if (0 <? h)%Z then pretty h +:+ "h " +:+ pretty m +:+ "m " +:+ pretty s +:+ "s"
      else if (0 <? m)%Z then pretty m +:+ "m " +:+ pretty s +:+ "s"
      else pretty s +:+ "s"
  end.

(** [f"Converting {completed}/{total} ETA {self.format_seconds(overall_eta)}"]. *)
Definition metrics_status_text (completed total : Z) (durations : list Q) (cpu_cores : Z)
    : string :=
  "Converting " +:+ pretty completed +:+ "/" +:+ pretty total +:+ " ETA " +:+
  format_seconds (overall_eta completed total durations cpu_cores).

(* ------------------------------------------------------------------ *)
(** ** Version numbers: [get_installed_chdman_version],
    [get_latest_mame_version] and [check_for_chdman_update] *)

(** A case-sensitive literal prefix: the rest of [s] after [p]. *)
Fixpoint prefix_cs (p s : string) : option string :=
  match p with
  | EmptyString => Some s
  | String c p' =>
      match s with
      | EmptyString => None
      | String d s' => if Ascii.eqb c d then prefix_cs p' s' else None
      end
  end.

(** [\d{4}], captured, and the rest. *)
Definition digits4 (s : string) : option (string * string) :=
  match s with
  | String a (String b (String c (String d r))) =>
      if is_digit a && is_digit b && is_digit c && is_digit d
      then Some (String a (String b (String c (String d ""))), r) else None
  | _ => None
  end.

(** [\d+] (greedy), captured, and the rest (the capture may be empty). *)
Fixpoint take_digits (s : string) : string * string :=
  match s with
  | EmptyString => ("", "")
  | String c s' =>
      if is_digit c then let '(a, b) := take_digits s' in (String c a, b) else ("", s)
  end.

(** [\d+\.\d+] at one position: the text matched. No quantifier can give
    back a character the next item would accept, so the greedy match is
    the only one. *)
Definition match_decimal (s : string) : option string :=
  let '(a, s1) := take_digits s in
  if String.eqb a "" then None else
  match expect "." s1 with
  | None => None
  | Some s2 =>
      let '(b, _) := take_digits s2 in
      if String.eqb b "" then None else Some (a +:+ "." +:+ b)
  end.

(** [re.search]: the first position, the end of the text included, where
    the pattern matches. *)
Fixpoint search_first {A : Type} (m : string -> option A) (s : string) : option A :=
  match m s with
  | Some x => Some x
  | None => match s with EmptyString => None | String _ s' => search_first m s' end
  end.

Fixpoint zeros (n : nat) : string :=
  match n with O => "" | S n' => String "0" (zeros n') end.

(** [str.zfill(width)]: zeros on the left up to [width] characters, after
    a leading sign if there is one. *)
Definition zfill (width : nat) (s : string) : string :=
  let pad := zeros (width - String.length s) in
  match s with
  | EmptyString => pad
  | String c s' => if Ascii.eqb c "+" || Ascii.eqb c "-" then String c (pad +:+ s') else pad +:+ s
  end.

(** [\(mame(\d{4})\)], case sensitive. *)
Definition match_mame_tag (s : string) : option string :=
  s1 ← expect "(" s;
  s2 ← prefix_cs "mame" s1;
  match digits4 s2 with
  | Some (d, s3) => s4 ← expect ")" s3; Some d
  | None => None
  end.

(** What [get_installed_chdman_version] makes of the tool's output. *)
Definition parse_installed_version (output : string) : option string :=
  match search_first match_mame_tag output with
  | Some v => Some v
  | None =>
      match search_first match_decimal output with
      | Some ver => Some (zfill 4 (remove_all "." ver))
      | None => None
      end
  end.

(** [get_installed_chdman_version]: [chdman_path] is [None] or a string;
    [run p] is what [chdman --version] prints on stdout and stderr, or
    [None] when running it raises. *)
Definition get_installed_chdman_version (chdman_path : option string)
    (run : string -> option (string * string)) : option string :=
  match chdman_path with
  | None | Some EmptyString => None
  | Some p =>
      match run p with
      | Some (out, err) => parse_installed_version (out +:+ err)
      | None => None
      end
  end.

(** [mame(\d{4})], case insensitive. *)
Definition match_mame_ci (s : string) : option string :=
  s1 ← prefix_ci "mame" s;
  match digits4 s1 with Some (d, _) => Some d | None => None end.

(** [MAME\s+(\d+\.\d+)], case sensitive: the decimal number. *)
Definition match_mame_decimal (s : string) : option string :=
  s1 ← prefix_cs "MAME" s;
  s2 ← spaces1 s1;
  match_decimal s2.

Definition parse_latest_version (html : string) : option string :=
  match search_first match_mame_ci html with
  | Some v => Some v
  | None =>
      match search_first match_mame_decimal html with
      | Some ver => Some (zfill 4 (remove_all "." ver))
      | None => None
      end
  end.

(** [get_latest_mame_version]: [page] is the decoded release page, or
    [None] when the request or the decoding raises. *)
Definition get_latest_mame_version (page : option string) : option string :=
  match page with Some html => parse_latest_version html | None => None end.

Fixpoint digits_value (acc : Z) (s : string) : option Z :=
  match s with
  | EmptyString => Some acc
  | String c s' =>
      if is_digit c then digits_value (10 * acc + (Z.of_nat (nat_of_ascii c) - 48))%Z s' else None
  end.

(** [int(s)] on ASCII digit strings, [None] where it raises; the only
    strings that reach it are digit strings. *)
Definition int_of_digits (s : string) : option Z :=
  match s with EmptyString => None | _ => digits_value 0 s end.

(** [f"MAME {v[0]}.{v[1:]}"] without the prefix. *)
Definition mame_display (v : string) : string :=
  match v with EmptyString => "" | String c r => String c ("." +:+ r) end.

Record update_check := mkUpdateCheck {
  uc_fetched : bool;                    (** the release page was requested *)
  uc_offer : option (string * string);  (** the question: installed, latest *)
  uc_download : bool                    (** [download_mame_tools] was called *)
}.

(** [check_for_chdman_update]: [yes] is the answer to the question. *)
Definition check_for_chdman_update (installed : option string) (page : option string)
    (yes : bool) : update_check :=
  match installed with
  | None | Some EmptyString => mkUpdateCheck false None false
  | Some iv =>
      match get_latest_mame_version page with
      | None | Some EmptyString => mkUpdateCheck true None false
      | Some lv =>
          match int_of_digits lv, int_of_digits iv with
          | Some l, Some i =>
              if (i <? l)%Z then mkUpdateCheck true (Some (mame_display iv, mame_display lv)) yes
              else mkUpdateCheck true None false
          | _, _ => mkUpdateCheck true None false
          end
      end
  end.

(* ------------------------------------------------------------------ *)
(** ** Settings: [save_config], [load_config], [check_7zip],
    [check_chdman]

    A JSON value as [json.load] returns it for what [save_config] writes
    (strings, booleans, [null]) and for numbers. A [BooleanVar] holds a
    boolean: its [set] converts with Tcl's [getboolean], passed as [gb]
    ([None] where it raises). *)

Inductive jvalue := JStr (s : string) | JBool (b : bool) | JNull | JNum (z : Z).

(** Python truthiness. *)
Definition truthy (v : jvalue) : bool :=
  match v with
  | JStr s => negb (String.eqb s "")
  | JBool b => b
  | JNull => false
  | JNum z => negb (Z.eqb z 0)
  end.

Record app_settings := mkApp {
  app_source_dir : jvalue;
  app_delete_originals : bool;
  app_move_to_backup : bool;
  app_recursive : bool;
  app_ps1 : bool;
  app_ps2 : bool;
  app_extract : bool;
  app_delete_archives : bool;
  app_chdman : jvalue;     (** [chdman_path], [JNull] for [None] *)
  app_seven_zip : jvalue   (** [seven_zip_path] *)
}.

(** The values [__init__] sets before [load_config]. *)
Definition app_defaults : app_settings :=
  mkApp (JStr "") false true true false false true false JNull JNull.

Definition save_config (a : app_settings) : gmap string jvalue :=
  <["source_dir" := app_source_dir a]>
  (<["delete_originals" := JBool (app_delete_originals a)]>
  (<["move_to_backup" := JBool (app_move_to_backup a)]>
  (<["recursive" := JBool (app_recursive a)]>
  (<["process_ps1_cues" := JBool (app_ps1 a)]>
  (<["process_ps2_isos" := JBool (app_ps2 a)]>
  (<["extract_compressed" := JBool (app_extract a)]>
  (<["delete_archives_after_extract" := JBool (app_delete_archives a)]>
  (<["chdman_path" := app_chdman a]>
  (<["seven_zip_path" := app_seven_zip a]> ∅))))))))).

(** [config.get(key, default)]. *)
Definition cfg_get (d : gmap string jvalue) (k : string) (dflt : jvalue) : jvalue :=
  match d !! k with Some v => v | None => dflt end.

(** The statements of the [try] block run in order; the first that raises
    ends it, and what ran before stays done. *)
Fixpoint run_updates (us : list (app_settings -> option app_settings)) (a : app_settings)
    : app_settings :=
  match us with
  | [] => a
  | u :: us' => match u a with Some a' => run_updates us' a' | None => a end
  end.

Definition with_source_dir (a : app_settings) (v : jvalue) : app_settings :=
  mkApp v (app_delete_originals a) (app_move_to_backup a) (app_recursive a) (app_ps1 a)
    (app_ps2 a) (app_extract a) (app_delete_archives a) (app_chdman a) (app_seven_zip a).
Definition with_delete_originals (a : app_settings) (b : bool) : app_settings :=
  mkApp (app_source_dir a) b (app_move_to_backup a) (app_recursive a) (app_ps1 a)
    (app_ps2 a) (app_extract a) (app_delete_archives a) (app_chdman a) (app_seven_zip a).
Definition with_move_to_backup (a : app_settings) (b : bool) : app_settings :=
  mkApp (app_source_dir a) (app_delete_originals a) b (app_recursive a) (app_ps1 a)
    (app_ps2 a) (app_extract a) (app_delete_archives a) (app_chdman a) (app_seven_zip a).
Definition with_recursive (a : app_settings) (b : bool) : app_settings :=
  mkApp (app_source_dir a) (app_delete_originals a) (app_move_to_backup a) b (app_ps1 a)
    (app_ps2 a) (app_extract a) (app_delete_archives a) (app_chdman a) (app_seven_zip a).
Definition with_ps1 (a : app_settings) (b : bool) : app_settings :=
  mkApp (app_source_dir a) (app_delete_originals a) (app_move_to_backup a) (app_recursive a) b
    (app_ps2 a) (app_extract a) (app_delete_archives a) (app_chdman a) (app_seven_zip a).
Definition with_ps2 (a : app_settings) (b : bool) : app_settings :=
  mkApp (app_source_dir a) (app_delete_originals a) (app_move_to_backup a) (app_recursive a)
    (app_ps1 a) b (app_extract a) (app_delete_archives a) (app_chdman a) (app_seven_zip a).
Definition with_extract (a : app_settings) (b : bool) : app_settings :=
  mkApp (app_source_dir a) (app_delete_originals a) (app_move_to_backup a) (app_recursive a)
    (app_ps1 a) (app_ps2 a) b (app_delete_archives a) (app_chdman a) (app_seven_zip a).
Definition with_delete_archives (a : app_settings) (b : bool) : app_settings :=
  mkApp (app_source_dir a) (app_delete_originals a) (app_move_to_backup a) (app_recursive a)
    (app_ps1 a) (app_ps2 a) (app_extract a) b (app_chdman a) (app_seven_zip a).
Definition with_chdman (a : app_settings) (v : jvalue) : app_settings :=
  mkApp (app_source_dir a) (app_delete_originals a) (app_move_to_backup a) (app_recursive a)
    (app_ps1 a) (app_ps2 a) (app_extract a) (app_delete_archives a) v (app_seven_zip a).
Definition with_seven_zip (a : app_settings) (v : jvalue) : app_settings :=
  mkApp (app_source_dir a) (app_delete_originals a) (app_move_to_backup a) (app_recursive a)
    (app_ps1 a) (app_ps2 a) (app_extract a) (app_delete_archives a) (app_chdman a) v.

(** [var.set(config.get(key, default))]. *)
Definition set_bool (gb : jvalue -> option bool) (d : gmap string jvalue) (k : string)
    (dflt : bool) (upd : app_settings -> bool -> app_settings) (a : app_settings)
    : option app_settings :=
  match gb (cfg_get d k (JBool dflt)) with Some b => Some (upd a b) | None => None end.

(** [if saved and os.path.exists(saved): path = saved]. *)
Definition restore_path (exists_path : jvalue -> bool) (d : gmap string jvalue) (k : string)
    (upd : app_settings -> jvalue -> app_settings) (a : app_settings) : option app_settings :=
  let saved := cfg_get d k JNull in
  Some (if truthy saved && exists_path saved then upd a saved else a).

(** [load_config]: [file] is [None] when the file does not exist,
    [Some None] when [json.load] raises or gives something other than an
    object (then the first [config.get] raises), [Some (Some d)] for an
    object [d]. *)
Definition load_config (gb : jvalue -> option bool) (exists_path : jvalue -> bool)
    (file : option (option (gmap string jvalue))) (a : app_settings) : app_settings :=
  match file with
  | None | Some None => a
  | Some (Some d) =>
      run_updates
        [(fun a => Some (with_source_dir a (cfg_get d "source_dir" (JStr ""))));
         set_bool gb d "delete_originals" false with_delete_originals;
         set_bool gb d "move_to_backup" true with_move_to_backup;
         set_bool gb d "recursive" true with_recursive;
         set_bool gb d "process_ps1_cues" false with_ps1;
         set_bool gb d "process_ps2_isos" false with_ps2;
         set_bool gb d "extract_compressed" true with_extract;
         set_bool gb d "delete_archives_after_extract" false with_delete_archives;
         restore_path exists_path d "chdman_path" with_chdman;
         restore_path exists_path d "seven_zip_path" with_seven_zip] a
  end.

(** [check_7zip]: [which7] is [shutil.which("7z")]; [exists_path] tells
    whether each of the two usual install paths exists. *)
Definition seven_zip_x64 : string := "C:\Program Files\7-Zip\7z.exe".
Definition seven_zip_x86 : string := "C:\Program Files (x86)\7-Zip\7z.exe".

Definition check_7zip (which7 : option string) (exists_path : string -> bool)
    (a : app_settings) : app_settings * bool :=
  match which7 with
  | Some p => if String.eqb p "" then
                if exists_path seven_zip_x64 then (with_seven_zip a (JStr seven_zip_x64), true)
                else if exists_path seven_zip_x86 then (with_seven_zip a (JStr seven_zip_x86), true)
                else (a, false)
              else (with_seven_zip a (JStr p), true)
  | None => if exists_path seven_zip_x64 then (with_seven_zip a (JStr seven_zip_x64), true)
            else if exists_path seven_zip_x86 then (with_seven_zip a (JStr seven_zip_x86), true)
            else (a, false)
  end.

(** [check_chdman]: [direct] is the path of [chdman.exe] next to the
    script when it exists; [which] is [shutil.which("chdman")]. *)
Definition check_chdman (direct : option string) (which : option string) (a : app_settings)
    : app_settings * bool :=
  match direct with
  | Some p => (with_chdman a (JStr p), true)
  | None =>
      match which with
      | Some p => if String.eqb p "" then (a, false) else (with_chdman a (JStr p), true)
      | None => (a, false)
      end
  end.

(** The start of [__init__]: defaults, [load_config], [check_7zip], then
    [check_chdman], whose answer decides between the update check and the
    "chdman not found" dialog. *)
Definition startup (gb : jvalue -> option bool) (exists_json : jvalue -> bool)
    (file : option (option (gmap string jvalue))) (which7 : option string)
    (exists_path : string -> bool) (direct which : option string) : app_settings * bool :=
  let a1 := load_config gb exists_json file app_defaults in
  let a2 := fst (check_7zip which7 exists_path a1) in
  check_chdman direct which a2.

(* ------------------------------------------------------------------ *)
(** ** [scan_directory] *)

(** The outcome, without the text: the warning, nothing found (the
    convert button disabled), archives only (enabled), or the counts and
    the total size in bytes of the descriptors found (enabled). *)
Inductive scan_outcome :=
  | ScanInvalidDir
  | ScanNothing
  | ScanArchivesOnly (count size : nat)
  | ScanFound (ps1 ps2 archives total_size : nat).

Definition scan_one (fs : FS) (acc : nat * nat * nat) (g : Path) : nat * nat * nat :=
  let '(ps1, ps2, total_size) := acc in
  let ext := lower_str (name_suffix (path_name g)) in
  if String.eqb ext ".cue" then
    (S ps1, ps2, total_size + (sum_list (map (file_size fs) (parse_cue_file fs g)) + file_size fs g))
  else if String.eqb ext ".iso" then (ps1, S ps2, total_size + file_size fs g)
  else (ps1, ps2, total_size).

(** [dir_ok] is [self.source_dir and os.path.isdir(self.source_dir)]. *)
Definition scan_directory (cfg : config) (fs : FS) (dir : Path) (dir_ok : bool) : scan_outcome :=
  if negb dir_ok then ScanInvalidDir else
  let compressed := if cfg_extract cfg then find_compressed_files fs dir (cfg_recursive cfg) else [] in
  let compressed_count := length compressed in
  let compressed_size := sum_list (map (file_size fs) compressed) in
  let game_files := find_game_files cfg fs dir in
  match game_files with
  | [] => if compressed_count =? 0 then ScanNothing
          else ScanArchivesOnly compressed_count compressed_size
  | _ =>
      let '(ps1, ps2, total_size) := foldl (scan_one fs) (0, 0, 0) game_files in
      ScanFound ps1 ps2 compressed_count total_size
  end.

(* ------------------------------------------------------------------ *)
(** ** [find_chd_files] and [scan_for_chd] of the Move CHD Files dialog *)

Definition find_chd_files (fs : FS) (dir : Path) (recursive : bool) : list Path :=
  sorted_paths (glob fs dir recursive ".chd").

(** One entry of the listing: the stem, the cleaned name when it is shown
    (names cleaned and different), and the size. *)
Definition preview_line (remove_locale : bool) (fs : FS) (chd : Path)
    : string * option string * nat :=
  let original_name := name_stem (path_name chd) in
  let size := file_size fs chd in
  if remove_locale then
    let clean_name := clean_game_name original_name in
    if String.eqb clean_name original_name then (original_name, None, size)
    else (original_name, Some clean_name, size)
  else (original_name, None, size).

(** [scan_for_chd]: [None] for the warning; otherwise [found_files] and
    the listing. *)
Definition scan_for_chd (remove_locale recursive : bool) (fs : FS) (source : Path)
    (source_ok : bool) : option (list Path * list (string * option string * nat)) :=
  if negb source_ok then None else
  let chd_files := find_chd_files fs source recursive in
  Some (chd_files, map (preview_line remove_locale fs) chd_files).

(** The name the listing announces: [{clean_name}.chd] or
    [{original_name}.chd]. *)
Definition shown_name (line : string * option string * nat) : string :=
  match line with
  | (_, Some clean, _) => clean +:+ ".chd"
  | (original, None, _) => original +:+ ".chd"
  end.

(** Number of jobs whose status is [Running]. *)
Definition running_count (p : pool) : nat :=
  length (filter (fun s => is_running s = true) (pl_jobs p)).

(** All characters are ASCII digits. *)
Fixpoint all_digits (s : string) : bool :=
  match s with EmptyString => true | String c s' => is_digit c && all_digits s' end.

(** Whether a job status counts as running. *)
Definition run_bit (s : jstatus) : nat := if is_running s then 1 else 0.

(** The shape every pool state keeps: the job list has its length, the
    started jobs are indices of it, and at most [mw] jobs are running. *)
Definition pool_shape (n mw : nat) (p : pool) : Prop :=
  length (pl_jobs p) = n /\ (forall i, i ∈ pl_started p -> i < n) /\ running_count p <= mw.

(** A CUE text made of one [FILE "name" BINARY] line per name. *)
Definition cue_of (names : list string) : string := foldr (fun n acc => cue_entry n +:+ acc) "" names.

(** Printable ASCII (0x20 to 0x7e): text that decodes to itself as UTF-8
    and holds no line break. *)
Fixpoint printable_ascii (s : string) : bool :=
  match s with
  | EmptyString => true
  | String c s' => (32 <=? nat_of_ascii c) && (nat_of_ascii c <=? 126) && printable_ascii s'
  end.

(* ================================================================== *)
(** * Properties *)

Ltac unfold_pipeline :=
  unfold process_single_file, convert_to_chd in *.

(** ** C1 *)

(** Claim C1, as stated: a job whose CHD exists is not postprocessed.
    Refuted: the skip returns [True] without calling chdman, and the
    delete policy then removes the descriptor and its BIN file. *)
Lemma C1_skip_still_postprocessed :
  convert_to_chd chdman_fail (st_of fs_converted) ["roms"; "Game.cue"]
    = (st_of fs_converted, RBool true) /\
  file_exists fs_converted ["roms"; "Game.cue"] = true /\
  file_exists (st_fs (fst (process_single_file chdman_fail (cfg_with true false) true
                 (st_of fs_converted) ["roms"; "Game.cue"]))) ["roms"; "Game.cue"] = false /\
  file_exists (st_fs (fst (process_single_file chdman_fail (cfg_with true false) true
                 (st_of fs_converted) ["roms"; "Game.cue"]))) ["roms"; "Game.bin"] = false.
Proof. vm_compute. repeat split. Qed.

(** Claim C1, amended: postprocessing follows every [True] result of
    [convert_to_chd], the skip included: when the CHD already exists,
    chdman is not called, the job succeeds, and the originals are deleted
    or moved to the backup folder as the policy says. *)
Theorem skip_postprocessed (chdman : chdman_fn) (cfg : config) (st : state) (f : Path) :
  file_exists (st_fs st) (with_suffix f ".chd") = true ->
  process_single_file chdman cfg true st f =
    ((if cfg_delete_originals cfg then set_fs st (delete_original_files (st_fs st) f)
      else if cfg_move_to_backup cfg then set_fs st (move_to_backup_folder (st_fs st) f)
      else st), RBool true).
Proof.
  intros Hchd. unfold_pipeline. rewrite Hchd.
  destruct (cfg_delete_originals cfg), (cfg_move_to_backup cfg); reflexivity.
Qed.

Lemma skip_postprocessed_witness :
  file_exists fs_converted (with_suffix ["roms"; "Game.cue"] ".chd") = true /\
  process_single_file chdman_fail (cfg_with false true) true (st_of fs_converted)
    ["roms"; "Game.cue"] =
    (set_fs (st_of fs_converted) (move_to_backup_folder fs_converted ["roms"; "Game.cue"]),
     RBool true).
Proof.
  split; [vm_compute; reflexivity|].
  apply (skip_postprocessed chdman_fail (cfg_with false true) (st_of fs_converted)).
  vm_compute. reflexivity.
Defined.

(** ** C2 *)

(** Claim C2, as stated: one entry per reference, a missing file marked
    absent. Refuted: of the three references of [cue_three] the resolver
    returns the two existing files only. *)
Lemma C2_missing_reference_dropped :
  cue_findall cue_three = ["a.bin"; "b.bin"; "c.bin"] /\
  parse_cue_file fs_sidecars ["roms"; "Game.cue"] = [["roms"; "a.bin"]; ["roms"; "b.bin"]].
Proof. vm_compute. split; reflexivity. Qed.

Lemma file_exists_lookup (fs : FS) (p : Path) (c : string) :
  fs !! p = Some c -> file_exists fs p = true.
Proof. intros H. unfold file_exists. apply bool_decide_eq_true_2, elem_of_dom. eauto. Qed.

(** Claim C2, amended: [parse_cue_file] returns, in reference order, the
    referenced files that exist; a missing one is only logged and left
    out. The job still goes on to chdman ([createcd] on the CUE). *)
Theorem parse_cue_existing_only (chdman : chdman_fn) (st : state) (cue : Path)
    (content : string) :
  st_fs st !! cue = Some content ->
  lower_str (name_suffix (path_name cue)) = ".cue" ->
  file_exists (st_fs st) (with_suffix cue ".chd") = false ->
  (forall p, p ∈ parse_cue_file (st_fs st) cue <->
     p ∈ map (path_join (path_parent cue)) (cue_findall content) /\ p ∈ dom (st_fs st)) /\
  parse_cue_file (st_fs st) cue `sublist_of` map (path_join (path_parent cue)) (cue_findall content) /\
  st_calls (fst (convert_to_chd chdman st cue)) =
    st_calls st ++ [("createcd", cue, with_suffix cue ".chd")].
Proof.
  intros Hc Hext Hchd. split; [|split].
  - intros p. unfold parse_cue_file. rewrite Hc, list_elem_of_filter.
    unfold file_exists. rewrite bool_decide_eq_true. tauto.
  - unfold parse_cue_file. rewrite Hc. apply sublist_filter.
  - unfold convert_to_chd. rewrite Hchd, Hext. cbn -[file_exists].
    rewrite (file_exists_lookup _ _ _ Hc). cbn -[file_exists].
    destruct (chdman _ _ _ _) as [rc out|out]; [|reflexivity].
    destruct (_ && _); reflexivity.
Qed.

Lemma parse_cue_existing_only_witness :
  parse_cue_file fs_sidecars ["roms"; "Game.cue"] `sublist_of`
    map (path_join ["roms"]) (cue_findall cue_three) /\
  st_calls (fst (convert_to_chd chdman_ok (st_of fs_sidecars) ["roms"; "Game.cue"])) =
    [("createcd", ["roms"; "Game.cue"], ["roms"; "Game.chd"])].
Proof.
  destruct (parse_cue_existing_only chdman_ok (st_of fs_sidecars) ["roms"; "Game.cue"] cue_three)
    as (_ & Hsub & Hcalls); [reflexivity | vm_compute; reflexivity | vm_compute; reflexivity |].
  split; [exact Hsub | exact Hcalls].
Defined.

(** ** C3 *)

Lemma set_fs_calls (st : state) (fs : FS) : st_calls (set_fs st fs) = st_calls st.
Proof. reflexivity. Qed.

(** Claim C3: a job whose CHD exists returns [True] at once, state and
    chdman untouched; so a run over jobs whose CHD is there when their
    turn comes gives as many successes as jobs, no failure, and no chdman
    call, whatever the postprocessing policy. *)
Theorem existing_chd_skipped :
  (forall (chdman : chdman_fn) (st : state) (f : Path),
     file_exists (st_fs st) (with_suffix f ".chd") = true ->
     convert_to_chd chdman st f = (st, RBool true)) /\
  (forall (chdman : chdman_fn) (cfg : config) (st : state) (jobs : list Path),
     outputs_present chdman cfg st jobs ->
     tally_of (length jobs) (snd (run_jobs chdman cfg st jobs)) =
       mkTally (length jobs) 0 (length jobs) /\
     st_calls (fst (run_jobs chdman cfg st jobs)) = st_calls st).
Proof.
  assert (Hone : forall (chdman : chdman_fn) (st : state) (f : Path),
     file_exists (st_fs st) (with_suffix f ".chd") = true ->
     convert_to_chd chdman st f = (st, RBool true)).
  { intros chdman st f H. unfold convert_to_chd. rewrite H. reflexivity. }
  split; [exact Hone|].
  intros chdman cfg st jobs. revert st.
  induction jobs as [|j js IH]; intros st Hpres; [split; reflexivity|].
  destruct Hpres as [Hj Hrest].
  assert (Hp : exists st1, process_single_file chdman cfg true st j = (st1, RBool true) /\
                            st_calls st1 = st_calls st).
  { unfold process_single_file. rewrite (Hone chdman st j Hj).
    destruct (cfg_delete_originals cfg); [eexists; split; reflexivity|].
    destruct (cfg_move_to_backup cfg); eexists; split; reflexivity. }
  destruct Hp as (st1 & Hp & Hc). rewrite Hp in Hrest. simpl in Hrest.
  destruct (IH st1 Hrest) as [Ht Hcalls].
  simpl. rewrite Hp.
  destruct (run_jobs chdman cfg st1 js) as [st2 rs] eqn:Hr. simpl in *.
  rewrite Hcalls, Hc. split; [|reflexivity].
  unfold tally_of in *. injection Ht as Hs Hf.
  rewrite !filter_cons. simpl. rewrite Hs, Hf. reflexivity.
Qed.

Lemma existing_chd_skipped_witness :
  outputs_present chdman_ok (cfg_with false true) (st_of fs_two_converted)
    [["roms"; "A.cue"]; ["roms"; "B.iso"]] /\
  tally_of 2 (snd (run_jobs chdman_ok (cfg_with false true) (st_of fs_two_converted)
                     [["roms"; "A.cue"]; ["roms"; "B.iso"]])) = mkTally 2 0 2.
Proof.
  assert (H : outputs_present chdman_ok (cfg_with false true) (st_of fs_two_converted)
                [["roms"; "A.cue"]; ["roms"; "B.iso"]]).
  { vm_compute. repeat split. }
  split; [exact H|].
  exact (proj1 (proj2 existing_chd_skipped chdman_ok (cfg_with false true)
                  (st_of fs_two_converted) [["roms"; "A.cue"]; ["roms"; "B.iso"]] H)).
Defined.

(** ** C5 *)

(** Claim C5: with both postprocessing options on, [start_conversion]
    returns before anything runs: no extraction, no scan, no chdman call,
    the files untouched. *)
Theorem conflicting_options_refused (chdman : chdman_fn) (unpack : extractor_fn)
    (cfg : config) (dir : Path) (dir_ok confirmed : bool) (st : state) :
  cfg_delete_originals cfg = true ->
  cfg_move_to_backup cfg = true ->
  start_conversion chdman unpack cfg dir dir_ok confirmed st = (st, Refused).
Proof.
  intros Hd Hm. unfold start_conversion. rewrite Hd, Hm.
  destruct dir_ok; reflexivity.
Qed.

Lemma conflicting_options_refused_witness :
  start_conversion chdman_ok unpack_none (cfg_with true true) ["roms"] true true
    (st_of fs_sidecars) = (st_of fs_sidecars, Refused).
Proof. apply conflicting_options_refused; reflexivity. Defined.

(** ** Strings *)

Lemma str_app_assoc (a b c : string) : a +:+ (b +:+ c) = (a +:+ b) +:+ c.
Proof. induction a as [|x a IH]; [reflexivity|]. change (String x (a +:+ (b +:+ c)) = String x ((a +:+ b) +:+ c)). by rewrite IH. Qed.

Lemma str_length_app (a b : string) : String.length (a +:+ b) = String.length a + String.length b.
Proof. induction a as [|x a IH]; [reflexivity|]. change (S (String.length (a +:+ b)) = S (String.length a + String.length b)). by rewrite IH. Qed.

Lemma str_app_cancel_r (a b c : string) : a +:+ c = b +:+ c -> a = b.
Proof.
  revert b. induction a as [|x a IH]; intros [|y b] H.
  - reflexivity.
  - apply (f_equal String.length) in H. rewrite !str_length_app in H. simpl in H.
    exfalso. lia.
  - apply (f_equal String.length) in H. rewrite !str_length_app in H. simpl in H.
    exfalso. lia.
  - change (String x (a +:+ c) = String y (b +:+ c)) in H. injection H as -> H.
    by rewrite (IH b H).
Qed.

(** ** C8 *)

Lemma parts_compare_antisym (p q : Path) : parts_compare p q = CompOpp (parts_compare q p).
Proof.
  revert q. induction p as [|a p IH]; intros [|b q]; try reflexivity.
  simpl. rewrite (String.compare_antisym a b).
  destruct (String.compare b a); simpl; auto.
Qed.

Global Instance path_le_total : Total path_le.
Proof.
  intros p q. unfold path_le. rewrite (parts_compare_antisym p q).
  destruct (parts_compare q p); simpl; [left | right | left]; intros H; discriminate.
Qed.

(** Claim C8: [find_game_files] returns the enabled kinds' matches sorted
    by path (a permutation of what the globs yield, so exactly the files
    matching an enabled kind), and nothing, without error, when no kind is
    enabled. *)
Theorem find_game_files_sorted (cfg : config) (fs : FS) (dir : Path) :
  Sorted path_le (find_game_files cfg fs dir) /\
  find_game_files cfg fs dir ≡ₚ
    (if cfg_ps1_cues cfg then glob fs dir (cfg_recursive cfg) ".cue" else []) ++
    (if cfg_ps2_isos cfg then glob fs dir (cfg_recursive cfg) ".iso" else []) /\
  (forall p, p ∈ find_game_files cfg fs dir <->
     p ∈ dom fs /\
     ((cfg_ps1_cues cfg = true /\ glob_match dir (cfg_recursive cfg) ".cue" p = true) \/
      (cfg_ps2_isos cfg = true /\ glob_match dir (cfg_recursive cfg) ".iso" p = true))) /\
  (cfg_ps1_cues cfg = false -> cfg_ps2_isos cfg = false -> find_game_files cfg fs dir = []).
Proof.
  unfold find_game_files, sorted_paths.
  split; [apply Sorted_merge_sort; apply _|].
  split; [apply merge_sort_Permutation|].
  split.
  - intros p. rewrite (merge_sort_Permutation path_le _), elem_of_app.
    unfold glob.
    destruct (cfg_ps1_cues cfg), (cfg_ps2_isos cfg);
      rewrite ?list_elem_of_filter, ?elem_of_elements; set_solver.
  - intros H1 H2. rewrite H1, H2. reflexivity.
Qed.

(** ** C10 *)

Lemma ends_with_aux_spec (suf s : string) :
  ends_with_aux suf s = true <-> exists pre, s = pre +:+ suf.
Proof.
  induction s as [|c s IH]; cbn [ends_with_aux].
  - destruct suf as [|c suf]; simpl; split.
    + intros _. exists "". reflexivity.
    + reflexivity.
    + discriminate.
    + intros [[|? ?] H]; discriminate H.
  - destruct (String.eqb_spec (String c s) suf) as [<-|Hne].
    + split; [intros _; exists ""; reflexivity|reflexivity].
    + rewrite IH. split.
      * intros [pre ->]. exists (String c pre). reflexivity.
      * intros [[|d pre] H]; [exfalso; apply Hne; exact H|].
        injection H as -> ->. eauto.
Qed.

Lemma ends_with_tar_gz (n : string) : ends_with ".tar.gz" n = true -> ends_with ".gz" n = true.
Proof.
  unfold ends_with. rewrite !ends_with_aux_spec. intros [pre ->].
  exists (pre +:+ ".tar"). rewrite <- str_app_assoc. reflexivity.
Qed.

Lemma filter_eq_length_pos (l : list Path) (p : Path) :
  p ∈ l -> 1 <= length (filter (fun q => q = p) l).
Proof.
  intros Hin. destruct (filter (fun q => q = p) l) eqn:Hf; [|simpl; lia].
  assert (p ∈ filter (fun q => q = p) l) as Hp by (apply list_elem_of_filter; auto).
  rewrite Hf in Hp. set_solver.
Qed.

Lemma glob_elem (fs : FS) (dir : Path) (rec : bool) (ext : string) (p : Path) :
  p ∈ dom fs -> glob_match dir rec ext p = true -> p ∈ glob fs dir rec ext.
Proof. intros Hd Hm. unfold glob. apply list_elem_of_filter. rewrite elem_of_elements. auto. Qed.

Lemma glob_match_gz (dir : Path) (rec : bool) (p : Path) :
  glob_match dir rec ".tar.gz" p = true -> glob_match dir rec ".gz" p = true.
Proof.
  unfold glob_match. rewrite !andb_true_iff. intros [[H1 H2] H3].
  split; [split; assumption|]. apply ends_with_tar_gz, H3.
Qed.

Lemma extract_all_extracts (unpack : extractor_fn) (cfg : config) (l : list Path) (st : state) :
  st_extracts (foldl (extract_step unpack cfg) st l) = st_extracts st ++ l.
Proof.
  revert st. induction l as [|a l IH]; intros st; simpl.
  - by rewrite app_nil_r.
  - rewrite IH. unfold extract_step.
    destruct (extract_archive _ _ _ _) as [fs' [f|]]; simpl; by rewrite <- app_assoc.
Qed.

(** Claim C10: a [.tar.gz] file found by the archive scan is listed
    twice, once for [.gz] and once for [.tar.gz], and the extraction
    stage hands it to [extract_archive] twice. *)
Theorem tar_gz_listed_twice (unpack : extractor_fn) (cfg : config) (st : state)
    (dir p : Path) :
  p ∈ dom (st_fs st) ->
  glob_match dir (cfg_recursive cfg) ".tar.gz" p = true ->
  2 <= length (filter (fun q => q = p) (find_compressed_files (st_fs st) dir (cfg_recursive cfg))) /\
  2 <= length (filter (fun q => q = p) (st_extracts (extract_all_archives unpack cfg st dir))).
Proof.
  intros Hd Hm.
  assert (Hfind : 2 <= length (filter (fun q => q = p)
                    (find_compressed_files (st_fs st) dir (cfg_recursive cfg)))).
  { unfold find_compressed_files, sorted_paths.
    rewrite (merge_sort_Permutation path_le _).
    unfold COMPRESSED_EXTENSIONS. cbn [flat_map].
    rewrite !filter_app, !length_app.
    pose proof (filter_eq_length_pos _ p (glob_elem _ _ _ _ p Hd Hm)) as H1.
    pose proof (filter_eq_length_pos _ p (glob_elem _ _ _ _ p Hd (glob_match_gz _ _ _ Hm))) as H2.
    lia. }
  split; [exact Hfind|].
  unfold extract_all_archives. rewrite extract_all_extracts, filter_app, length_app. lia.
Qed.

Lemma tar_gz_listed_twice_witness :
  find_compressed_files fs_archives ["roms"] true =
    [["roms"; "game.tar.gz"]; ["roms"; "game.tar.gz"]; ["roms"; "other.zip"]] /\
  2 <= length (filter (fun q => q = ["roms"; "game.tar.gz"])
         (st_extracts (extract_all_archives unpack_none (cfg_with false false)
                         (st_of fs_archives) ["roms"]))).
Proof.
  split; [vm_compute; reflexivity|].
  apply (tar_gz_listed_twice unpack_none (cfg_with false false) (st_of fs_archives) ["roms"]
           ["roms"; "game.tar.gz"]).
  - unfold st_of, fs_archives. simpl. rewrite elem_of_dom, lookup_insert_eq. eauto.
  - vm_compute. reflexivity.
Defined.

(** ** C7 *)

(** The loop stops at the first free candidate. *)
Lemma first_free_spec (fs : FS) (cand : nat -> Path) (k fuel : nat) :
  exists m, first_free fs cand k fuel = cand m /\ k <= m <= k + fuel /\
            forall j, k <= j < m -> cand j ∈ dom fs.
Proof.
  revert k. induction fuel as [|f IH]; intros k; simpl.
  - exists k. split; [reflexivity|]. split; [lia|]. intros j Hj. lia.
  - destruct (file_exists fs (cand k)) eqn:He.
    + destruct (IH (S k)) as (m & Hm & Hb & Hfull). exists m.
      split; [exact Hm|]. split; [lia|].
      intros j Hj. destruct (decide (j = k)) as [->|Hne].
      * unfold file_exists in He. by apply bool_decide_eq_true in He.
      * apply Hfull. lia.
    + exists k. split; [reflexivity|]. split; [lia|]. intros j Hj. lia.
Qed.

Lemma first_free_taken_all (fs : FS) (cand : nat -> Path) (k fuel : nat) :
  first_free fs cand k fuel ∈ dom fs -> forall i, k <= i <= k + fuel -> cand i ∈ dom fs.
Proof.
  revert k. induction fuel as [|f IH]; intros k; simpl.
  - intros H i Hi. replace i with k by lia. exact H.
  - destruct (file_exists fs (cand k)) eqn:He.
    + intros H i Hi. destruct (decide (i = k)) as [->|Hne].
      * unfold file_exists in He. by apply bool_decide_eq_true in He.
      * apply (IH (S k) H). lia.
    + intros H. unfold file_exists in He. apply bool_decide_eq_false in He. contradiction.
Qed.

(** With as many rounds as there are files and pairwise distinct
    candidates, the loop ends on a name that is free. *)
Lemma first_free_not_in (fs : FS) (cand : nat -> Path) (k fuel : nat) :
  (forall i j, k <= i -> k <= j -> cand i = cand j -> i = j) ->
  size (dom fs) <= fuel ->
  first_free fs cand k fuel ∉ dom fs.
Proof.
  intros Hinj Hsize Hin.
  pose proof (first_free_taken_all fs cand k fuel Hin) as Hall.
  set (X := list_to_set (cand <$> seq k (S fuel)) : gset Path).
  assert (Hsub : X ⊆ dom fs).
  { intros p Hp. unfold X in Hp. rewrite elem_of_list_to_set, list_elem_of_fmap in Hp.
    destruct Hp as (i & -> & Hi). rewrite elem_of_seq in Hi. apply Hall. lia. }
  assert (Hnd : NoDup (cand <$> seq k (S fuel))).
  { apply NoDup_fmap_2_strong; [|apply NoDup_seq].
    intros i j Hi Hj. rewrite elem_of_seq in Hi, Hj. apply Hinj; lia. }
  pose proof (subseteq_size _ _ Hsub) as Hle.
  unfold X in Hle. rewrite size_list_to_set, length_fmap, length_seq in Hle by exact Hnd.
  lia.
Qed.

Lemma str_app_nil_r (a : string) : a +:+ "" = a.
Proof. induction a as [|x a IH]; [reflexivity|]. change (String x (a +:+ "") = String x a). by rewrite IH. Qed.

Lemma substring_all (s : string) : substring 0 (String.length s) s = s.
Proof. induction s as [|c s IH]; [reflexivity|]. simpl. by rewrite IH. Qed.

Lemma substring_split (s : string) (i : nat) :
  i <= String.length s -> substring 0 i s +:+ substring i (String.length s - i) s = s.
Proof.
  revert i. induction s as [|c s IH]; intros [|i] Hi; simpl in *.
  - reflexivity.
  - lia.
  - change (String c (substring 0 (String.length s) s) = String c s). by rewrite substring_all.
  - change (String c (substring 0 i s +:+ substring i (String.length s - i) s) = String c s).
    rewrite IH; [reflexivity|lia].
Qed.

Lemma last_dot_aux_bound (s : string) (i : nat) (acc : option nat) (j : nat) :
  last_dot_aux s i acc = Some j -> acc = Some j \/ i <= j < i + String.length s.
Proof.
  revert i acc. induction s as [|c s IH]; intros i acc H; simpl in *; [auto|].
  destruct (IH _ _ H) as [Ha|Hb]; [|right; lia].
  destruct (Ascii.eqb c "."); [injection Ha as ->; right; lia | auto].
Qed.

(** [stem + suffix] gives the name back. *)
Lemma stem_suffix (n : string) : name_stem n +:+ name_suffix n = n.
Proof.
  unfold name_stem, name_suffix, dot_split.
  destruct (last_dot_aux n 0 None) as [i|] eqn:E; [|apply str_app_nil_r].
  destruct ((0 <? i) && (i <? String.length n - 1)) eqn:Hc; [|apply str_app_nil_r].
  apply substring_split. apply andb_true_iff in Hc as [_ Hc]. apply Nat.ltb_lt in Hc. lia.
Qed.

Lemma rsplit_dot_spec (s b r : string) : rsplit_dot s = Some (b, r) -> s = b +:+ String "." r.
Proof.
  revert b r. induction s as [|c s IH]; intros b r H; simpl in H; [discriminate|].
  destruct (rsplit_dot s) as [[b' r']|] eqn:E.
  - injection H as <- <-. rewrite (IH b' r' eq_refl). reflexivity.
  - destruct (Ascii.eqb_spec c ".") as [->|]; [|discriminate].
    injection H as <- <-. reflexivity.
Qed.

Lemma path_div_inj (d : Path) (x y : string) : path_div d x = path_div d y -> x = y.
Proof. unfold path_div. intros H. apply app_inj_tail in H. tauto. Qed.

Lemma str_length_pos_app (a b : string) : a = b +:+ a -> b = "".
Proof.
  intros H. apply (f_equal String.length) in H. rewrite str_length_app in H.
  destruct b; [reflexivity|]. simpl in H. lia.
Qed.

Lemma str_length_pos_app_l (a b : string) : a = a +:+ b -> b = "".
Proof.
  intros H. apply (f_equal String.length) in H. rewrite str_length_app in H.
  destruct b; [reflexivity|]. simpl in H. lia.
Qed.

Lemma backup_cand_inj (dir f : Path) (i j : nat) :
  backup_cand dir f i = backup_cand dir f j -> i = j.
Proof.
  set (n := path_name f).
  assert (Hne : forall k, path_name f <> name_stem n +:+ "_" +:+ pretty (S k) +:+ name_suffix n).
  { intros k H. fold n in H.
    assert (H' : name_stem n +:+ name_suffix n =
                 name_stem n +:+ ("_" +:+ pretty (S k) +:+ name_suffix n))
      by (rewrite stem_suffix; exact H).
    apply (inj (String.append (name_stem n))) in H'.
    rewrite str_app_assoc in H'. apply str_length_pos_app in H'. discriminate H'. }
  destruct i as [|i], j as [|j]; simpl; intros H; apply path_div_inj in H.
  - reflexivity.
  - exfalso. exact (Hne j H).
  - exfalso. symmetry in H. exact (Hne i H).
  - fold n in H. apply (inj (String.append (name_stem n))) in H.
    apply (inj (String.append "_")) in H. apply str_app_cancel_r in H.
    apply (inj pretty) in H. exact H.
Qed.

Lemma move_cand_inj (dest : Path) (nn : string) (i j : nat) :
  move_cand dest nn i = move_cand dest nn j -> i = j.
Proof.
  assert (Hne : forall k, nn <> rsplit_base nn +:+ " (" +:+ pretty (S k) +:+ ").chd").
  { intros k H. unfold rsplit_base in H.
    destruct (rsplit_dot nn) as [[b r]|] eqn:E.
    - rewrite (rsplit_dot_spec _ _ _ E) in H.
      apply (inj (String.append b)) in H. injection H as Hc _. discriminate Hc.
    - apply str_length_pos_app_l in H. discriminate H. }
  destruct i as [|i], j as [|j]; simpl; intros H; apply path_div_inj in H.
  - reflexivity.
  - exfalso. exact (Hne j H).
  - exfalso. symmetry in H. exact (Hne i H).
  - apply (inj (String.append (rsplit_base nn))) in H.
    apply (inj (String.append " (")) in H. apply str_app_cancel_r in H.
    apply (inj pretty) in H. exact H.
Qed.

(** The destination picked by the loop is free. *)
Lemma free_dest_backup (dir f : Path) (fs : FS) :
  free_dest fs (backup_cand dir f) ∉ dom fs.
Proof.
  apply first_free_not_in; [|lia].
  intros i j _ _. apply backup_cand_inj.
Qed.

Lemma free_dest_move (dest : Path) (nn : string) (fs : FS) :
  free_dest fs (move_cand dest nn) ∉ dom fs.
Proof.
  apply first_free_not_in; [|lia].
  intros i j _ _. apply move_cand_inj.
Qed.

Lemma free_dest_first (fs : FS) (cand : nat -> Path) :
  exists m, free_dest fs cand = cand m /\ forall j, j < m -> cand j ∈ dom fs.
Proof.
  destruct (first_free_spec fs cand 0 (size (dom fs))) as (m & Hm & _ & Hall).
  exists m. split; [exact Hm|]. intros j Hj. apply Hall. lia.
Qed.

(** A move onto a free name changes no other existing file. *)
Lemma move_file_fresh (fs : FS) (src dst p : Path) :
  p ∈ dom fs -> p <> src -> dst ∉ dom fs -> move_file fs src dst !! p = fs !! p.
Proof.
  intros Hp Hs Hd. unfold move_file.
  destruct (fs !! src); [|reflexivity].
  assert (p <> dst) by (intros ->; contradiction).
  rewrite lookup_insert_ne by congruence. by rewrite lookup_delete_ne by congruence.
Qed.

Lemma lookup_dom_same (fs fs' : FS) (p : Path) :
  fs' !! p = fs !! p -> p ∈ dom fs -> p ∈ dom fs'.
Proof. intros H Hp. rewrite elem_of_dom, H. by apply elem_of_dom. Qed.

Lemma backup_move_one_keeps (dir : Path) (fs : FS) (f p : Path) :
  p ∈ dom fs -> p <> f -> backup_move_one dir fs f !! p = fs !! p.
Proof.
  intros Hp Hf. unfold backup_move_one.
  destruct (file_exists fs f); [|reflexivity].
  apply move_file_fresh; [exact Hp | exact Hf | apply free_dest_backup].
Qed.

Lemma backup_fold_keeps (dir : Path) (l : list Path) (fs : FS) (p : Path) :
  p ∈ dom fs -> p ∉ l -> foldl (backup_move_one dir) fs l !! p = fs !! p.
Proof.
  revert fs. induction l as [|f l IH]; intros fs Hp Hl; [reflexivity|].
  rewrite not_elem_of_cons in Hl. destruct Hl as [Hf Hl]. simpl.
  assert (H1 : backup_move_one dir fs f !! p = fs !! p) by (apply backup_move_one_keeps; auto).
  rewrite IH; [exact H1 | apply (lookup_dom_same fs); assumption | exact Hl].
Qed.

Lemma move_to_backup_keeps (fs : FS) (cue p : Path) :
  p ∈ dom fs -> p <> cue -> p ∉ parse_cue_file fs cue ->
  move_to_backup_folder fs cue !! p = fs !! p.
Proof.
  intros Hp Hc Hl. unfold move_to_backup_folder.
  set (dir := path_div (path_parent cue) "original_backup").
  destruct (file_exists fs dir); [reflexivity|].
  assert (H1 : foldl (backup_move_one dir) fs (parse_cue_file fs cue) !! p = fs !! p)
    by (apply backup_fold_keeps; assumption).
  rewrite backup_move_one_keeps; [exact H1 | apply (lookup_dom_same fs); assumption | exact Hc].
Qed.

Lemma execute_move_one_keeps (rl ci : bool) (dest : Path) (fs : FS) (chd p : Path) :
  p ∈ dom fs -> p <> chd -> fst (execute_move_one rl ci dest fs chd) !! p = fs !! p.
Proof.
  intros Hp Hc. unfold execute_move_one.
  pose proof (free_dest_move dest (move_new_name rl chd) fs) as Hd.
  destruct (fs !! chd) as [c|] eqn:E; [|reflexivity]. simpl.
  destruct ci.
  - assert (p <> free_dest fs (move_cand dest (move_new_name rl chd))) by (intros ->; contradiction).
    by rewrite lookup_insert_ne by congruence.
  - apply move_file_fresh; assumption.
Qed.

Lemma execute_move_keeps (rl ci : bool) (dest : Path) (l : list Path) (fs : FS) (p : Path) :
  p ∈ dom fs -> p ∉ l -> fst (execute_move rl ci dest fs l) !! p = fs !! p.
Proof.
  revert fs. induction l as [|chd l IH]; intros fs Hp Hl; [reflexivity|].
  rewrite not_elem_of_cons in Hl. destruct Hl as [Hc Hl]. simpl.
  pose proof (execute_move_one_keeps rl ci dest fs chd p Hp Hc) as H1.
  destruct (execute_move_one rl ci dest fs chd) as [fs1 d] eqn:E1. simpl in H1.
  pose proof (IH fs1 (lookup_dom_same fs fs1 p H1 Hp) Hl) as H2.
  destruct (execute_move rl ci dest fs1 l) as [fs2 ds]. simpl in *. congruence.
Qed.

(** Claim C7: both duplicate-name loops stop at the first candidate that
    is free ([name], then [stem_1.ext], [stem_2.ext], ... for the backup
    folder; [name], then [base (1).chd], [base (2).chd], ... for the CHD
    mover), so no move or copy replaces a file: every existing file that
    is not one of those being moved keeps its content. Two files both
    named [Game.chd] after cleaning land on [Game.chd] and
    [Game (1).chd]. *)
Theorem collisions_numbered :
  (forall (dir f : Path) (fs : FS),
     exists m, free_dest fs (backup_cand dir f) = backup_cand dir f m /\
       (free_dest fs (backup_cand dir f) ∉ dom fs) /\
       forall j, j < m -> backup_cand dir f j ∈ dom fs) /\
  (forall (dest : Path) (nn : string) (fs : FS),
     exists m, free_dest fs (move_cand dest nn) = move_cand dest nn m /\
       (free_dest fs (move_cand dest nn) ∉ dom fs) /\
       forall j, j < m -> move_cand dest nn j ∈ dom fs) /\
  (forall (fs : FS) (cue p : Path),
     p ∈ dom fs -> p <> cue -> p ∉ parse_cue_file fs cue ->
     move_to_backup_folder fs cue !! p = fs !! p) /\
  (forall (rl ci : bool) (dest : Path) (fs : FS) (l : list Path) (p : Path),
     p ∈ dom fs -> p ∉ l -> fst (execute_move rl ci dest fs l) !! p = fs !! p) /\
  snd (execute_move true false ["dst"] fs_chds
         [["s"; "a"; "Game (USA).chd"]; ["s"; "b"; "Game (Europe).chd"]])
    = [["dst"; "Game.chd"]; ["dst"; "Game (1).chd"]].
Proof.
  split; [|split; [|split; [|split]]].
  - intros dir f fs. destruct (free_dest_first fs (backup_cand dir f)) as (m & Hm & Hall).
    exists m. split; [exact Hm|]. split; [apply free_dest_backup | exact Hall].
  - intros dest nn fs. destruct (free_dest_first fs (move_cand dest nn)) as (m & Hm & Hall).
    exists m. split; [exact Hm|]. split; [apply free_dest_move | exact Hall].
  - intros fs cue p. apply move_to_backup_keeps.
  - intros rl ci dest fs l p. apply execute_move_keeps.
  - vm_compute. reflexivity.
Qed.

Lemma collisions_numbered_witness :
  ["s"; "b"; "Game (Europe).chd"] ∈ dom fs_chds /\
  fst (execute_move true false ["dst"] fs_chds [["s"; "a"; "Game (USA).chd"]])
    !! ["s"; "b"; "Game (Europe).chd"] = Some "2".
Proof.
  assert (Hp : ["s"; "b"; "Game (Europe).chd"] ∈ dom fs_chds).
  { apply elem_of_dom. exists "2". reflexivity. }
  split; [exact Hp|].
  assert (Hl : ["s"; "b"; "Game (Europe).chd"] ∉ [["s"; "a"; "Game (USA).chd"]]).
  { rewrite not_elem_of_cons. split; [discriminate | apply not_elem_of_nil]. }
  etransitivity;
    [exact (proj1 (proj2 (proj2 (proj2 collisions_numbered))) true false ["dst"] fs_chds
              [["s"; "a"; "Game (USA).chd"]] ["s"; "b"; "Game (Europe).chd"] Hp Hl)
    | reflexivity].
Defined.

(** ** C9 *)

(** Claim C9, as stated: once a job has completed, the ETA is the mean
    duration times remaining jobs over cores. Refuted: a job measured at
    0 seconds (a skipped job on a coarse clock) makes the mean 0, and the
    source's [if avg_time] then gives [None], shown as [--], where the
    formula gives 0. *)
Lemma C9_zero_mean_no_estimate :
  overall_eta 1 3 [0%Q] 4 = None /\ (avg_time [0%Q] * (inject_Z 2 / inject_Z 4) == 0)%Q.
Proof. split; reflexivity. Qed.

Lemma sum_shift (ds : list Q) (a : Q) : (fold_left Qplus ds a == a + fold_left Qplus ds 0)%Q.
Proof.
  revert a. induction ds as [|d ds IH]; intros a; simpl; [ring|].
  rewrite (IH (a + d)%Q), (IH (0 + d)%Q). ring.
Qed.

Lemma sum_nonneg (ds : list Q) : Forall (fun d => 0 <= d)%Q ds -> (0 <= fold_left Qplus ds 0)%Q.
Proof.
  induction 1 as [|d ds Hd _ IH]; simpl; [apply Qle_refl|].
  rewrite sum_shift. apply (Qle_trans _ (0 + 0)%Q); [apply Qle_refl|].
  apply Qplus_le_compat; [rewrite Qplus_0_l; exact Hd | exact IH].
Qed.

Lemma sum_zero_iff (ds : list Q) :
  Forall (fun d => 0 <= d)%Q ds ->
  ((fold_left Qplus ds 0 == 0)%Q <-> Forall (fun d => d == 0)%Q ds).
Proof.
  induction 1 as [|d ds Hd Hds IH]; cbn [fold_left].
  - split; [constructor | reflexivity].
  - rewrite sum_shift, Qplus_0_l. pose proof (sum_nonneg ds Hds) as Hs.
    rewrite Forall_cons. split.
    + intros H. assert (Hd0 : (d == 0)%Q).
      { apply Qle_antisym; [|exact Hd].
        apply (Qle_trans _ (d + 0)%Q); [rewrite Qplus_0_r; apply Qle_refl|].
        apply (Qle_trans _ (d + fold_left Qplus ds 0)%Q); [apply Qplus_le_r; exact Hs|].
        rewrite H. apply Qle_refl. }
      split; [exact Hd0|]. apply IH. rewrite Hd0, Qplus_0_l in H. exact H.
    + intros [Hd0 Hr]. rewrite Hd0, (proj2 IH Hr). reflexivity.
Qed.

Lemma avg_time_zero_iff (ds : list Q) :
  Forall (fun d => 0 <= d)%Q ds -> ((avg_time ds == 0)%Q <-> Forall (fun d => d == 0)%Q ds).
Proof.
  intros Hn. destruct ds as [|d ds'].
  - split; [constructor | reflexivity].
  - rewrite <- (sum_zero_iff _ Hn).
    assert (Hl : ~ (inject_Z (Z.of_nat (length (d :: ds'))) == 0)%Q).
    { simpl. unfold Qeq. simpl. lia. }
    change (avg_time (d :: ds')) with
      (fold_left Qplus (d :: ds') 0 / inject_Z (Z.of_nat (length (d :: ds'))))%Q.
    split.
    + intros H. unfold Qdiv in H. apply Qmult_integral in H as [H|H]; [exact H|].
      exfalso. apply Hl. rewrite <- (Qinv_involutive (inject_Z _)), H. reflexivity.
    + intros H. rewrite H. unfold Qdiv. ring.
Qed.

Lemma sum_all_zero (ds : list Q) :
  Forall (fun d => d == 0)%Q ds -> (fold_left Qplus ds 0 == 0)%Q.
Proof.
  induction 1 as [|d ds Hd _ IH]; cbn [fold_left]; [reflexivity|].
  rewrite sum_shift, IH, Hd. reflexivity.
Qed.

(** Claim C9, amended: when the mean of the recorded durations (sum over
    count, 0 when there is none) is non-zero, the estimate is that mean
    times [max(total - completed, 0)] divided by [max(cpu_cores, 1)];
    when the mean is zero there is no estimate (the display shows [--]),
    in particular when every recorded duration is 0 or none is recorded.
    Durations of any sign are allowed. *)
Theorem eta_when_mean_positive (completed total cores : Z) (ds : list Q) :
  (overall_eta completed total ds cores = None <-> (avg_time ds == 0)%Q) /\
  (Forall (fun d => d == 0)%Q ds -> overall_eta completed total ds cores = None) /\
  (forall e, overall_eta completed total ds cores = Some e ->
     ds <> [] /\
     (e == fold_left Qplus ds 0 / inject_Z (Z.of_nat (length ds)) *
           (inject_Z (Z.max (total - completed) 0) / inject_Z (Z.max cores 1)))%Q).
Proof.
  assert (Hiff : overall_eta completed total ds cores = None <-> (avg_time ds == 0)%Q).
  { unfold overall_eta. destruct (Qeq_bool (avg_time ds) 0) eqn:Hb.
    - apply Qeq_bool_iff in Hb. split; [intros _; exact Hb | reflexivity].
    - split; [discriminate|]. intros H. apply Qeq_bool_iff in H. congruence. }
  split; [exact Hiff|]. split.
  - intros Hz. apply Hiff. destruct ds as [|d ds']; [reflexivity|].
    change (avg_time (d :: ds')) with
      (fold_left Qplus (d :: ds') 0 / inject_Z (Z.of_nat (length (d :: ds'))))%Q.
    rewrite (sum_all_zero _ Hz). reflexivity.
  - intros e He. unfold overall_eta in He.
    destruct (Qeq_bool (avg_time ds) 0) eqn:Hb; [discriminate|]. injection He as <-.
    destruct ds as [|d ds'] eqn:E; [discriminate Hb|].
    split; [discriminate | reflexivity].
Qed.

(** ** C6 *)

Lemma pool_inv_init (n : nat) : pool_inv (pool_init n).
Proof.
  unfold pool_inv, pool_init; simpl.
  split; [intros i H; apply lookup_replicate in H as [H _]; discriminate|].
  split; [intros i r H; apply lookup_replicate in H as [H _]; discriminate|].
  split; [intros i b H; apply not_elem_of_nil in H as []|].
  split; [constructor|]. split; [intros i H; apply not_elem_of_nil in H as []|].
  split; [constructor|]. split; [intros i H; discriminate|]. split; reflexivity.
Qed.

Lemma count_snoc (c : list (nat * bool)) (x : nat * bool) (b : bool) :
  length (filter (fun y => y.2 = b) (c ++ [x])) =
    length (filter (fun y => y.2 = b) c) + (if bool_decide (x.2 = b) then 1 else 0).
Proof.
  rewrite filter_app, length_app. f_equal.
  case_bool_decide as Hb.
  - rewrite filter_cons_True by exact Hb. reflexivity.
  - rewrite filter_cons_False by exact Hb. reflexivity.
Qed.

Ltac split_conj := repeat match goal with |- _ /\ _ => split end.

Lemma pool_inv_step (mw : nat) (res : nat -> ret) (p : pool) (e : event) :
  pool_inv p -> pool_inv (pool_step mw res p e).
Proof.
  destruct p as [fl jobs st lp y c su fa].
  intros Hinv. pose proof Hinv as (Hrun & Hfin & Hcnt & Hy & Hcy & Hnd & Hlh & Hs & Hf).
  simpl in *.
  destruct e as [i|i| |i|]; simpl.
  - (* a worker takes job i *)
    destruct (jobs !! i) as [[| | |]|] eqn:Hi; try exact Hinv.
    destruct (_ <? mw); [|exact Hinv].
    destruct fl; unfold pool_inv; simpl; split_conj; try assumption.
    + intros j Hj. apply list_lookup_insert_Some in Hj as [(-> & _ & _)|(_ & Hj)];
        apply elem_of_app; [right; constructor | left; auto].
    + intros j r Hj Hr. apply list_lookup_insert_Some in Hj as [(_ & Hj & _)|(_ & Hj)];
        [discriminate | apply elem_of_app; left; eauto].
    + intros j b Hj. apply elem_of_app. left. eauto.
    + intros j Hj. apply list_lookup_insert_Some in Hj as [(_ & Hj & _)|(_ & Hj)];
        [discriminate | auto].
    + intros j r Hj Hr. apply list_lookup_insert_Some in Hj as [(_ & Hj & _)|(_ & Hj)];
        [injection Hj as <-; contradiction | eauto].
  - (* job i returns *)
    destruct (jobs !! i) as [[| | |]|] eqn:Hi; try exact Hinv.
    unfold pool_inv; simpl; split_conj; try assumption.
    + intros j Hj. apply list_lookup_insert_Some in Hj as [(_ & Hj & _)|(_ & Hj)];
        [discriminate | auto].
    + intros j r Hj Hr. apply list_lookup_insert_Some in Hj as [(-> & _ & _)|(_ & Hj)];
        [auto | eauto].
  - (* stop *)
    exact Hinv.
  - (* as_completed yields job i *)
    destruct lp as [|k|]; try exact Hinv.
    destruct (jobs !! i) as [[| |r|]|] eqn:Hi; try exact Hinv.
    case_bool_decide as Hin; [exact Hinv|].
    assert (Hy' : NoDup (y ++ [i])).
    { apply NoDup_app. split; [exact Hy|]. split; [|apply NoDup_singleton].
      intros x Hx Hx'. apply list_elem_of_singleton in Hx'. subst. contradiction. }
    assert (Hcy' : forall j, j ∈ c.*1 -> j ∈ y ++ [i]).
    { intros j Hj. apply elem_of_app. left. auto. }
    destruct fl; unfold pool_inv; simpl; split_conj; try assumption.
    + intros j Hj. injection Hj as <-. split; [apply elem_of_app; right; constructor|].
      intros Hc. apply Hin, Hcy, Hc.
    + intros j Hj. apply list_lookup_fmap_Some in Hj as ([| | |] & Hx & Hj);
        try discriminate Hx; auto.
    + intros j r' Hj Hr. apply list_lookup_fmap_Some in Hj as ([| | |] & Hx & Hj);
        try discriminate Hx. injection Hx as <-. eauto.
    + intros j Hj. discriminate Hj.
  - (* the loop reads the result of the yielded future *)
    destruct lp as [|k|]; try exact Hinv.
    destruct (Hlh k eq_refl) as [Hky Hkc].
    assert (Hcy' : forall b j, j ∈ (c ++ [(k, b)]).*1 -> j ∈ y).
    { intros b j Hj. rewrite fmap_app in Hj. apply elem_of_app in Hj as [Hj|Hj]; [auto|].
      apply list_elem_of_singleton in Hj. subst. exact Hky. }
    assert (Hnd' : forall b, NoDup (c ++ [(k, b)]).*1).
    { intros b. rewrite fmap_app. apply NoDup_app. split; [exact Hnd|].
      split; [|apply NoDup_singleton].
      intros x Hx Hx'. apply list_elem_of_singleton in Hx'. subst. contradiction. }
    assert (Hcnt' : forall b r, jobs !! k = Some (Finished r) -> r <> RNone ->
                      forall j b', (j, b') ∈ c ++ [(k, b)] -> j ∈ st).
    { intros b r Hk Hr j b' Hj. apply elem_of_app in Hj as [Hj|Hj]; [eauto|].
      apply list_elem_of_singleton in Hj. injection Hj as -> _. eauto. }
    destruct (jobs !! k) as [[| |[|[|]|]|]|] eqn:Hk; unfold pool_inv; simpl;
      split_conj; try assumption; try (intros j Hj; discriminate Hj);
      try (rewrite count_snoc; simpl; lia);
      try (apply (Hcnt' _ _ eq_refl); discriminate);
      try (intros j Hj; exact (Hcy' _ j Hj)); auto.
Qed.


Lemma pool_run_app (mw : nat) (res : nat -> ret) (p : pool) (l1 l2 : list event) :
  pool_run mw res p (l1 ++ l2) = pool_run mw res (pool_run mw res p l1) l2.
Proof. unfold pool_run. apply foldl_app. Qed.

Lemma pool_run_inv (mw : nat) (res : nat -> ret) (p : pool) (evs : list event) :
  pool_inv p -> pool_inv (pool_run mw res p evs).
Proof.
  unfold pool_run. revert p. induction evs as [|e evs IH]; intros p H; [exact H|].
  simpl. apply IH, pool_inv_step, H.
Qed.

(** Once [is_converting] is cleared it stays cleared, and no job gets
    past the check any more. *)
Lemma pool_step_stopped (mw : nat) (res : nat -> ret) (p : pool) (e : event) :
  pl_flag p = false ->
  pl_flag (pool_step mw res p e) = false /\ pl_started (pool_step mw res p e) = pl_started p.
Proof.
  destruct p as [fl jobs st lp y c su fa]; simpl. intros ->.
  destruct e as [i|i| |i|]; simpl; repeat case_match; simpl; auto.
Qed.

Lemma pool_run_stopped (mw : nat) (res : nat -> ret) (p : pool) (evs : list event) :
  pl_flag p = false ->
  pl_flag (pool_run mw res p evs) = false /\ pl_started (pool_run mw res p evs) = pl_started p.
Proof.
  unfold pool_run. revert p. induction evs as [|e evs IH]; intros p H; [auto|].
  simpl. destruct (pool_step_stopped mw res p e H) as [H1 H2].
  destruct (IH _ H1) as [H3 H4]. split; [exact H3|]. rewrite H4. exact H2.
Qed.

(** After the loop has broken out, the totals do not move. *)
Lemma pool_step_broken (mw : nat) (res : nat -> ret) (p : pool) (e : event) :
  pl_loop p = LBroken ->
  pl_loop (pool_step mw res p e) = LBroken /\
  pl_counted (pool_step mw res p e) = pl_counted p /\
  pl_succ (pool_step mw res p e) = pl_succ p /\ pl_fail (pool_step mw res p e) = pl_fail p.
Proof.
  destruct p as [fl jobs st lp y c su fa]; simpl. intros ->.
  destruct e as [i|i| |i|]; simpl; repeat case_match; simpl; auto.
Qed.

Lemma pool_run_broken (mw : nat) (res : nat -> ret) (p : pool) (evs : list event) :
  pl_loop p = LBroken ->
  pl_counted (pool_run mw res p evs) = pl_counted p /\
  pl_succ (pool_run mw res p evs) = pl_succ p /\ pl_fail (pool_run mw res p evs) = pl_fail p.
Proof.
  unfold pool_run. revert p. induction evs as [|e evs IH]; intros p H; [auto|].
  simpl. destruct (pool_step_broken mw res p e H) as (H1 & H2 & H3 & H4).
  destruct (IH _ H1) as (H5 & H6 & H7). rewrite H5, H6, H7. auto.
Qed.

Lemma pool_results_init (res : nat -> ret) (n : nat) : pool_results_ok res (pool_init n).
Proof.
  split; [intros i r H; apply lookup_replicate in H as [H _]; discriminate|].
  intros i b H. apply not_elem_of_nil in H as [].
Qed.

Lemma pool_results_step (mw : nat) (res : nat -> ret) (p : pool) (e : event) :
  pool_results_ok res p -> pool_results_ok res (pool_step mw res p e).
Proof.
  destruct p as [fl jobs st lp y c su fa]. intros [Hj Hc]. unfold pool_results_ok in *.
  simpl in *. destruct e as [i|i| |i|]; simpl.
  - destruct (jobs !! i) as [[| | |]|] eqn:Hi; try (split; assumption).
    destruct (_ <? mw); [|split; assumption].
    destruct fl; simpl; (split; [|exact Hc]); intros j r Hr Hn;
      apply list_lookup_insert_Some in Hr as [(_ & Hr & _)|(_ & Hr)];
      [discriminate | eauto | injection Hr as <-; contradiction | eauto].
  - destruct (jobs !! i) as [[| | |]|] eqn:Hi; try (split; assumption).
    simpl. split; [|exact Hc]. intros j r Hr Hn.
    apply list_lookup_insert_Some in Hr as [(-> & Hr & _)|(_ & Hr)];
      [injection Hr as <-; reflexivity | eauto].
  - split; assumption.
  - destruct lp; try (split; assumption).
    destruct (jobs !! i) as [[| | |]|]; try (split; assumption).
    case_bool_decide; [split; assumption|].
    destruct fl; simpl; (split; [|exact Hc]); [exact Hj|].
    intros j r1 Hr Hn. apply list_lookup_fmap_Some in Hr as ([| |r0|] & Hx & Hr2);
      try discriminate Hx. injection Hx as <-. eauto.
  - destruct lp as [|k|]; try (split; assumption).
    destruct (jobs !! k) as [[| |r|]|] eqn:Hk; simpl; try (split; assumption).
    assert (Hr : r <> RNone -> r = res k) by (intros; eauto).
    destruct r as [|[|]|]; simpl; try (split; assumption);
      (split; [exact Hj|]); intros j b Hin;
      apply elem_of_app in Hin as [Hin|Hin]; try exact (Hc j b Hin);
      apply list_elem_of_singleton in Hin; injection Hin as -> ->;
      rewrite <- Hr by discriminate; split; (discriminate || reflexivity).
Qed.

Lemma pool_results_run (mw : nat) (res : nat -> ret) (p : pool) (evs : list event) :
  pool_results_ok res p -> pool_results_ok res (pool_run mw res p evs).
Proof.
  unfold pool_run. revert p. induction evs as [|e evs IH]; intros p H; [exact H|].
  simpl. apply IH, pool_results_step, H.
Qed.

(** Claim C6, as stated: after cancellation the tally covers exactly the
    dispatched jobs. Refuted: both jobs start, job 0 is counted, then the
    stop comes while job 1 is converting; job 1 finishes successfully, but
    the loop sees the cleared flag when it yields job 1 and breaks, so the
    totals hold one job out of the two that were dispatched. *)
Lemma C6_in_flight_job_not_counted :
  pl_started (pool_run 2 (fun _ => RBool true) (pool_init 2) sched_stop_in_flight) = [0; 1] /\
  pl_jobs (pool_run 2 (fun _ => RBool true) (pool_init 2) sched_stop_in_flight)
    = [Finished (RBool true); Finished (RBool true)] /\
  pl_loop (pool_run 2 (fun _ => RBool true) (pool_init 2) sched_stop_in_flight) = LBroken /\
  pl_counted (pool_run 2 (fun _ => RBool true) (pool_init 2) sched_stop_in_flight) = [(0, true)] /\
  pl_succ (pool_run 2 (fun _ => RBool true) (pool_init 2) sched_stop_in_flight) +
  pl_fail (pool_run 2 (fun _ => RBool true) (pool_init 2) sched_stop_in_flight) = 1.
Proof. vm_compute. split_conj; reflexivity. Qed.

(** Claim C6, amended: once the user stops, no further job gets past the
    [is_converting] check (those not yet started return [None] or are
    cancelled), and only jobs that did start are ever counted, each at
    most once, a success or a failure as its result says; so a job never
    started is never counted as failed. The totals are frozen as soon as
    the result loop breaks out, so jobs still converting at that point
    are left out of them too: the tally covers a subset of the started
    jobs, not necessarily all of them. *)
Theorem cancel_counts_started_subset (mw : nat) (res : nat -> ret) (n : nat)
    (evs1 evs2 : list event) :
  pl_started (pool_run mw res (pool_init n) (evs1 ++ EStop :: evs2)) =
    pl_started (pool_run mw res (pool_init n) (evs1 ++ [EStop])) /\
  (forall i b, (i, b) ∈ pl_counted (pool_run mw res (pool_init n) (evs1 ++ EStop :: evs2)) ->
     i ∈ pl_started (pool_run mw res (pool_init n) (evs1 ++ EStop :: evs2))) /\
  (forall i b, (i, b) ∈ pl_counted (pool_run mw res (pool_init n) (evs1 ++ EStop :: evs2)) ->
     res i <> RNone /\ b = is_success (res i)) /\
  NoDup (pl_counted (pool_run mw res (pool_init n) (evs1 ++ EStop :: evs2))).*1 /\
  pl_succ (pool_run mw res (pool_init n) (evs1 ++ EStop :: evs2)) =
    length (filter (fun x => x.2 = true)
              (pl_counted (pool_run mw res (pool_init n) (evs1 ++ EStop :: evs2)))) /\
  pl_fail (pool_run mw res (pool_init n) (evs1 ++ EStop :: evs2)) =
    length (filter (fun x => x.2 = false)
              (pl_counted (pool_run mw res (pool_init n) (evs1 ++ EStop :: evs2)))) /\
  (forall evs3, pl_loop (pool_run mw res (pool_init n) (evs1 ++ EStop :: evs2)) = LBroken ->
     pl_counted (pool_run mw res (pool_init n) (evs1 ++ EStop :: evs2 ++ evs3)) =
       pl_counted (pool_run mw res (pool_init n) (evs1 ++ EStop :: evs2)) /\
     pl_succ (pool_run mw res (pool_init n) (evs1 ++ EStop :: evs2 ++ evs3)) =
       pl_succ (pool_run mw res (pool_init n) (evs1 ++ EStop :: evs2)) /\
     pl_fail (pool_run mw res (pool_init n) (evs1 ++ EStop :: evs2 ++ evs3)) =
       pl_fail (pool_run mw res (pool_init n) (evs1 ++ EStop :: evs2))).
Proof.
  pose proof (pool_run_inv mw res (pool_init n) (evs1 ++ EStop :: evs2) (pool_inv_init n))
    as (_ & _ & Hcnt & _ & _ & Hnd & _ & Hs & Hf).
  pose proof (pool_results_run mw res (pool_init n) (evs1 ++ EStop :: evs2)
                (pool_results_init res n)) as [_ Hres].
  split_conj; [| exact Hcnt | exact Hres | exact Hnd | exact Hs | exact Hf |].
  - replace (evs1 ++ EStop :: evs2) with ((evs1 ++ [EStop]) ++ evs2)
      by (rewrite <- app_assoc; reflexivity).
    rewrite pool_run_app. apply pool_run_stopped.
    rewrite pool_run_app. reflexivity.
  - intros evs3 Hb.
    replace (evs1 ++ EStop :: evs2 ++ evs3) with ((evs1 ++ EStop :: evs2) ++ evs3)
      by (rewrite <- app_assoc; reflexivity).
    rewrite pool_run_app. apply pool_run_broken, Hb.
Qed.

Lemma cancel_counts_started_subset_witness :
  pl_loop (pool_run 2 (fun _ => RBool true) (pool_init 2) sched_stop_in_flight) = LBroken /\
  pl_succ (pool_run 2 (fun _ => RBool true) (pool_init 2)
             (sched_stop_in_flight ++ [ECollect 1; EHandle])) = 1.
Proof.
  assert (Hb : pl_loop (pool_run 2 (fun _ => RBool true) (pool_init 2)
                          ([EStart 0; EStart 1; EFinish 0; ECollect 0; EHandle] ++
                           EStop :: [EFinish 1; ECollect 1])) = LBroken)
    by (vm_compute; reflexivity).
  split; [exact Hb|].
  destruct (proj2 (proj2 (proj2 (proj2 (proj2 (proj2
              (cancel_counts_started_subset 2 (fun _ => RBool true) 2
                 [EStart 0; EStart 1; EFinish 0; ECollect 0; EHandle]
                 [EFinish 1; ECollect 1])))))) [ECollect 1; EHandle] Hb) as (_ & Hs & _).
  exact (eq_trans Hs eq_refl).
Defined.

(** ** C4 *)

Lemma str_app_cons (c : ascii) (a b : string) : String c a +:+ b = String c (a +:+ b).
Proof. reflexivity. Qed.

Lemma str_app_nil_l (b : string) : "" +:+ b = b.
Proof. reflexivity. Qed.

Lemma opt_bind_some {A B : Type} (x : A) (f : A -> option B) : (Some x ≫= f) = f x.
Proof. reflexivity. Qed.

Lemma expect_cons (q : ascii) (s : string) : expect q (String q s) = Some s.
Proof. simpl. by rewrite Ascii.eqb_refl. Qed.

Lemma take_until_free (q : ascii) (X z : string) :
  char_free q X = true -> take_until q (X +:+ String q z) = (X, String q z).
Proof.
  induction X as [|d X IH]; intros H.
  - rewrite str_app_nil_l. simpl. by rewrite Ascii.eqb_refl.
  - simpl in H. apply andb_true_iff in H as [Hd H]. apply negb_true_iff in Hd.
    rewrite str_app_cons. simpl. rewrite Hd. by rewrite IH.
Qed.

Ltac list_norm := repeat progress (cbn [app]; rewrite <- ?app_assoc).

(** The name cleaning over any alphabet that meets [alphabet_ok]. *)
Section CleanText.
Context {A : Type} `{Alphabet A}.
Hypothesis Hok : alphabet_ok A.
Import Text.

Lemma lit_neq (a b : ascii) : a <> b -> lit a <> lit b.
Proof. intros Hab E. apply Hab. destruct Hok as [Hinj _]. exact (Hinj a b E). Qed.

Ltac ok_destruct := destruct Hok as (?&?&?&?&?&?&?&?&?&?&?&?); assumption.

Lemma sp_space : is_space_a (lit " ") = true.
Proof. ok_destruct. Qed.
Lemma lpar_ns : is_space_a (lit "(") = false.
Proof. ok_destruct. Qed.
Lemma rpar_ns : is_space_a (lit ")") = false.
Proof. ok_destruct. Qed.
Lemma lbr_ns : is_space_a (lit "[") = false.
Proof. ok_destruct. Qed.
Lemma rbr_ns : is_space_a (lit "]") = false.
Proof. ok_destruct. Qed.
Lemma digit_ns (x : A) : is_digit_a x = true -> is_space_a x = false.
Proof. destruct Hok as (_&_&_&_&_&_&Hd&_). exact (Hd x). Qed.
Lemma rpar_nd : is_digit_a (lit ")") = false.
Proof. ok_destruct. Qed.
Lemma ci_disc : ci_free ")" "Disc" = true.
Proof.
  destruct Hok as (_&_&_&_&_&_&_&_&H1&H2&H3&H4). simpl. by rewrite H1, H2, H3, H4.
Qed.

Ltac ok_fact :=
  first [exact sp_space | exact lpar_ns | exact rpar_ns | exact lbr_ns | exact rbr_ns
        | exact rpar_nd | exact ci_disc | apply lit_neq; discriminate].

Lemma is_lit_true (q : ascii) (x : A) : is_lit q x = true <-> x = lit q.
Proof. unfold is_lit. apply bool_decide_eq_true. Qed.

Lemma is_lit_false (q : ascii) (x : A) : is_lit q x = false <-> x <> lit q.
Proof. unfold is_lit. apply bool_decide_eq_false. Qed.

Lemma is_lit_refl (q : ascii) : is_lit q (lit q) = true.
Proof. by apply is_lit_true. Qed.

Lemma char_free_cons (q : ascii) (x : A) (s : list A) :
  char_free q (x :: s) = true <-> x <> lit q /\ char_free q s = true.
Proof. cbn [char_free]. rewrite andb_true_iff, negb_true_iff, is_lit_false. tauto. Qed.

Lemma char_free_app (q : ascii) (a b : list A) :
  char_free q (a ++ b) = char_free q a && char_free q b.
Proof.
  induction a as [|x a IH]; [reflexivity|]. cbn [app char_free]. rewrite IH. apply andb_assoc.
Qed.

Lemma skip_spaces_nonspace (x : A) (s : list A) :
  is_space_a x = false -> skip_spaces (x :: s) = x :: s.
Proof. intros Hx. cbn [skip_spaces]. by rewrite Hx. Qed.

Lemma skip_spaces_space (x : A) (s : list A) :
  is_space_a x = true -> skip_spaces (x :: s) = skip_spaces s.
Proof. intros Hx. cbn [skip_spaces]. by rewrite Hx. Qed.

Lemma rstrip_cons (x : A) (s : list A) :
  rstrip (x :: s) = match rstrip s with [] => if is_space_a x then [] else [x] | r => x :: r end.
Proof. reflexivity. Qed.

(** [\s*]: the spaces it eats, and nothing else matters to it. *)
Lemma skip_spaces_split (s : list A) :
  exists sp, s = sp ++ skip_spaces s /\
    (forall z, skip_spaces (sp ++ z) = skip_spaces z) /\
    (forall q, is_space_a (lit q) = false -> char_free q sp = true).
Proof.
  induction s as [|x s IH]; [exists []; split_conj; auto|].
  destruct (is_space_a x) eqn:Hx.
  - destruct IH as (sp & Hs & Hz & Hf). exists (x :: sp). rewrite skip_spaces_space by exact Hx.
    split_conj.
    + cbn [app]. by rewrite <- Hs.
    + intros z. cbn [app]. rewrite skip_spaces_space by exact Hx. apply Hz.
    + intros q Hq. apply char_free_cons. split; [intros ->; congruence | auto].
  - exists []. rewrite skip_spaces_nonspace by exact Hx. split_conj; auto.
Qed.

Lemma skip_digits_split (s : list A) :
  exists ds, s = ds ++ skip_digits s /\
    (forall z, skip_digits (ds ++ z) = skip_digits z) /\
    (forall q, is_digit_a (lit q) = false -> char_free q ds = true).
Proof.
  induction s as [|x s IH]; [exists []; split_conj; auto|].
  cbn [skip_digits]. destruct (is_digit_a x) eqn:Hx.
  - destruct IH as (ds & Hs & Hz & Hf). exists (x :: ds). split_conj.
    + cbn [app]. by rewrite <- Hs.
    + intros z. cbn [app skip_digits]. rewrite Hx. apply Hz.
    + intros q Hq. apply char_free_cons. split; [intros ->; congruence | auto].
  - exists []. split_conj; auto.
Qed.

Lemma expect_some (q : ascii) (s r : list A) : expect q s = Some r -> s = lit q :: r.
Proof.
  destruct s as [|x s]; cbn [expect]; [discriminate|].
  destruct (is_lit q x) eqn:E; [|discriminate]. apply is_lit_true in E. congruence.
Qed.

Lemma expect_lit (q : ascii) (s : list A) : expect q (lit q :: s) = Some s.
Proof. cbn [expect]. by rewrite is_lit_refl. Qed.

Lemma expect_neq (q : ascii) (x : A) (s : list A) : x <> lit q -> expect q (x :: s) = None.
Proof. intros Hx%is_lit_false. cbn [expect]. by rewrite Hx. Qed.

Lemma prefix_ci_some (p : string) (s r : list A) :
  prefix_ci p s = Some r ->
  exists w, s = w ++ r /\ (forall z, prefix_ci p (w ++ z) = Some z) /\
    (forall q, ci_free q p = true -> char_free q w = true).
Proof.
  revert s. induction p as [|c p IH]; intros s Hs; cbn [prefix_ci] in Hs.
  - injection Hs as <-. exists []. split_conj; auto.
  - destruct s as [|x s]; [discriminate|].
    destruct (match_ci c x) eqn:Hcx; [|discriminate].
    destruct (IH s Hs) as (w & Hw & Hz & Hf). exists (x :: w). split_conj.
    + cbn [app]. by rewrite <- Hw.
    + intros z. cbn [app prefix_ci]. rewrite Hcx. apply Hz.
    + intros q Hq. cbn [ci_free] in Hq. apply andb_true_iff in Hq as [Hq1 Hq2].
      apply char_free_cons. split; [|auto]. intros ->. rewrite Hcx in Hq1. discriminate.
Qed.

(** A match of the disc pattern: the text it spans, which the pattern
    matches again whatever follows, and its shape [(X)] with [X] not
    empty and free of [)]. *)
Lemma match_disc_some (s r : list A) :
  match_disc s = Some r ->
  exists t, s = t ++ r /\ (forall z, match_disc (t ++ z) = Some z) /\
    exists X, t = lit "(" :: X ++ [lit ")"] /\ X <> [] /\ char_free ")" X = true.
Proof.
  intros Hm. unfold match_disc in Hm.
  apply bind_Some in Hm as (s1 & E1 & Hm).
  apply bind_Some in Hm as (s2 & E2 & Hm).
  apply bind_Some in Hm as (s3 & E3 & Hm).
  destruct (skip_spaces_split s2) as (sp & Hs2 & Hsz & Hsf).
  destruct (skip_spaces s2) as [|d s2'] eqn:Esk; [discriminate|].
  unfold digits1 in E3. destruct (is_digit_a d) eqn:Hd; [|discriminate].
  injection E3 as <-.
  destruct (skip_digits_split s2') as (ds & Hds & Hdz & Hdf).
  apply expect_some in Hm. apply expect_some in E1.
  destruct (prefix_ci_some _ _ _ E2) as (w & Hw & Hwz & Hwf).
  exists (lit "(" :: w ++ sp ++ d :: ds ++ [lit ")"]). split_conj.
  - rewrite E1, Hw, Hs2, Hds, Hm. list_norm. reflexivity.
  - intros z. unfold match_disc. list_norm.
    rewrite expect_lit, opt_bind_some, Hwz, opt_bind_some, Hsz.
    rewrite skip_spaces_nonspace by exact (digit_ns d Hd).
    cbn [digits1]. rewrite Hd, opt_bind_some, Hdz.
    cbn [skip_digits]. rewrite rpar_nd. apply expect_lit.
  - exists (w ++ sp ++ d :: ds). split_conj.
    + list_norm. reflexivity.
    + intros He. apply app_eq_nil in He as [_ He]. apply app_eq_nil in He as [_ He].
      discriminate He.
    + rewrite !char_free_app. rewrite (Hwf ")"%char) by exact ci_disc.
      rewrite (Hsf ")"%char) by exact rpar_ns. cbn [andb char_free].
      rewrite (Hdf ")"%char) by exact rpar_nd.
      destruct (is_lit ")" d) eqn:E; [|reflexivity].
      apply is_lit_true in E. subst d. rewrite rpar_nd in Hd. discriminate Hd.
Qed.

(** The tag [search_disc] returns: matched again by the disc pattern in
    any context, and of the shape [(X)]. *)
Lemma search_disc_some (s t : list A) :
  search_disc s = t -> t <> [] ->
  (forall z, match_disc (t ++ z) = Some z) /\
  exists X, t = lit "(" :: X ++ [lit ")"] /\ X <> [] /\ char_free ")" X = true.
Proof.
  induction s as [|c s IH]; intros Hs Ht; cbn [search_disc] in Hs; [congruence|].
  destruct (match_disc (c :: s)) as [rest|] eqn:Em; [|exact (IH Hs Ht)].
  destruct (match_disc_some _ _ Em) as (t0 & Heq & Hz & Hshape).
  rewrite Heq, length_app, Nat.add_sub, take_app_length in Hs. subst t0.
  split; assumption.
Qed.

(** On the second pass the tag is found again, after the cleaned name. *)
Lemma search_disc_second (b t Y : list A) :
  char_free "(" b = true -> t = lit "(" :: Y -> (forall z, match_disc (t ++ z) = Some z) ->
  search_disc (b ++ lit " " :: t) = t.
Proof.
  intros Hb Ht Hz. induction b as [|c b IH].
  - cbn [app search_disc].
    assert (Hsp : match_disc (lit " " :: t) = None).
    { unfold match_disc. rewrite expect_neq by ok_fact. reflexivity. }
    rewrite Hsp. pose proof (Hz []) as H0. rewrite app_nil_r in H0.
    rewrite Ht in H0 |- *. cbn [search_disc]. rewrite H0.
    apply take_ge. cbn [length]. lia.
  - apply char_free_cons in Hb as [Hc Hb]. cbn [app search_disc].
    assert (Hn : match_disc (c :: b ++ lit " " :: t) = None)
      by (unfold match_disc; by rewrite expect_neq).
    rewrite Hn. exact (IH Hb).
Qed.

Lemma rstrip_cons_eq (c : A) (b : list A) :
  rstrip (c :: b) = c :: b -> rstrip b = b /\ (is_space_a c = true -> b <> []).
Proof.
  rewrite rstrip_cons. destruct (rstrip b) as [|y r] eqn:E.
  - destruct (is_space_a c) eqn:Hc; intros Hr; [discriminate|].
    injection Hr as Hb. subst b. split; [reflexivity | congruence].
  - intros Hr. injection Hr as Hb. split; [exact Hb|]. intros _ ->. discriminate E.
Qed.

Lemma match_group_nonblank (b z : list A) :
  char_free "(" b = true -> rstrip b = b -> b <> [] -> match_group "(" ")" (b ++ z) = None.
Proof.
  intros Hf Hr Hne. unfold match_group.
  enough (Hx : expect "(" (skip_spaces (b ++ z)) = None) by (rewrite Hx; reflexivity).
  induction b as [|c b IH]; [contradiction|].
  apply char_free_cons in Hf as [Hc Hf]. destruct (rstrip_cons_eq c b Hr) as [Hb Hsp].
  cbn [app]. destruct (is_space_a c) eqn:Es.
  - rewrite skip_spaces_space by exact Es. exact (IH Hf Hb (Hsp eq_refl)).
  - rewrite skip_spaces_nonspace by exact Es. by apply expect_neq.
Qed.

Lemma take_until_lit (q : ascii) (X z : list A) :
  char_free q X = true -> take_until q (X ++ lit q :: z) = (X, lit q :: z).
Proof.
  induction X as [|d X IH]; intros Hq.
  - cbn [app take_until]. by rewrite is_lit_refl.
  - apply char_free_cons in Hq as [Hd Hq]. apply is_lit_false in Hd.
    cbn [app take_until]. rewrite Hd. by rewrite IH.
Qed.

Lemma match_group_tag (t X : list A) :
  t = lit "(" :: X ++ [lit ")"] -> X <> [] -> char_free ")" X = true ->
  match_group "(" ")" (lit " " :: t) = Some [].
Proof.
  intros Ht HX Hf. unfold match_group.
  rewrite skip_spaces_space by ok_fact. rewrite Ht.
  rewrite skip_spaces_nonspace by ok_fact.
  rewrite expect_lit, opt_bind_some, take_until_lit by exact Hf.
  destruct X as [|x X]; [contradiction|]. apply expect_lit.
Qed.

(** The parenthesis pass on [name + " " + tag] removes exactly the tag. *)
Lemma sub_group_body_tag (f : nat) (b t X : list A) :
  char_free "(" b = true -> rstrip b = b ->
  t = lit "(" :: X ++ [lit ")"] -> X <> [] -> char_free ")" X = true ->
  length b < f -> sub_group_fuel f "(" ")" (b ++ lit " " :: t) = b.
Proof.
  intros Hf Hr Ht HX HfX. revert f. induction b as [|c b IH]; intros f Hl.
  - destruct f as [|f]; [cbn [length] in Hl; lia|]. cbn [app sub_group_fuel].
    rewrite (match_group_tag t X Ht HX HfX). destruct f; reflexivity.
  - destruct f as [|f]; [cbn [length] in Hl; lia|].
    pose proof (match_group_nonblank (c :: b) (lit " " :: t) Hf Hr ltac:(discriminate)) as Hn.
    cbn [app] in Hn |- *. cbn [sub_group_fuel]. rewrite Hn. f_equal.
    apply char_free_cons in Hf as [_ Hf]. destruct (rstrip_cons_eq c b Hr) as [Hb _].
    apply IH; [exact Hf | exact Hb | cbn [length] in Hl; lia].
Qed.

Lemma sub_group_tag (b t X : list A) :
  char_free "(" b = true -> rstrip b = b ->
  t = lit "(" :: X ++ [lit ")"] -> X <> [] -> char_free ")" X = true ->
  sub_group "(" ")" (b ++ lit " " :: t) = b.
Proof.
  intros. unfold sub_group. apply (sub_group_body_tag _ b t X); try assumption.
  rewrite length_app. cbn [length]. lia.
Qed.

Lemma collapsed_collapse (prev : bool) (s : list A) :
  collapsed prev (collapse_spaces_aux prev s) = true.
Proof.
  revert prev. induction s as [|x s IH]; intros prev; [reflexivity|]. cbn [collapse_spaces_aux].
  destruct (is_space_a x) eqn:Hx; [destruct prev|]; cbn [collapsed].
  - apply IH.
  - rewrite sp_space, is_lit_refl. apply IH.
  - rewrite Hx. apply IH.
Qed.

Lemma collapse_collapsed (prev : bool) (s : list A) :
  collapsed prev s = true -> collapse_spaces_aux prev s = s.
Proof.
  revert prev. induction s as [|x s IH]; intros prev Hc; [reflexivity|].
  cbn [collapsed] in Hc. cbn [collapse_spaces_aux]. destruct (is_space_a x) eqn:Hx.
  - apply andb_true_iff in Hc as [Hc Hs]. apply andb_true_iff in Hc as [Hp Hsp].
    destruct prev; [discriminate Hp|]. apply is_lit_true in Hsp. subst x.
    rewrite (IH true Hs). reflexivity.
  - rewrite (IH false Hc). reflexivity.
Qed.

Lemma collapsed_skip (prev : bool) (s : list A) :
  collapsed prev s = true -> collapsed false (skip_spaces s) = true.
Proof.
  revert prev. induction s as [|x s IH]; intros prev Hc; [reflexivity|].
  cbn [collapsed] in Hc. destruct (is_space_a x) eqn:Hx.
  - rewrite skip_spaces_space by exact Hx.
    apply andb_true_iff in Hc as [_ Hs]. exact (IH true Hs).
  - rewrite skip_spaces_nonspace by exact Hx. cbn [collapsed]. rewrite Hx. exact Hc.
Qed.

Lemma collapsed_rstrip (prev : bool) (s : list A) :
  collapsed prev s = true -> collapsed prev (rstrip s) = true.
Proof.
  revert prev. induction s as [|x s IH]; intros prev Hc; [reflexivity|].
  cbn [collapsed] in Hc. rewrite rstrip_cons. destruct (is_space_a x) eqn:Hx.
  - apply andb_true_iff in Hc as [H1 H2]. pose proof (IH true H2) as IH'.
    destruct (rstrip s) as [|y r]; [reflexivity|].
    cbn [collapsed]. rewrite Hx, H1. exact IH'.
  - pose proof (IH false Hc) as IH'.
    destruct (rstrip s) as [|y r]; cbn [collapsed]; rewrite Hx; [reflexivity | exact IH'].
Qed.

Lemma rstrip_idem (s : list A) : rstrip (rstrip s) = rstrip s.
Proof.
  induction s as [|x s IH]; [reflexivity|]. rewrite rstrip_cons.
  destruct (rstrip s) as [|y r] eqn:E.
  - destruct (is_space_a x) eqn:Hx; [reflexivity|]. rewrite rstrip_cons. cbn [rstrip].
    rewrite Hx. reflexivity.
  - rewrite rstrip_cons, IH. reflexivity.
Qed.

Lemma skip_rstrip_skip (s : list A) :
  skip_spaces (rstrip (skip_spaces s)) = rstrip (skip_spaces s).
Proof.
  induction s as [|x s IH]; [reflexivity|]. destruct (is_space_a x) eqn:Hx.
  - rewrite skip_spaces_space by exact Hx. exact IH.
  - rewrite skip_spaces_nonspace by exact Hx. rewrite rstrip_cons.
    destruct (rstrip s) as [|y r].
    + rewrite Hx. by rewrite skip_spaces_nonspace.
    + by rewrite skip_spaces_nonspace.
Qed.

(** The cleaned name is already stripped and collapsed. *)
Lemma body_normal (f : list A) :
  rstrip (clean_name_body f) = clean_name_body f /\
  strip (collapse_spaces (clean_name_body f)) = clean_name_body f.
Proof.
  unfold clean_name_body, strip, collapse_spaces.
  set (u := collapse_spaces_aux false (sub_group "[" "]" (sub_group "(" ")" f))).
  split; [apply rstrip_idem|].
  rewrite collapse_collapsed.
  - rewrite skip_rstrip_skip. apply rstrip_idem.
  - apply collapsed_rstrip. apply (collapsed_skip false). apply collapsed_collapse.
Qed.

Lemma take_until_split (q : ascii) (s a b : list A) :
  take_until q s = (a, b) ->
  s = a ++ b /\ char_free q a = true /\ (b = [] \/ exists z, b = lit q :: z).
Proof.
  revert a b. induction s as [|d s IH]; intros a b Ht; cbn [take_until] in Ht.
  - injection Ht as <- <-. split_conj; auto.
  - destruct (is_lit q d) eqn:Hd.
    + apply is_lit_true in Hd. subst d. injection Ht as <- <-. split_conj; eauto.
    + destruct (take_until q s) as [a' b'] eqn:E. injection Ht as <- <-.
      destruct (IH a' b' eq_refl) as (Hs & Hf & Hb). split_conj; [| |exact Hb].
      * cbn [app]. by rewrite <- Hs.
      * apply char_free_cons. split; [by apply is_lit_false | exact Hf].
Qed.

(** A match of a group spans a non-empty prefix. *)
Lemma match_group_some (o c : ascii) (s r : list A) :
  match_group o c s = Some r -> exists p, s = p ++ r /\ p <> [].
Proof.
  unfold match_group. intros Hm.
  apply bind_Some in Hm as (s1 & E1 & Hm).
  destruct (take_until c s1) as [inner s2] eqn:Et.
  destruct inner as [|y inner]; [discriminate|].
  apply expect_some in Hm. apply expect_some in E1.
  destruct (skip_spaces_split s) as (sp & Hs & _ & _).
  destruct (take_until_split c s1 _ s2 Et) as (Hs1 & _ & _).
  exists (sp ++ lit o :: (y :: inner) ++ [lit c]). split.
  - rewrite Hs at 1. rewrite E1, Hs1, Hm. list_norm. reflexivity.
  - intros He. apply app_eq_nil in He as [_ He]. discriminate He.
Qed.

Lemma no_group_app (o c : ascii) (p s : list A) :
  no_group o c (p ++ s) = true -> no_group o c s = true.
Proof.
  induction p as [|x p IH]; [auto|]. cbn [app no_group].
  intros Hn. apply andb_true_iff in Hn as [_ Hn]. auto.
Qed.

Lemma char_free_app_r (q : ascii) (p s : list A) :
  char_free q (p ++ s) = true -> char_free q s = true.
Proof. rewrite char_free_app. intros Hc. by apply andb_true_iff in Hc as [_ Hc]. Qed.

Lemma no_group_skip (o c : ascii) (s : list A) :
  no_group o c s = true -> no_group o c (skip_spaces s) = true.
Proof.
  destruct (skip_spaces_split s) as (sp & Hs & _ & _). rewrite Hs at 1. apply no_group_app.
Qed.

Lemma char_free_sub (q o c : ascii) (f : nat) (s : list A) :
  char_free q s = true -> char_free q (sub_group_fuel f o c s) = true.
Proof.
  revert s. induction f as [|f IH]; intros s Hc; [exact Hc|].
  destruct s as [|x s]; [reflexivity|]. cbn [sub_group_fuel].
  destruct (match_group o c (x :: s)) as [r|] eqn:Em.
  - destruct (match_group_some _ _ _ _ Em) as (p & Hp & _).
    apply IH. rewrite Hp in Hc. exact (char_free_app_r q p r Hc).
  - apply char_free_cons in Hc as [Hx Hc]. apply char_free_cons. auto.
Qed.

Lemma take_until_free_all (q : ascii) (s : list A) :
  char_free q s = true -> take_until q s = (s, []).
Proof.
  induction s as [|d s IH]; intros Hc; [reflexivity|].
  apply char_free_cons in Hc as [Hd Hc]. apply is_lit_false in Hd.
  cbn [take_until]. rewrite Hd. by rewrite IH.
Qed.

Lemma char_free_collapse (q : ascii) (prev : bool) (s : list A) :
  is_space_a (lit q) = false -> char_free q s = true ->
  char_free q (collapse_spaces_aux prev s) = true.
Proof.
  intros Hq. revert prev. induction s as [|d s IH]; intros prev Hc; [reflexivity|].
  apply char_free_cons in Hc as [Hd Hc]. cbn [collapse_spaces_aux].
  destruct (is_space_a d) eqn:Hsd; [destruct prev|].
  - auto.
  - apply char_free_cons. split; [|auto]. intros Heq.
    rewrite <- Heq, sp_space in Hq. discriminate Hq.
  - apply char_free_cons. auto.
Qed.

Lemma char_free_rstrip (q : ascii) (s : list A) :
  char_free q s = true -> char_free q (rstrip s) = true.
Proof.
  induction s as [|d s IH]; intros Hc; [reflexivity|].
  apply char_free_cons in Hc as [Hd Hc]. rewrite rstrip_cons.
  pose proof (IH Hc) as IH'. destruct (rstrip s) as [|y r].
  - destruct (is_space_a d); [reflexivity|]. apply char_free_cons. auto.
  - apply char_free_cons. auto.
Qed.

Lemma no_group_cons_iff (o c : ascii) (x : A) (s : list A) :
  no_group o c (x :: s) = true <->
  (x = lit o -> (exists z, s = lit c :: z) \/ char_free c s = true) /\ no_group o c s = true.
Proof.
  cbn [no_group]. rewrite andb_true_iff, !orb_true_iff, negb_true_iff. split.
  - intros [[[H1|H2]|H3] H4]; (split; [intros ->|exact H4]).
    + rewrite is_lit_refl in H1. discriminate H1.
    + destruct s as [|d z]; [right; reflexivity|]. apply is_lit_true in H2. subst. eauto.
    + right. exact H3.
  - intros [Hx H4]. split; [|exact H4]. destruct (is_lit o x) eqn:Ex.
    + apply is_lit_true in Ex. destruct (Hx Ex) as [[z ->]|H3].
      * left. right. exact (is_lit_refl c).
      * right. exact H3.
    + left. left. reflexivity.
Qed.

Section Groups.
Variables o c : ascii.
Hypothesis Ho : is_space_a (lit o) = false.
Hypothesis Hcs : is_space_a (lit c) = false.
Hypothesis Hco : lit c <> lit o.

Lemma match_group_no_group (s : list A) : no_group o c s = true -> match_group o c s = None.
Proof.
  intros Hn. apply no_group_skip in Hn. unfold match_group.
  destruct (skip_spaces s) as [|x s3]; [reflexivity|].
  destruct (is_lit o x) eqn:Ex; [|apply is_lit_false in Ex; by rewrite expect_neq].
  apply is_lit_true in Ex. subst x.
  rewrite expect_lit, opt_bind_some.
  apply no_group_cons_iff in Hn as [Hx _]. destruct (Hx eq_refl) as [[z ->]|Hf].
  - cbn [take_until]. rewrite is_lit_refl. reflexivity.
  - rewrite take_until_free_all by exact Hf. destruct s3; reflexivity.
Qed.

(** Where no group starts, the substitution changes nothing. *)
Lemma sub_group_no_group_id (f : nat) (s : list A) :
  no_group o c s = true -> sub_group_fuel f o c s = s.
Proof.
  revert s. induction f as [|f IH]; intros s Hn; [reflexivity|].
  destruct s as [|x s]; [reflexivity|]. cbn [sub_group_fuel].
  rewrite match_group_no_group by exact Hn. f_equal. apply IH.
  apply no_group_cons_iff in Hn as [_ Hn]. exact Hn.
Qed.

Lemma sub_group_no_group (s : list A) : no_group o c s = true -> sub_group o c s = s.
Proof. apply sub_group_no_group_id. Qed.

Lemma sub_group_starts_c (f : nat) (z : list A) :
  exists z', sub_group_fuel f o c (lit c :: z) = lit c :: z'.
Proof.
  destruct f as [|f]; [eauto|]. cbn [sub_group_fuel].
  assert (Hn : match_group o c (lit c :: z) = None).
  { unfold match_group. rewrite skip_spaces_nonspace by exact Hcs. by rewrite expect_neq. }
  rewrite Hn. eauto.
Qed.

(** After the substitution no group starts anywhere. *)
Lemma no_group_sub_self (f : nat) (s : list A) :
  length s <= f -> no_group o c (sub_group_fuel f o c s) = true.
Proof.
  revert s. induction f as [|f IH]; intros s Hl.
  - destruct s; [reflexivity | cbn [length] in Hl; lia].
  - destruct s as [|x s]; [reflexivity|]. cbn [sub_group_fuel].
    destruct (match_group o c (x :: s)) as [r|] eqn:Em.
    + destruct (match_group_some _ _ _ _ Em) as (p & Hp & Hne). apply IH.
      apply (f_equal length) in Hp. rewrite length_app in Hp.
      destruct p; [contradiction|]. cbn [length] in Hp, Hl. lia.
    + apply no_group_cons_iff. split; [|apply IH; cbn [length] in Hl; lia].
      intros ->. unfold match_group in Em. rewrite skip_spaces_nonspace in Em by exact Ho.
      rewrite expect_lit, opt_bind_some in Em.
      destruct (take_until c s) as [inner s2] eqn:Et.
      destruct (take_until_split c s inner s2 Et) as (Hs & Hfi & Hs2).
      destruct inner as [|y inner].
      * cbn [app] in Hs. subst s. destruct Hs2 as [->|[z ->]].
        -- right. destruct f; reflexivity.
        -- left. apply sub_group_starts_c.
      * destruct Hs2 as [->|[z ->]].
        -- right. apply char_free_sub. rewrite Hs, app_nil_r. exact Hfi.
        -- cbv beta iota zeta in Em. rewrite expect_lit in Em. discriminate Em.
Qed.

(** Collapsing the whitespace keeps the property. *)
Lemma no_group_collapse (prev : bool) (s : list A) :
  no_group o c s = true -> no_group o c (collapse_spaces_aux prev s) = true.
Proof.
  revert prev. induction s as [|x s IH]; intros prev Hn; [reflexivity|].
  apply no_group_cons_iff in Hn as [H1 H2]. cbn [collapse_spaces_aux].
  destruct (is_space_a x) eqn:E; [destruct prev|].
  - auto.
  - apply no_group_cons_iff. split; [|auto].
    intros Heq. rewrite <- Heq, sp_space in Ho. discriminate Ho.
  - apply no_group_cons_iff. split; [|auto]. intros Hx.
    destruct (H1 Hx) as [[z ->]|Hf].
    + left. cbn [collapse_spaces_aux]. rewrite Hcs. eauto.
    + right. apply char_free_collapse; assumption.
Qed.

Lemma no_group_rstrip (s : list A) :
  no_group o c s = true -> no_group o c (rstrip s) = true.
Proof.
  induction s as [|x s IH]; intros Hn; [reflexivity|].
  apply no_group_cons_iff in Hn as [H1 H2]. rewrite rstrip_cons.
  pose proof (IH H2) as IH'. destruct (rstrip s) as [|y r] eqn:Er.
  - destruct (is_space_a x); [reflexivity|]. apply no_group_cons_iff.
    split; [|reflexivity]. intros _. right. reflexivity.
  - apply no_group_cons_iff. split; [|exact IH']. intros Hx.
    destruct (H1 Hx) as [[z ->]|Hf].
    + left. rewrite rstrip_cons, Hcs in Er.
      destruct (rstrip z); cbn iota in Er; injection Er as <- <-; eauto.
    + right. apply char_free_rstrip in Hf. rewrite Er in Hf. exact Hf.
Qed.

End Groups.

(** Removing the groups of another pair keeps the property. *)
Lemma no_group_sub_other (o c o' c' : ascii) (f : nat) (s : list A) :
  is_space_a (lit c) = false -> lit c <> lit o' ->
  no_group o c s = true -> no_group o c (sub_group_fuel f o' c' s) = true.
Proof.
  intros Hcs Hco. revert s. induction f as [|f IH]; intros s Hn; [exact Hn|].
  destruct s as [|x s]; [reflexivity|]. cbn [sub_group_fuel].
  destruct (match_group o' c' (x :: s)) as [r|] eqn:Em.
  - destruct (match_group_some _ _ _ _ Em) as (p & Hp & _).
    apply IH. rewrite Hp in Hn. exact (no_group_app _ _ _ _ Hn).
  - apply no_group_cons_iff in Hn as [H1 H2]. apply no_group_cons_iff. split; [|auto].
    intros Hx. destruct (H1 Hx) as [[z ->]|Hf].
    + left. destruct f as [|f]; [eauto|]. cbn [sub_group_fuel].
      assert (Hn : match_group o' c' (lit c :: z) = None).
      { unfold match_group. rewrite skip_spaces_nonspace by exact Hcs. by rewrite expect_neq. }
      rewrite Hn. eauto.
    + right. by apply char_free_sub.
Qed.

(** The cleaned name holds no parenthesis group and no bracket group. *)
Lemma body_no_groups (f : list A) :
  no_group "(" ")" (clean_name_body f) = true /\ no_group "[" "]" (clean_name_body f) = true.
Proof.
  unfold clean_name_body, strip, collapse_spaces, sub_group. split.
  - apply no_group_rstrip; try ok_fact. apply no_group_skip.
    apply no_group_collapse; try ok_fact.
    apply no_group_sub_other; try ok_fact.
    apply no_group_sub_self; try ok_fact. lia.
  - apply no_group_rstrip; try ok_fact. apply no_group_skip.
    apply no_group_collapse; try ok_fact.
    apply no_group_sub_self; try ok_fact. lia.
Qed.

Lemma match_disc_no_group (s : list A) : no_group "(" ")" s = true -> match_disc s = None.
Proof.
  intros Hn. destruct (match_disc s) as [r|] eqn:E; [|reflexivity]. exfalso.
  destruct (match_disc_some _ _ E) as (t & Hs & _ & X & Ht & HX & HfX). subst s t.
  cbn [app] in Hn. apply no_group_cons_iff in Hn as [H1 _].
  destruct (H1 eq_refl) as [[z Hz]|Hf].
  - destruct X as [|x X]; [contradiction|]. cbn [app] in Hz.
    injection Hz as Hx _. apply char_free_cons in HfX as [Hx' _]. contradiction.
  - rewrite !char_free_app in Hf. apply andb_true_iff in Hf as [Hf _].
    apply andb_true_iff in Hf as [_ Hf]. cbn [char_free] in Hf.
    rewrite is_lit_refl in Hf. discriminate Hf.
Qed.

Lemma search_disc_no_group (s : list A) : no_group "(" ")" s = true -> search_disc s = [].
Proof.
  induction s as [|x s IH]; intros Hn; [reflexivity|]. cbn [search_disc].
  rewrite match_disc_no_group by exact Hn. apply IH.
  apply no_group_cons_iff in Hn as [_ Hn]. exact Hn.
Qed.

Lemma clean_game_name_parts (f : list A) :
  clean_game_name f =
  if nonempty (search_disc f) then clean_name_body f ++ lit " " :: search_disc f
  else clean_name_body f.
Proof. reflexivity. Qed.

Lemma nonempty_spec (t : list A) : nonempty t = true <-> t <> [].
Proof. destruct t; cbn [nonempty]; split; congruence. Qed.

(** The transform is idempotent on every name without a disc tag, and on
    every name whose cleaned part holds no opening parenthesis. *)
Lemma clean_idempotent_text (f : list A) :
  search_disc f = [] \/ char_free "(" (clean_name_body f) = true ->
  clean_game_name (clean_game_name f) = clean_game_name f.
Proof.
  intros Hyp.
  pose proof (body_normal f) as [Hr Hn]. pose proof (body_no_groups f) as [Hp Hb].
  pose proof (search_disc_some f (search_disc f) eq_refl) as Hts.
  rewrite (clean_game_name_parts f).
  revert Hyp Hr Hn Hp Hb Hts.
  generalize (search_disc f) as t. generalize (clean_name_body f) as b.
  intros b t Hyp Hr Hn Hp Hb Hts.
  assert (Hfix : strip (collapse_spaces (sub_group "[" "]" b)) = b).
  { rewrite (sub_group_no_group "[" "]") by first [ok_fact | exact Hb]. exact Hn. }
  destruct (nonempty t) eqn:Hne; cbn [nonempty].
  - pose proof Hne as Hne'. apply nonempty_spec in Hne'.
    destruct Hyp as [Hyp|H1]; [contradiction|].
    destruct (Hts Hne') as (Hz & X & Htx & HX & HfX).
    rewrite clean_game_name_parts, (search_disc_second b t (X ++ [lit ")"]) H1 Htx Hz), Hne.
    unfold clean_name_body at 1. rewrite (sub_group_tag b t X H1 Hr Htx HX HfX).
    rewrite Hfix. reflexivity.
  - rewrite clean_game_name_parts, search_disc_no_group by exact Hp. cbn [nonempty].
    unfold clean_name_body. rewrite (sub_group_no_group "(" ")") by first [ok_fact | exact Hp].
    exact Hfix.
Qed.

End CleanText.

(** Latin-1 meets what the patterns rely on. *)
Lemma latin1_ok : alphabet_ok ascii.
Proof.
  unfold alphabet_ok. split_conj; try reflexivity.
  - intros a b E. exact E.
  - intros x Hx. destruct x as [[] [] [] [] [] [] [] []]; vm_compute in Hx |- *; congruence.
Qed.

(** Claim C4, as stated: the transform maps the full file name to
    [Game (Disc 2).chd] and is idempotent. Refuted on both counts: on the
    full name the extension stays with the name and the tag goes to the
    end; and a name with an unclosed parenthesis after the disc tag
    changes again on a second pass, because the parenthesis then closes
    on the tag that was put back. *)
Lemma C4_full_name_and_second_pass :
  clean_game_name "Game (USA) (Rev 1) [!] (Disc 2).chd" = "Game.chd (Disc 2)" /\
  clean_game_name "A (Disc 2) (B" = "A (B (Disc 2)" /\
  clean_game_name (clean_game_name "A (Disc 2) (B") = "A (Disc 2)".
Proof. vm_compute. split_conj; reflexivity. Qed.

(** Claim C4, amended: the mover applies the transform to the stem and
    adds [.chd], which turns [Game (USA) (Rev 1) [!] (Disc 2).chd] into
    [Game (Disc 2).chd]; and the transform is idempotent on every name
    that has no disc tag, and on every name with a disc tag whose cleaned
    part (what is left before the tag is put back) contains no opening
    parenthesis. This holds over every alphabet that meets
    [alphabet_ok], Python's [str] among them, with the Unicode
    whitespace, digits and case folding of the patterns; and so for the
    Latin-1 names of this development. *)
Theorem clean_idempotent_when_no_open_group :
  move_new_name true ["roms"; "Game (USA) (Rev 1) [!] (Disc 2).chd"] = "Game (Disc 2).chd" /\
  (forall (A : Type) (Alph : Alphabet A), alphabet_ok A ->
   forall f : list A,
     Text.search_disc f = [] \/ Text.char_free "(" (Text.clean_name_body f) = true ->
     Text.clean_game_name (Text.clean_game_name f) = Text.clean_game_name f) /\
  (forall f : string,
     Text.search_disc (list_ascii_of_string f) = [] \/
     Text.char_free "(" (Text.clean_name_body (list_ascii_of_string f)) = true ->
     clean_game_name (clean_game_name f) = clean_game_name f).
Proof.
  split; [vm_compute; reflexivity|]. split.
  - intros A Alph Hok f. exact (clean_idempotent_text Hok f).
  - intros f Hyp. unfold clean_game_name. rewrite list_ascii_of_string_of_list_ascii.
    by rewrite (clean_idempotent_text latin1_ok _ Hyp).
Qed.

Lemma clean_idempotent_when_no_open_group_witness :
  (Text.search_disc (list_ascii_of_string "Game (USA) (Rev 1) [!] (Disc 2)") = [] \/
   Text.char_free "(" (Text.clean_name_body (list_ascii_of_string "Game (USA) (Rev 1) [!] (Disc 2)")) = true) /\
  Text.clean_game_name (Text.clean_game_name (list_ascii_of_string "Game (USA) (Rev 1) [!] (Disc 2)")) =
    Text.clean_game_name (list_ascii_of_string "Game (USA) (Rev 1) [!] (Disc 2)") /\
  clean_game_name (clean_game_name "Game (USA) (Rev 1) [!] (Disc 2)") =
    clean_game_name "Game (USA) (Rev 1) [!] (Disc 2)".
Proof.
  assert (H1 : Text.search_disc (list_ascii_of_string "Game (USA) (Rev 1) [!] (Disc 2)") = [] \/
               Text.char_free "(" (Text.clean_name_body
                 (list_ascii_of_string "Game (USA) (Rev 1) [!] (Disc 2)")) = true)
    by (right; vm_compute; reflexivity).
  split; [exact H1|]. split.
  - exact (proj1 (proj2 clean_idempotent_when_no_open_group) ascii latin1 latin1_ok _ H1).
  - exact (proj2 (proj2 clean_idempotent_when_no_open_group) _ H1).
Defined.

(* ================================================================== *)
(** * Further properties of the code *)

Lemma q_int_floor (x : Q) : (0 <= x)%Q -> q_int x = Qfloor x.
Proof.
  destruct x as [a b]. unfold Qle. simpl. intros H.
  unfold q_int. simpl. apply Z.quot_div_nonneg; lia.
Qed.

Lemma Qfloor_nonneg (x : Q) : (0 <= x)%Q -> (0 <= Qfloor x)%Z.
Proof.
  destruct x as [a b]. unfold Qle. simpl. intros H. apply Z.div_pos; lia.
Qed.

Lemma app_s_not_dashes (x : string) : x +:+ "s" <> "--".
Proof.
  destruct x as [|c [|d [|e x]]]; rewrite ?str_app_cons, ?str_app_nil_l; discriminate.
Qed.

(** Extra X1: for a non-negative number of seconds, [format_seconds] works on the whole seconds [Qfloor x] (at most [x], more than [x - 1]) and prints hours, minutes and seconds when there is at least an hour, minutes and seconds when there is at least a minute, and seconds alone otherwise. *)
Theorem format_seconds_fields (x : Q) :
  (0 <= x)%Q ->
  (inject_Z (Qfloor x) <= x < inject_Z (Qfloor x) + 1)%Q /\
  format_seconds (Some x) =
    (if (3600 <=? Qfloor x)%Z then
       pretty (Qfloor x / 3600)%Z +:+ "h " +:+ pretty ((Qfloor x / 60) mod 60)%Z +:+ "m " +:+
       pretty (Qfloor x mod 60)%Z +:+ "s"
     else if (60 <=? Qfloor x)%Z then
       pretty (Qfloor x / 60)%Z +:+ "m " +:+ pretty (Qfloor x mod 60)%Z +:+ "s"
     else pretty (Qfloor x) +:+ "s").
Proof.
  intros Hx. split.
  - split; [apply Qfloor_le|]. pose proof (Qlt_floor x) as H.
    rewrite inject_Z_plus in H. exact H.
  - unfold format_seconds.
    assert (Hb : Qle_bool 0 x = true) by (apply Qle_bool_iff; exact Hx).
    rewrite Hb, (q_int_floor x Hx). simpl negb. cbv iota.
    pose proof (Qfloor_nonneg x Hx) as Hn. set (n := Qfloor x) in *.
    rewrite Z.div_div by lia. change (60 * 60)%Z with 3600%Z.
    destruct (Z.leb_spec 3600 n) as [H1|H1].
    + assert (Hh : (0 < n / 3600)%Z) by (apply Z.div_str_pos; lia).
      destruct (Z.ltb_spec 0 (n / 3600)); [reflexivity | lia].
    + rewrite (Z.div_small n 3600) by lia. simpl.
      assert (Hm : (n / 60 < 60)%Z) by (apply Z.div_lt_upper_bound; lia).
      assert (Hm0 : (0 <= n / 60)%Z) by (apply Z.div_pos; lia).
      rewrite (Z.mod_small (n / 60) 60) by lia.
      destruct (Z.leb_spec 60 n) as [H2|H2].
      * assert (H3 : (0 < n / 60)%Z) by (apply Z.div_str_pos; lia).
        destruct (Z.ltb_spec 0 (n / 60)); [reflexivity | lia].
      * rewrite (Z.div_small n 60) by lia. simpl.
        rewrite (Z.mod_small n 60) by lia. reflexivity.
Qed.

Lemma format_seconds_fields_witness :
  (0 <= 3725)%Q /\ format_seconds (Some 3725%Q) = "1h 2m 5s".
Proof.
  assert (H : (0 <= 3725)%Q) by (unfold Qle; simpl; lia).
  split; [exact H|].
  destruct (format_seconds_fields 3725 H) as [_ E]. rewrite E. vm_compute. reflexivity.
Defined.

Lemma format_seconds_nonneg (x : Q) : (0 <= x)%Q -> format_seconds (Some x) <> "--".
Proof.
  intros Hx. unfold format_seconds.
  assert (Hb : Qle_bool 0 x = true) by (apply Qle_bool_iff; exact Hx).
  rewrite Hb. simpl negb. cbv iota.
  destruct (0 <? _)%Z; [|destruct (0 <? _)%Z];
    rewrite ?str_app_assoc; apply app_s_not_dashes.
Qed.

Lemma avg_time_nonneg (ds : list Q) : Forall (fun d => 0 <= d)%Q ds -> (0 <= avg_time ds)%Q.
Proof.
  intros Hn. destruct ds as [|d ds']; [apply Qle_refl|].
  change (avg_time (d :: ds')) with
    (fold_left Qplus (d :: ds') 0 / inject_Z (Z.of_nat (length (d :: ds'))))%Q.
  unfold Qdiv. apply Qmult_le_0_compat; [apply sum_nonneg, Hn|].
  apply Qinv_le_0_compat. unfold Qle. simpl. lia.
Qed.

Lemma overall_eta_nonneg (completed total cores : Z) (ds : list Q) (e : Q) :
  Forall (fun d => 0 <= d)%Q ds -> overall_eta completed total ds cores = Some e -> (0 <= e)%Q.
Proof.
  intros Hn. unfold overall_eta. destruct (Qeq_bool _ _); [discriminate|].
  intros H. injection H as <-.
  apply Qmult_le_0_compat; [apply avg_time_nonneg, Hn|].
  unfold Qdiv. apply Qmult_le_0_compat.
  - unfold Qle. simpl. lia.
  - apply Qinv_le_0_compat. unfold Qle. simpl. lia.
Qed.

(** Extra X2: with non-negative durations, the status line of [update_metrics] shows [ETA --] exactly when every recorded duration is zero (no duration at all included); as soon as one duration is positive it shows a time. *)
Theorem eta_text_dashes_iff_zero_mean (completed total cores : Z) (ds : list Q) :
  Forall (fun d => 0 <= d)%Q ds ->
  (metrics_status_text completed total ds cores =
     "Converting " +:+ pretty completed +:+ "/" +:+ pretty total +:+ " ETA --" <->
   Forall (fun d => d == 0)%Q ds).
Proof.
  intros Hn. unfold metrics_status_text.
  change " ETA --" with (" ETA " +:+ "--").
  rewrite !str_app_assoc.
  split.
  - intros H. apply (inj (String.append _)) in H.
    destruct (overall_eta completed total ds cores) as [e|] eqn:He.
    + exfalso. exact (format_seconds_nonneg e (overall_eta_nonneg _ _ _ _ _ Hn He) H).
    + unfold overall_eta in He. destruct (Qeq_bool (avg_time ds) 0) eqn:Hb; [|discriminate].
      apply (avg_time_zero_iff ds Hn). apply Qeq_bool_iff, Hb.
  - intros H. f_equal. unfold overall_eta.
    assert (Hz : Qeq_bool (avg_time ds) 0 = true)
      by (apply Qeq_bool_iff, (avg_time_zero_iff ds Hn), H).
    rewrite Hz. reflexivity.
Qed.

Lemma eta_text_dashes_iff_zero_mean_witness :
  Forall (fun d => 0 <= d)%Q [0%Q; 0%Q] /\
  metrics_status_text 1 3 [0%Q; 0%Q] 4 =
    "Converting " +:+ pretty 1%Z +:+ "/" +:+ pretty 3%Z +:+ " ETA --".
Proof.
  assert (Hn : Forall (fun d => 0 <= d)%Q [0%Q; 0%Q])
    by (repeat constructor; unfold Qle; simpl; lia).
  split; [exact Hn|].
  apply (eta_text_dashes_iff_zero_mean 1 3 4 [0%Q; 0%Q] Hn).
  repeat constructor.
Defined.

(** ** Version numbers *)

Lemma search_first_some {A : Type} (m : string -> option A) (s : string) (v : A) :
  search_first m s = Some v -> exists t, m t = Some v.
Proof.
  induction s as [|c s IH]; simpl; destruct (m _) eqn:E; intros H.
  - injection H as ->. eauto.
  - discriminate.
  - injection H as ->. eauto.
  - exact (IH H).
Qed.

Lemma all_digits_app (a b : string) :
  all_digits (a +:+ b) = all_digits a && all_digits b.
Proof.
  induction a as [|c a IH]; [reflexivity|].
  rewrite str_app_cons. simpl. rewrite IH. apply andb_assoc.
Qed.

Lemma digits4_some (s d r : string) :
  digits4 s = Some (d, r) -> all_digits d = true /\ String.length d = 4.
Proof.
  destruct s as [|a [|b [|c [|e r']]]]; simpl; try discriminate.
  destruct (is_digit a) eqn:Ha, (is_digit b) eqn:Hb, (is_digit c) eqn:Hc, (is_digit e) eqn:He;
    simpl; try discriminate.
  intros H. injection H as <- <-. simpl. rewrite Ha, Hb, Hc, He. auto.
Qed.

Lemma take_digits_digits (s a r : string) : take_digits s = (a, r) -> all_digits a = true.
Proof.
  revert a r. induction s as [|c s IH]; intros a r; simpl.
  - intros H. injection H as <- <-. reflexivity.
  - destruct (is_digit c) eqn:Hc.
    + destruct (take_digits s) as [a' r'] eqn:E. intros H. injection H as <- <-.
      simpl. rewrite Hc. exact (IH a' r' eq_refl).
    + intros H. injection H as <- <-. reflexivity.
Qed.

Lemma match_decimal_some (t ver : string) :
  match_decimal t = Some ver ->
  exists a b, ver = a +:+ String "." b /\ all_digits a = true /\ all_digits b = true /\
              a <> "" /\ b <> "".
Proof.
  unfold match_decimal. destruct (take_digits t) as [a s1] eqn:E1.
  destruct (String.eqb_spec a "") as [|Ha]; [discriminate|].
  destruct (expect "." s1) as [s2|]; [|discriminate].
  destruct (take_digits s2) as [b s3] eqn:E2.
  destruct (String.eqb_spec b "") as [|Hb]; [discriminate|].
  intros H. injection H as <-. exists a, b.
  split; [reflexivity|]. split; [exact (take_digits_digits _ _ _ E1)|].
  split; [exact (take_digits_digits _ _ _ E2)|]. auto.
Qed.

Lemma prefix_dot (c : ascii) (s : string) :
  String.prefix "." (String c s) = if Ascii.ascii_dec "." c then true else false.
Proof. destruct s; reflexivity. Qed.

Lemma remove_dots_digits (f : nat) (s : string) :
  all_digits s = true -> String.length s <= f -> remove_all_fuel f "." s = s.
Proof.
  revert f. induction s as [|c s IH]; intros f Hd Hl; destruct f as [|f]; try reflexivity.
  simpl in Hd. apply andb_true_iff in Hd as [Hc Hd].
  cbn [remove_all_fuel]. rewrite prefix_dot.
  destruct (Ascii.ascii_dec "." c) as [<-|]; [discriminate Hc|].
  f_equal. apply IH; [exact Hd | simpl in Hl; lia].
Qed.

Lemma substring_long (n : nat) (s : string) : String.length s <= n -> substring 0 n s = s.
Proof.
  revert n. induction s as [|c s IH]; intros n H; destruct n as [|n]; simpl in *; try lia; try reflexivity.
  rewrite IH by lia. reflexivity.
Qed.

Lemma remove_dot_split (f : nat) (a b : string) :
  all_digits a = true -> String.length a < f ->
  remove_all_fuel f "." (a +:+ String "." b) = a +:+ remove_all_fuel (f - String.length a - 1) "." b.
Proof.
  revert f. induction a as [|c a IH]; intros f Hd Hl; destruct f as [|f]; simpl in Hl; try lia.
  - rewrite str_app_nil_l. cbn [remove_all_fuel]. rewrite prefix_dot.
    destruct (Ascii.ascii_dec "." ".") as [_|]; [|congruence].
    simpl. rewrite substring_long by lia. rewrite Nat.sub_0_r, str_app_nil_l. reflexivity.
  - simpl in Hd. apply andb_true_iff in Hd as [Hc Hd].
    rewrite !str_app_cons. cbn [remove_all_fuel]. rewrite prefix_dot.
    destruct (Ascii.ascii_dec "." c) as [<-|]; [discriminate Hc|].
    rewrite IH by (exact Hd || lia). reflexivity.
Qed.

Lemma zeros_digits (n : nat) : all_digits (zeros n) = true /\ String.length (zeros n) = n.
Proof. induction n as [|n [IH1 IH2]]; [auto|]. simpl. rewrite IH1, IH2. auto. Qed.

Lemma zfill_digits (t : string) :
  all_digits t = true -> all_digits (zfill 4 t) = true /\ 4 <= String.length (zfill 4 t).
Proof.
  intros Ht. unfold zfill. destruct (zeros_digits (4 - String.length t)) as [Hz Hzl].
  destruct t as [|c t'].
  - simpl. auto.
  - simpl in Ht. apply andb_true_iff in Ht as [Hc Ht'].
    assert (Hpm : Ascii.eqb c "+" || Ascii.eqb c "-" = false).
    { destruct (Ascii.eqb_spec c "+") as [->|]; [discriminate Hc|].
      destruct (Ascii.eqb_spec c "-") as [->|]; [discriminate Hc|]. reflexivity. }
    rewrite Hpm, all_digits_app, str_length_app, Hz, Hzl. simpl. rewrite Hc, Ht'. split; [reflexivity|lia].
Qed.

Lemma decimal_version_digits (ver : string) :
  (exists a b, ver = a +:+ String "." b /\ all_digits a = true /\ all_digits b = true) ->
  all_digits (zfill 4 (remove_all "." ver)) = true /\
  4 <= String.length (zfill 4 (remove_all "." ver)).
Proof.
  intros (a & b & -> & Ha & Hb). apply zfill_digits. unfold remove_all.
  rewrite remove_dot_split; [| exact Ha | rewrite str_length_app; simpl; lia].
  rewrite remove_dots_digits; [rewrite all_digits_app, Ha, Hb; reflexivity | exact Hb |].
  rewrite str_length_app. simpl. lia.
Qed.

Lemma installed_digits (path : option string) (run : string -> option (string * string))
    (v : string) :
  get_installed_chdman_version path run = Some v ->
  all_digits v = true /\ 4 <= String.length v.
Proof.
  unfold get_installed_chdman_version.
  destruct path as [[|c p]|]; try discriminate.
  destruct (run _) as [[out err]|]; [|discriminate].
  unfold parse_installed_version.
  destruct (search_first match_mame_tag _) as [w|] eqn:E1.
  - intros H. injection H as <-. destruct (search_first_some _ _ _ E1) as [t Ht].
    unfold match_mame_tag in Ht.
    apply bind_Some in Ht as (s1 & _ & Ht). apply bind_Some in Ht as (s2 & _ & Ht).
    destruct (digits4 s2) as [[d s3]|] eqn:E4; [|discriminate].
    apply bind_Some in Ht as (s4 & _ & Ht). injection Ht as <-.
    destruct (digits4_some _ _ _ E4) as [Hd Hl]. rewrite Hl. auto.
  - destruct (search_first match_decimal _) as [ver|] eqn:E2; [|discriminate].
    intros H. injection H as <-. apply decimal_version_digits.
    destruct (search_first_some _ _ _ E2) as [t Ht].
    destruct (match_decimal_some _ _ Ht) as (a & b & -> & Ha & Hb & _). eauto.
Qed.

Lemma latest_digits (page : option string) (v : string) :
  get_latest_mame_version page = Some v -> all_digits v = true /\ 4 <= String.length v.
Proof.
  unfold get_latest_mame_version. destruct page as [html|]; [|discriminate].
  unfold parse_latest_version.
  destruct (search_first match_mame_ci html) as [w|] eqn:E1.
  - intros H. injection H as <-. destruct (search_first_some _ _ _ E1) as [t Ht].
    unfold match_mame_ci in Ht. apply bind_Some in Ht as (s1 & _ & Ht).
    destruct (digits4 s1) as [[d s3]|] eqn:E4; [|discriminate]. injection Ht as <-.
    destruct (digits4_some _ _ _ E4) as [Hd Hl]. rewrite Hl. auto.
  - destruct (search_first match_mame_decimal html) as [ver|] eqn:E2; [|discriminate].
    intros H. injection H as <-. apply decimal_version_digits.
    destruct (search_first_some _ _ _ E2) as [t Ht].
    unfold match_mame_decimal in Ht.
    apply bind_Some in Ht as (s1 & _ & Ht). apply bind_Some in Ht as (s2 & _ & Ht).
    destruct (match_decimal_some _ _ Ht) as (a & b & -> & Ha & Hb & _). eauto.
Qed.

Lemma digits_value_some (acc : Z) (s : string) :
  all_digits s = true -> exists z, digits_value acc s = Some z.
Proof.
  revert acc. induction s as [|c s IH]; intros acc H; simpl in *; [eauto|].
  apply andb_true_iff in H as [Hc H]. rewrite Hc. apply IH, H.
Qed.

Lemma int_of_digits_some (s : string) :
  all_digits s = true -> s <> "" -> exists z, int_of_digits s = Some z.
Proof.
  intros H Hne. destruct s as [|c s]; [congruence|]. apply digits_value_some, H.
Qed.

(** Extra X4: [check_for_chdman_update] does not fetch the release page when no installed version is found, offers nothing when the latest version is unknown, and otherwise compares the two versions as integers: the update is offered, and downloaded on a yes, exactly when the installed number is smaller. *)
Theorem update_check_compares_versions (path : option string)
    (run : string -> option (string * string)) (page : option string) (yes : bool) :
  (get_installed_chdman_version path run = None ->
     check_for_chdman_update (get_installed_chdman_version path run) page yes =
       mkUpdateCheck false None false) /\
  (forall iv, get_installed_chdman_version path run = Some iv ->
     (get_latest_mame_version page = None ->
        check_for_chdman_update (Some iv) page yes = mkUpdateCheck true None false) /\
     (forall lv, get_latest_mame_version page = Some lv ->
        exists i l, int_of_digits iv = Some i /\ int_of_digits lv = Some l /\
          check_for_chdman_update (Some iv) page yes =
            if (i <? l)%Z then mkUpdateCheck true (Some (mame_display iv, mame_display lv)) yes
            else mkUpdateCheck true None false)).
Proof.
  split.
  - intros H. rewrite H. reflexivity.
  - intros iv Hiv. destruct (installed_digits _ _ _ Hiv) as [Hd Hl].
    destruct iv as [|c iv']; [simpl in Hl; lia|].
    split.
    + intros Hp. unfold check_for_chdman_update. rewrite Hp. reflexivity.
    + intros lv Hlv. destruct (latest_digits _ _ Hlv) as [Hd' Hl'].
      destruct lv as [|c' lv']; [simpl in Hl'; lia|].
      destruct (int_of_digits_some _ Hd ltac:(discriminate)) as [i Hi].
      destruct (int_of_digits_some _ Hd' ltac:(discriminate)) as [l Hl_].
      exists i, l. split; [exact Hi|]. split; [exact Hl_|].
      unfold check_for_chdman_update. rewrite Hlv. cbv beta iota.
      rewrite Hl_, Hi. reflexivity.
Qed.

(** ** Configuration *)

(** Extra X5: loading what [save_config] wrote restores the source folder and the seven boolean options exactly; a saved chdman or 7-Zip path is restored when it is set and still exists, and otherwise the current path is kept. *)
Lemma load_saved_config (gb : jvalue -> option bool) (exists_path : jvalue -> bool)
    (a cur : app_settings) :
  (forall b, gb (JBool b) = Some b) ->
  load_config gb exists_path (Some (Some (save_config a))) cur =
    mkApp (app_source_dir a) (app_delete_originals a) (app_move_to_backup a) (app_recursive a)
      (app_ps1 a) (app_ps2 a) (app_extract a) (app_delete_archives a)
      (if truthy (app_chdman a) && exists_path (app_chdman a) then app_chdman a else app_chdman cur)
      (if truthy (app_seven_zip a) && exists_path (app_seven_zip a) then app_seven_zip a
       else app_seven_zip cur).
Proof.
  intros Hgb. unfold load_config. cbn [run_updates].
  unfold set_bool, restore_path, cfg_get.
  change (save_config a !! "source_dir") with (Some (app_source_dir a)).
  change (save_config a !! "delete_originals") with (Some (JBool (app_delete_originals a))).
  change (save_config a !! "move_to_backup") with (Some (JBool (app_move_to_backup a))).
  change (save_config a !! "recursive") with (Some (JBool (app_recursive a))).
  change (save_config a !! "process_ps1_cues") with (Some (JBool (app_ps1 a))).
  change (save_config a !! "process_ps2_isos") with (Some (JBool (app_ps2 a))).
  change (save_config a !! "extract_compressed") with (Some (JBool (app_extract a))).
  change (save_config a !! "delete_archives_after_extract") with (Some (JBool (app_delete_archives a))).
  change (save_config a !! "chdman_path") with (Some (app_chdman a)).
  change (save_config a !! "seven_zip_path") with (Some (app_seven_zip a)).
  cbv beta iota. rewrite !Hgb. cbv beta iota.
  destruct (truthy (app_chdman a) && exists_path (app_chdman a)),
           (truthy (app_seven_zip a) && exists_path (app_seven_zip a)); reflexivity.
Qed.

Lemma load_saved_config_witness :
  (forall b, (fun v => match v with JBool b' => Some b' | _ => None end) (JBool b) = Some b) /\
  load_config (fun v => match v with JBool b' => Some b' | _ => None end) (fun _ => true)
    (Some (Some (save_config (mkApp (JStr "D:\roms") true false true true true false true
                                 (JStr "C:\mame\chdman.exe") JNull))))
    app_defaults =
    mkApp (JStr "D:\roms") true false true true true false true
      (if truthy (JStr "C:\mame\chdman.exe") && true then JStr "C:\mame\chdman.exe" else JNull)
      (if truthy JNull && true then JNull else JNull).
Proof.
  split; [reflexivity|].
  apply (load_saved_config (fun v => match v with JBool b' => Some b' | _ => None end)
           (fun _ => true) (mkApp (JStr "D:\roms") true false true true true false true
                                 (JStr "C:\mame\chdman.exe") JNull) app_defaults).
  reflexivity.
Defined.

(** Extra X6: when one of the seven options of the config file cannot be read as a boolean, [load_config] stops there: the source folder is still loaded, but the saved chdman and 7-Zip paths are not restored. *)
Lemma load_config_bad_bool_keeps_paths (gb : jvalue -> option bool)
    (exists_path : jvalue -> bool) (d : gmap string jvalue) (cur : app_settings) :
  gb (cfg_get d "delete_originals" (JBool false)) = None \/
  gb (cfg_get d "move_to_backup" (JBool true)) = None \/
  gb (cfg_get d "recursive" (JBool true)) = None \/
  gb (cfg_get d "process_ps1_cues" (JBool false)) = None \/
  gb (cfg_get d "process_ps2_isos" (JBool false)) = None \/
  gb (cfg_get d "extract_compressed" (JBool true)) = None \/
  gb (cfg_get d "delete_archives_after_extract" (JBool false)) = None ->
  app_source_dir (load_config gb exists_path (Some (Some d)) cur) = cfg_get d "source_dir" (JStr "") /\
  app_chdman (load_config gb exists_path (Some (Some d)) cur) = app_chdman cur /\
  app_seven_zip (load_config gb exists_path (Some (Some d)) cur) = app_seven_zip cur.
Proof.
  intros Hbad. unfold load_config. cbn [run_updates]. unfold set_bool.
  destruct (gb (cfg_get d "delete_originals" _)) eqn:E1; [|auto].
  destruct (gb (cfg_get d "move_to_backup" _)) eqn:E2; [|auto].
  destruct (gb (cfg_get d "recursive" _)) eqn:E3; [|auto].
  destruct (gb (cfg_get d "process_ps1_cues" _)) eqn:E4; [|auto].
  destruct (gb (cfg_get d "process_ps2_isos" _)) eqn:E5; [|auto].
  destruct (gb (cfg_get d "extract_compressed" _)) eqn:E6; [|auto].
  destruct (gb (cfg_get d "delete_archives_after_extract" _)) eqn:E7; [|auto].
  exfalso. intuition congruence.
Qed.

Lemma load_config_bad_bool_keeps_paths_witness :
  let gb := fun v => match v with JBool b => Some b | _ => None end in
  let d : gmap string jvalue := <["chdman_path" := JStr "C:\mame\chdman.exe"]>
                                (<["recursive" := JStr "yes"]> ∅) in
  (gb (cfg_get d "delete_originals" (JBool false)) = None \/
   gb (cfg_get d "move_to_backup" (JBool true)) = None \/
   gb (cfg_get d "recursive" (JBool true)) = None \/
   gb (cfg_get d "process_ps1_cues" (JBool false)) = None \/
   gb (cfg_get d "process_ps2_isos" (JBool false)) = None \/
   gb (cfg_get d "extract_compressed" (JBool true)) = None \/
   gb (cfg_get d "delete_archives_after_extract" (JBool false)) = None) /\
  app_chdman (load_config gb (fun _ => true) (Some (Some d)) app_defaults) = JNull.
Proof.
  intros gb d. split; [vm_compute; auto 10|].
  apply (load_config_bad_bool_keeps_paths gb (fun _ => true) d app_defaults).
  vm_compute. auto 10.
Defined.

(** Extra X7: at startup, whether chdman counts as found depends only on [chdman.exe] next to the script and on [shutil.which]: a chdman path saved in the config file is never enough, and when chdman is not found the path loaded from the config is left as it is. *)
Theorem startup_chdman_ignores_config (gb : jvalue -> option bool) (exists_json : jvalue -> bool)
    (file : option (option (gmap string jvalue))) (which7 : option string)
    (exists_path : string -> bool) (direct which : option string) :
  snd (startup gb exists_json file which7 exists_path direct which) =
    match direct with
    | Some _ => true
    | None => match which with Some p => negb (String.eqb p "") | None => false end
    end /\
  (forall p, direct = Some p ->
     app_chdman (fst (startup gb exists_json file which7 exists_path direct which)) = JStr p) /\
  (forall p, direct = None -> which = Some p -> p <> "" ->
     app_chdman (fst (startup gb exists_json file which7 exists_path direct which)) = JStr p) /\
  (snd (startup gb exists_json file which7 exists_path direct which) = false ->
     app_chdman (fst (startup gb exists_json file which7 exists_path direct which)) =
       app_chdman (load_config gb exists_json file app_defaults)).
Proof.
  unfold startup.
  assert (H7 : forall a, app_chdman (fst (check_7zip which7 exists_path a)) = app_chdman a).
  { intros a. unfold check_7zip.
    destruct which7 as [p|]; [destruct (String.eqb p "")|];
      repeat match goal with |- context [if ?b then _ else _] => destruct b end; reflexivity. }
  destruct direct as [p|]; [|destruct which as [p|]]; unfold check_chdman.
  - split; [reflexivity|]. split; [intros q Hq; injection Hq as ->; reflexivity|].
    split; [discriminate|discriminate].
  - destruct (String.eqb_spec p "") as [->|Hp]; simpl.
    + split; [reflexivity|]. split; [discriminate|]. split; [intros q _ Hq; injection Hq as <-; congruence|].
      intros _. apply H7.
    + split; [reflexivity|]. split; [discriminate|]. split; [intros q _ Hq _; injection Hq as ->; reflexivity|].
      discriminate.
  - simpl. split; [reflexivity|]. split; [discriminate|]. split; [discriminate|]. intros _. apply H7.
Qed.

(** ** Scanning *)

Lemma last_dot_aux_app (a b : string) (i : nat) (acc : option nat) :
  last_dot_aux (a +:+ b) i acc = last_dot_aux b (i + String.length a) (last_dot_aux a i acc).
Proof.
  revert i acc. induction a as [|c a IH]; intros i acc; simpl.
  - rewrite Nat.add_0_r. reflexivity.
  - rewrite IH. f_equal. lia.
Qed.

Lemma substring_app_r (a b : string) (m : nat) :
  substring (String.length a) m (a +:+ b) = substring 0 m b.
Proof. induction a as [|c a IH]; [reflexivity|]. exact IH. Qed.

Lemma name_suffix_app (pre e : string) :
  pre <> "" -> e <> "" -> (forall i acc, last_dot_aux e i acc = acc) ->
  name_suffix (pre +:+ String "." e) = String "." e.
Proof.
  intros Hp He Hd. unfold name_suffix, dot_split.
  rewrite last_dot_aux_app. simpl. rewrite Hd.
  rewrite str_length_app. simpl.
  destruct pre as [|c pre]; [congruence|]. destruct e as [|d e]; [congruence|].
  simpl String.length.
  replace ((0 <? S (String.length pre)) && (S (String.length pre) <? S (String.length pre) + S (S (String.length e)) - 1))
    with true by (symmetry; apply andb_true_iff; split; apply Nat.ltb_lt; lia).
  replace (S (String.length pre) + S (S (String.length e)) - S (String.length pre))
    with (String.length (String "." (String d e))) by (simpl; lia).
  change (S (String.length pre)) with (String.length (String c pre)).
  rewrite substring_app_r. apply substring_all.
Qed.

Lemma str_app_eq_len (a a' b b' : string) :
  a +:+ b = a' +:+ b' -> String.length a = String.length a' -> b = b'.
Proof.
  revert a'. induction a as [|c a IH]; intros [|c' a'] H Hl; simpl in *; try lia.
  - exact H.
  - injection H as _ H. apply (IH a'); [exact H | lia].
Qed.

Lemma ends_with_app_len (pre pre' s s' : string) :
  pre +:+ s = pre' +:+ s' -> String.length s = String.length s' -> s = s'.
Proof.
  intros H Hl. apply (str_app_eq_len pre pre'); [exact H|].
  apply (f_equal String.length) in H. rewrite !str_length_app in H. lia.
Qed.

(** The kind [scan_one] gives a name found by one of the two globs. *)
Lemma scan_kind (n : string) :
  ends_with ".cue" n || ends_with ".iso" n = true ->
  String.eqb (lower_str (name_suffix n)) ".cue" = ends_with ".cue" n && negb (String.eqb n ".cue") /\
  String.eqb (lower_str (name_suffix n)) ".iso" = ends_with ".iso" n && negb (String.eqb n ".iso").
Proof.
  unfold ends_with. intros H. apply orb_true_iff in H as [H|H].
  - pose proof H as H'. apply ends_with_aux_spec in H' as [pre ->].
    assert (Hi : ends_with_aux ".iso" (pre +:+ ".cue") = false).
    { destruct (ends_with_aux ".iso" (pre +:+ ".cue")) eqn:E; [|reflexivity].
      apply ends_with_aux_spec in E as [pre' E].
      pose proof (ends_with_app_len _ _ _ _ E eq_refl). discriminate. }
    rewrite H, Hi. destruct pre as [|c pre]; [split; reflexivity|].
    rewrite (name_suffix_app (String c pre) "cue") by (discriminate || reflexivity).
    destruct (String.eqb_spec (String c pre +:+ ".cue") ".cue") as [E|_].
    { apply (f_equal String.length) in E. rewrite str_length_app in E. simpl in E. lia. }
    split; reflexivity.
  - pose proof H as H'. apply ends_with_aux_spec in H' as [pre ->].
    assert (Hc : ends_with_aux ".cue" (pre +:+ ".iso") = false).
    { destruct (ends_with_aux ".cue" (pre +:+ ".iso")) eqn:E; [|reflexivity].
      apply ends_with_aux_spec in E as [pre' E].
      pose proof (ends_with_app_len _ _ _ _ E eq_refl). discriminate. }
    rewrite H, Hc. destruct pre as [|c pre]; [split; reflexivity|].
    rewrite (name_suffix_app (String c pre) "iso") by (discriminate || reflexivity).
    destruct (String.eqb_spec (String c pre +:+ ".iso") ".iso") as [E|_].
    { apply (f_equal String.length) in E. rewrite str_length_app in E. simpl in E. lia. }
    split; reflexivity.
Qed.

Lemma scan_fold_counts (fs : FS) (l : list Path) (a b t : nat) :
  Forall (fun g => ends_with ".cue" (path_name g) || ends_with ".iso" (path_name g) = true) l ->
  exists t', foldl (scan_one fs) (a, b, t) l =
    (a + length (filter (fun g => ends_with ".cue" (path_name g) && negb (String.eqb (path_name g) ".cue") = true) l),
     b + length (filter (fun g => ends_with ".iso" (path_name g) && negb (String.eqb (path_name g) ".iso") = true) l),
     t').
Proof.
  revert a b t. induction l as [|g l IH]; intros a b t Hl; simpl.
  - exists t. rewrite !Nat.add_0_r. reflexivity.
  - inversion Hl as [|? ? Hg Hl']; subst.
    destruct (scan_kind _ Hg) as [Hc Hi]. rewrite Hc, Hi, !filter_cons.
    destruct (ends_with ".cue" (path_name g) && negb (String.eqb (path_name g) ".cue")) eqn:Ec.
    + assert (Ei : ends_with ".iso" (path_name g) && negb (String.eqb (path_name g) ".iso") = false).
      { rewrite <- Hi. apply String.eqb_eq in Hc. rewrite Hc. reflexivity. }
      rewrite Ei. rewrite decide_True by reflexivity. rewrite decide_False by discriminate.
      match goal with |- context [foldl (scan_one fs) (?x, ?y, ?z) l] => destruct (IH x y z Hl') as [t' E] end. exists t'. rewrite E. simpl. repeat f_equal; lia.
    + rewrite decide_False by discriminate.
      destruct (ends_with ".iso" (path_name g) && negb (String.eqb (path_name g) ".iso")) eqn:Ei.
      * rewrite decide_True by reflexivity.
        match goal with |- context [foldl (scan_one fs) (?x, ?y, ?z) l] => destruct (IH x y z Hl') as [t' E] end. exists t'. rewrite E. simpl. repeat f_equal; lia.
      * rewrite decide_False by discriminate.
        match goal with |- context [foldl (scan_one fs) (?x, ?y, ?z) l] => destruct (IH x y z Hl') as [t' E] end. exists t'. rewrite E. reflexivity.
Qed.

Lemma find_game_files_kind (cfg : config) (fs : FS) (dir : Path) :
  Forall (fun g => ends_with ".cue" (path_name g) || ends_with ".iso" (path_name g) = true)
    (find_game_files cfg fs dir).
Proof.
  apply Forall_forall. intros g Hg. unfold find_game_files, sorted_paths in Hg.
  rewrite (merge_sort_Permutation path_le _), elem_of_app in Hg.
  destruct Hg as [Hg|Hg]; [destruct (cfg_ps1_cues cfg)|destruct (cfg_ps2_isos cfg)];
    try (apply elem_of_nil in Hg; contradiction);
    unfold glob in Hg; apply list_elem_of_filter in Hg as [Hm _];
    unfold glob_match in Hm; apply andb_true_iff in Hm as [_ Hm]; rewrite Hm;
    [reflexivity | apply orb_true_r].
Qed.

(** Extra X8: the PS1 and PS2 counts of [scan_directory] are the numbers of game files ending in [.cue] and [.iso], except files named exactly [.cue] or [.iso]; with extraction disabled the scan never reports archives only. *)
Theorem scan_counts_descriptors (cfg : config) (fs : FS) (dir : Path) :
  (forall ps1 ps2 n sz, scan_directory cfg fs dir true = ScanFound ps1 ps2 n sz ->
     ps1 = length (filter (fun g => ends_with ".cue" (path_name g) &&
                                    negb (String.eqb (path_name g) ".cue") = true)
                          (find_game_files cfg fs dir)) /\
     ps2 = length (filter (fun g => ends_with ".iso" (path_name g) &&
                                    negb (String.eqb (path_name g) ".iso") = true)
                          (find_game_files cfg fs dir))) /\
  (cfg_extract cfg = false -> forall n sz, scan_directory cfg fs dir true <> ScanArchivesOnly n sz).
Proof.
  split.
  - intros ps1 ps2 n sz. unfold scan_directory. simpl negb. cbv iota.
    destruct (find_game_files cfg fs dir) as [|g gs] eqn:Eg.
    + destruct (length _ =? 0); discriminate.
    + destruct (scan_fold_counts fs (g :: gs) 0 0 0) as [t' E].
      { rewrite <- Eg. apply find_game_files_kind. }
      rewrite E. intros H. injection H as <- <- _ _. auto.
  - intros Hx n sz. unfold scan_directory. rewrite Hx. simpl.
    destruct (find_game_files cfg fs dir) as [|g gs].
    + discriminate.
    + destruct (foldl _ _ _) as [[? ?] ?]. discriminate.
Qed.

(** ** Descriptors named only by their extension *)

Lemma path_name_snoc (dir : Path) (n : string) : path_name (dir ++ [n]) = n.
Proof. unfold path_name. rewrite last_snoc. reflexivity. Qed.

Lemma path_parent_snoc (dir : Path) (n : string) : path_parent (dir ++ [n]) = dir.
Proof. unfold path_parent. apply removelast_last. Qed.

(** Extra X9: a file named exactly [.cue] (or [.iso]) is listed by [find_game_files]; when no file named [.cue.chd] (or [.iso.chd]) is next to it, its job fails without calling chdman and leaves the state unchanged, because [Path.suffix] of such a name is empty. *)
Theorem bare_extension_found_not_converted (chdman : chdman_fn) (cfg : config) (st : state)
    (dir : Path) (ext : string) :
  (ext = ".cue" /\ cfg_ps1_cues cfg = true) \/ (ext = ".iso" /\ cfg_ps2_isos cfg = true) ->
  file_exists (st_fs st) (dir ++ [ext]) = true ->
  file_exists (st_fs st) (dir ++ [ext +:+ ".chd"]) = false ->
  dir ++ [ext] ∈ find_game_files cfg (st_fs st) dir /\
  process_single_file chdman cfg true st (dir ++ [ext]) = (st, RBool false).
Proof.
  intros Hext Hex Hchd.
  assert (Hm : glob_match dir (cfg_recursive cfg) ext (dir ++ [ext]) = true).
  { unfold glob_match. rewrite path_name_snoc, length_app. simpl.
    apply andb_true_iff. split; [apply andb_true_iff; split|].
    - apply bool_decide_eq_true_2. eexists; reflexivity.
    - destruct (cfg_recursive cfg); [apply Nat.ltb_lt; lia | apply Nat.eqb_eq; lia].
    - unfold ends_with. apply ends_with_aux_spec. exists "". reflexivity. }
  assert (Hd : dir ++ [ext] ∈ dom (st_fs st)).
  { unfold file_exists in Hex. apply bool_decide_eq_true_1 in Hex. exact Hex. }
  split.
  - unfold find_game_files, sorted_paths. rewrite (merge_sort_Permutation path_le _), elem_of_app.
    destruct Hext as [[-> Hc]|[-> Hi]]; [left; rewrite Hc|right; rewrite Hi];
      apply glob_elem; assumption.
  - unfold process_single_file, convert_to_chd. simpl negb. cbv iota zeta.
    unfold with_suffix. rewrite path_name_snoc, path_parent_snoc.
    destruct Hext as [[-> _]|[-> _]]; cbn -[file_exists]; unfold path_div;
      cbn in Hchd; rewrite Hchd; reflexivity.
Qed.

Lemma bare_extension_found_not_converted_witness :
  ((".cue" = ".cue" /\ cfg_ps1_cues (cfg_with false true) = true) \/
   (".cue" = ".iso" /\ cfg_ps2_isos (cfg_with false true) = true)) /\
  file_exists (<[["roms"; ".cue"] := "FILE"]> ∅) (["roms"] ++ [".cue"]) = true /\
  file_exists (<[["roms"; ".cue"] := "FILE"]> ∅) (["roms"] ++ [".cue" +:+ ".chd"]) = false /\
  process_single_file chdman_ok (cfg_with false true) true (st_of (<[["roms"; ".cue"] := "FILE"]> ∅))
    (["roms"] ++ [".cue"]) = (st_of (<[["roms"; ".cue"] := "FILE"]> ∅), RBool false).
Proof.
  split; [vm_compute; auto|]. split; [vm_compute; reflexivity|].
  split; [vm_compute; reflexivity|].
  apply (bare_extension_found_not_converted chdman_ok (cfg_with false true)
           (st_of (<[["roms"; ".cue"] := "FILE"]> ∅)) ["roms"] ".cue");
    vm_compute; auto.
Defined.

(** ** The Move CHD Files dialog *)

(** Extra X10: for a CHD file found by the dialog scan whose name is not exactly [.chd], the name announced in the listing is the first destination name [execute_move] tries. *)
Theorem preview_names_first_destination (remove_locale recursive : bool) (fs : FS)
    (source : Path) (chd : Path) :
  chd ∈ find_chd_files fs source recursive -> path_name chd <> ".chd" ->
  shown_name (preview_line remove_locale fs chd) = move_new_name remove_locale chd.
Proof.
  intros Hin Hn. unfold preview_line, move_new_name. destruct remove_locale.
  - destruct (String.eqb_spec (clean_game_name (name_stem (path_name chd))) (name_stem (path_name chd)))
      as [E|E]; simpl; [rewrite E|]; reflexivity.
  - simpl. unfold find_chd_files, sorted_paths in Hin.
    rewrite (merge_sort_Permutation path_le _) in Hin.
    unfold glob in Hin. apply list_elem_of_filter in Hin as [Hm _].
    unfold glob_match in Hm. apply andb_true_iff in Hm as [_ Hm].
    unfold ends_with in Hm. apply ends_with_aux_spec in Hm as [pre Hpre].
    destruct pre as [|c pre]; [rewrite Hpre in Hn; exact (False_ind _ (Hn eq_refl))|].
    pose proof (stem_suffix (path_name chd)) as Hs.
    rewrite Hpre in Hs |- *.
    rewrite (name_suffix_app (String c pre) "chd") in Hs by (discriminate || reflexivity).
    exact Hs.
Qed.

Lemma preview_names_first_destination_witness :
  ["s"; "a"; "Game (USA).chd"] ∈ find_chd_files fs_chds ["s"] true /\
  path_name ["s"; "a"; "Game (USA).chd"] <> ".chd" /\
  shown_name (preview_line false fs_chds ["s"; "a"; "Game (USA).chd"]) =
    move_new_name false ["s"; "a"; "Game (USA).chd"].
Proof.
  assert (H1 : ["s"; "a"; "Game (USA).chd"] ∈ find_chd_files fs_chds ["s"] true)
    by (apply (bool_decide_unpack _); vm_compute; reflexivity).
  assert (H2 : path_name ["s"; "a"; "Game (USA).chd"] <> ".chd") by (vm_compute; discriminate).
  split; [exact H1|]. split; [exact H2|].
  exact (preview_names_first_destination false true fs_chds ["s"] _ H1 H2).
Defined.

(** ** Originals *)




Lemma backup_cand_in_dir (dir f : Path) (k : nat) : exists n, backup_cand dir f k = dir ++ [n].
Proof. destruct k; eexists; reflexivity. Qed.



Lemma backup_move_one_absent (dir : Path) (fs : FS) (f q : Path) :
  fs !! q = None -> (forall n, q <> dir ++ [n]) -> backup_move_one dir fs f !! q = None.
Proof.
  intros Hq Hd. unfold backup_move_one. destruct (file_exists fs f); [|exact Hq].
  unfold move_file. destruct (fs !! f); [|exact Hq].
  destruct (free_dest_first fs (backup_cand dir f)) as [m [Hm _]]. rewrite Hm.
  destruct (backup_cand_in_dir dir f m) as [n ->].
  rewrite lookup_insert_ne by (intros E; apply (Hd n); symmetry; exact E).
  destruct (decide (q = f)) as [->|Hne]; [apply lookup_delete_eq|].
  rewrite lookup_delete_ne by congruence. exact Hq.
Qed.

Lemma backup_fold_absent (dir : Path) (l : list Path) (fs : FS) (q : Path) :
  fs !! q = None -> (forall n, q <> dir ++ [n]) -> foldl (backup_move_one dir) fs l !! q = None.
Proof.
  revert fs. induction l as [|f l IH]; intros fs Hq Hd; simpl; [exact Hq|].
  apply IH; [apply backup_move_one_absent|]; assumption.
Qed.




Lemma move_cand_in_dir (dest : Path) (nn : string) (k : nat) :
  exists n, move_cand dest nn k = dest ++ [n].
Proof. destruct k; eexists; reflexivity. Qed.

Lemma execute_move_one_copy_keeps (rl : bool) (dest : Path) (fs : FS) (chd p : Path) (c : string) :
  fs !! p = Some c -> fst (execute_move_one rl true dest fs chd) !! p = Some c.
Proof.
  intros Hp. unfold execute_move_one.
  pose proof (free_dest_move dest (move_new_name rl chd) fs) as Hd.
  destruct (fs !! chd); simpl; [|exact Hp].
  rewrite lookup_insert_ne; [exact Hp|]. intros E. apply Hd. rewrite E. apply elem_of_dom. eauto.
Qed.

Lemma execute_move_one_contents (rl : bool) (dest : Path) (fs : FS) (chd p : Path) (c : string) :
  fs !! p = Some c ->
  exists q, fst (execute_move_one rl false dest fs chd) !! q = Some c /\
    (q = p \/ exists n, q = dest ++ [n]).
Proof.
  intros Hp. unfold execute_move_one.
  pose proof (free_dest_move dest (move_new_name rl chd) fs) as Hd.
  destruct (fs !! chd) as [c'|] eqn:Ec; simpl; [|exists p; auto].
  destruct (decide (p = chd)) as [->|Hne].
  - exists (free_dest fs (move_cand dest (move_new_name rl chd))). split.
    + unfold move_file. rewrite Ec. rewrite lookup_insert_eq. congruence.
    + right. destruct (free_dest_first fs (move_cand dest (move_new_name rl chd))) as [m [Hm _]].
      rewrite Hm. apply move_cand_in_dir.
  - exists p. split; [|by left]. rewrite move_file_fresh; [exact Hp | apply elem_of_dom; eauto | exact Hne | exact Hd].
Qed.

(** Extra X13: the Move CHD Files action never overwrites: in copy mode every existing file keeps its content at its path, and in move mode every content is still present, in its place or in the destination folder. *)
Theorem execute_move_no_loss (rl : bool) (dest : Path) (found : list Path) (fs : FS) (p : Path)
    (c : string) :
  fs !! p = Some c ->
  fst (execute_move rl true dest fs found) !! p = Some c /\
  (exists q, fst (execute_move rl false dest fs found) !! q = Some c /\
     (q = p \/ exists n, q = dest ++ [n])).
Proof.
  intros Hp. split.
  - revert fs Hp. induction found as [|chd l IH]; intros fs Hp; simpl; [exact Hp|].
    destruct (execute_move_one rl true dest fs chd) as [fs1 d] eqn:E1.
    destruct (execute_move rl true dest fs1 l) as [fs2 ds] eqn:E2. simpl.
    change fs2 with (fst (fs2, ds)). rewrite <- E2. apply IH.
    change fs1 with (fst (fs1, d)). rewrite <- E1. apply execute_move_one_copy_keeps, Hp.
  - revert fs p Hp. induction found as [|chd l IH]; intros fs p Hp; simpl; [exists p; auto|].
    destruct (execute_move_one rl false dest fs chd) as [fs1 d] eqn:E1.
    destruct (execute_move rl false dest fs1 l) as [fs2 ds] eqn:E2. simpl.
    destruct (execute_move_one_contents rl dest fs chd p c Hp) as (q & Hq & Hqp).
    rewrite E1 in Hq. simpl in Hq.
    destruct (IH fs1 q Hq) as (q' & Hq' & Hq'p). rewrite E2 in Hq'. simpl in Hq'.
    exists q'. split; [exact Hq'|]. destruct Hq'p as [->|Hn]; [exact Hqp | right; exact Hn].
Qed.

Lemma execute_move_no_loss_witness :
  fs_chds !! ["s"; "a"; "Game (USA).chd"] = Some "1" /\
  fst (execute_move true true ["out"] fs_chds [["s"; "a"; "Game (USA).chd"]; ["s"; "b"; "Game (Europe).chd"]])
    !! ["s"; "a"; "Game (USA).chd"] = Some "1".
Proof.
  assert (H : fs_chds !! ["s"; "a"; "Game (USA).chd"] = Some "1") by (vm_compute; reflexivity).
  split; [exact H|].
  exact (proj1 (execute_move_no_loss true ["out"]
                  [["s"; "a"; "Game (USA).chd"]; ["s"; "b"; "Game (Europe).chd"]] fs_chds _ _ H)).
Defined.

(** ** Extraction *)





(** ** Runs *)

Lemma convert_to_chd_answers (chdman : chdman_fn) (st : state) (f : Path) :
  snd (convert_to_chd chdman st f) <> RNone /\
  st_extracts (fst (convert_to_chd chdman st f)) = st_extracts st.
Proof.
  unfold convert_to_chd.
  destruct (file_exists (st_fs st) (with_suffix f ".chd")); [split; [discriminate|reflexivity]|].
  repeat match goal with
         | |- context [if ?b then _ else _] => destruct b
         | |- context [match chdman ?m ?p ?q ?fs with _ => _ end] => destruct (chdman m p q fs)
         end; simpl; split; (discriminate || reflexivity).
Qed.

Lemma process_answers (chdman : chdman_fn) (cfg : config) (st : state) (f : Path) :
  snd (process_single_file chdman cfg true st f) <> RNone /\
  st_extracts (fst (process_single_file chdman cfg true st f)) = st_extracts st.
Proof.
  destruct (convert_to_chd_answers chdman st f) as [Hr He].
  unfold process_single_file. simpl negb. cbv iota.
  destruct (convert_to_chd chdman st f) as [st1 r]. simpl in *.
  destruct r as [|[]|]; simpl;
    repeat match goal with |- context [if ?b then _ else _] => destruct b end;
    simpl; split; (congruence || exact He).
Qed.

Lemma run_jobs_answers (chdman : chdman_fn) (cfg : config) (jobs : list Path) (st : state) :
  length (snd (run_jobs chdman cfg st jobs)) = length jobs /\
  Forall (fun r => r <> RNone) (snd (run_jobs chdman cfg st jobs)) /\
  st_extracts (fst (run_jobs chdman cfg st jobs)) = st_extracts st.
Proof.
  revert st. induction jobs as [|j js IH]; intros st; simpl; [auto|].
  destruct (process_answers chdman cfg st j) as [Hr He].
  destruct (process_single_file chdman cfg true st j) as [st1 r]. simpl in *.
  destruct (IH st1) as (Hl & Hf & He').
  destruct (run_jobs chdman cfg st1 js) as [st2 rs]. simpl in *.
  split; [lia|]. split; [constructor; assumption|]. congruence.
Qed.

Lemma tally_split (rs : list ret) :
  Forall (fun r => r <> RNone) rs ->
  length (filter (fun r => is_success r = true) rs) +
  length (filter (fun r => is_failure r = true) rs) = length rs.
Proof.
  induction rs as [|r rs IH]; intros H; [reflexivity|].
  inversion H as [|? ? Hr Hrs]; subst. rewrite !filter_cons.
  specialize (IH Hrs).
  destruct r as [|[]|]; [congruence| | |]; cbn [is_success is_failure];
    rewrite ?(decide_True (P := true = true)) by reflexivity;
    rewrite ?(decide_False (P := false = true)) by discriminate;
    cbn [length]; lia.
Qed.

Lemma extract_all_calls (unpack : extractor_fn) (cfg : config) (st : state) (dir : Path) :
  st_calls (extract_all_archives unpack cfg st dir) = st_calls st.
Proof.
  unfold extract_all_archives.
  generalize (find_compressed_files (st_fs st) dir (cfg_recursive cfg)) as l.
  intros l. revert st. induction l as [|a l IH]; intros st; simpl; [reflexivity|].
  rewrite IH. unfold extract_step.
  destruct (extract_archive _ _ _ _) as [? [?|]]; reflexivity.
Qed.

(** Extra X15: [conversion_thread] run without stopping counts every job as a success or a failure (successful plus failed is the total); with no game files it calls chdman never; with extraction disabled the total is the number of game files found and no archive is handed to the decoders. *)
Theorem conversion_thread_accounts (chdman : chdman_fn) (unpack : extractor_fn) (cfg : config)
    (dir : Path) (st : state) :
  successful (snd (conversion_thread chdman unpack cfg dir st)) +
    failed (snd (conversion_thread chdman unpack cfg dir st)) =
    total (snd (conversion_thread chdman unpack cfg dir st)) /\
  (total (snd (conversion_thread chdman unpack cfg dir st)) = 0 ->
   st_calls (fst (conversion_thread chdman unpack cfg dir st)) = st_calls st) /\
  (cfg_extract cfg = false ->
   total (snd (conversion_thread chdman unpack cfg dir st)) = length (find_game_files cfg (st_fs st) dir) /\
   st_extracts (fst (conversion_thread chdman unpack cfg dir st)) = st_extracts st).
Proof.
  unfold conversion_thread.
  set (st1 := if cfg_extract cfg then extract_all_archives unpack cfg st dir else st).
  assert (Hc : st_calls st1 = st_calls st).
  { subst st1. destruct (cfg_extract cfg); [apply extract_all_calls|reflexivity]. }
  destruct (find_game_files cfg (st_fs st1) dir) as [|g gs] eqn:Eg.
  - simpl. split; [reflexivity|]. split; [intros _; exact Hc|].
    intros Hx. subst st1. rewrite Hx in Eg |- *. rewrite Eg. split; reflexivity.
  - destruct (run_jobs_answers chdman cfg (g :: gs) (reset_totals st1)) as (Hl & Hf & He).
    destruct (run_jobs chdman cfg (reset_totals st1) (g :: gs)) as [st2 rs].
    cbn [fst snd] in *. unfold tally_of. cbn [successful failed total].
    split; [rewrite tally_split by exact Hf; lia|].
    split; [simpl; lia|].
    intros Hx. subst st1. rewrite Hx in Eg, He. rewrite Eg. split; [reflexivity|exact He].
Qed.

(** ** The worker pool *)



Lemma running_insert (l : list jstatus) (i : nat) (x s : jstatus) :
  l !! i = Some x ->
  length (filter (fun s => is_running s = true) (<[i := s]> l)) + run_bit x =
  length (filter (fun s => is_running s = true) l) + run_bit s.
Proof.
  revert i. induction l as [|y l IH]; intros i Hi; [discriminate|].
  destruct i as [|i]; simpl in Hi.
  - injection Hi as ->. change (<[0:=s]> (x :: l)) with (s :: l). rewrite !filter_cons. cbv beta. unfold run_bit.
    destruct (is_running s) eqn:Es, (is_running x) eqn:Ex;
      rewrite ?(decide_True (P := true = true)) by reflexivity;
      rewrite ?(decide_False (P := false = true)) by discriminate; cbn [length]; lia.
  - change (<[S i:=s]> (y :: l)) with (y :: <[i:=s]> l). rewrite !filter_cons. cbv beta. specialize (IH i Hi).
    destruct (is_running y);
      rewrite ?(decide_True (P := true = true)) by reflexivity;
      rewrite ?(decide_False (P := false = true)) by discriminate; cbn [length]; lia.
Qed.

Lemma running_drop (l : list jstatus) :
  length (filter (fun s => is_running s = true) (drop_queued <$> l)) =
  length (filter (fun s => is_running s = true) l).
Proof.
  induction l as [|y l IH]; [reflexivity|].
  cbn [fmap list_fmap]. rewrite !filter_cons.
  destruct y; cbn [drop_queued is_running];
    rewrite ?(decide_True (P := true = true)) by reflexivity;
    rewrite ?(decide_False (P := false = true)) by discriminate; cbn [length]; lia.
Qed.



Lemma pool_shape_step (n mw : nat) (res : nat -> ret) (p : pool) (e : event) :
  pool_shape n mw p -> pool_shape n mw (pool_step mw res p e).
Proof.
  destruct p as [fl jobs st lp y c su fa]. unfold pool_shape, running_count.
  intros (Hl & Hs & Hr). simpl in *. destruct e as [i|i| |i|]; simpl.
  - destruct (jobs !! i) as [[| | |]|] eqn:Ei; simpl; auto.
    destruct (Nat.ltb_spec (length (filter (fun s => is_running s = true) jobs)) mw) as [Hlt|];
      [|simpl; auto].
    destruct fl; simpl.
    + pose proof (running_insert jobs i Queued Running Ei) as R. unfold run_bit in R. simpl in R.
      split; [rewrite length_insert; exact Hl|]. split; [|lia].
      intros j Hj. apply elem_of_app in Hj as [Hj|Hj]; [auto|].
      apply list_elem_of_singleton in Hj as ->. apply lookup_lt_Some in Ei. lia.
    + pose proof (running_insert jobs i Queued (Finished RNone) Ei) as R. unfold run_bit in R.
      simpl in R. split; [rewrite length_insert; exact Hl|]. split; [exact Hs|lia].
  - destruct (jobs !! i) as [[| | |]|] eqn:Ei; simpl; auto.
    pose proof (running_insert jobs i Running (Finished (res i)) Ei) as R. unfold run_bit in R.
    simpl in R. split; [rewrite length_insert; exact Hl|]. split; [exact Hs|lia].
  - auto.
  - destruct lp; simpl; auto. destruct (jobs !! i) as [[| | |]|]; simpl; auto.
    case_bool_decide; simpl; auto. destruct fl; simpl; auto.
    split; [rewrite length_fmap; exact Hl|]. split; [exact Hs|]. rewrite running_drop. exact Hr.
  - destruct lp as [|i|]; simpl; auto.
    destruct (jobs !! i) as [[| |[|[]|]|]|]; simpl; auto.
Qed.

Lemma counted_bound (n : nat) (p : pool) :
  pool_inv p -> (forall i, i ∈ pl_started p -> i < n) -> pl_succ p + pl_fail p <= n.
Proof.
  intros (_ & _ & Hcs & _ & _ & Hnd & _ & Hsu & Hfa) Hs.
  assert (Hsplit : pl_succ p + pl_fail p = length (pl_counted p).*1).
  { rewrite Hsu, Hfa, length_fmap. clear. induction (pl_counted p) as [|[i b] l IH]; [reflexivity|].
    rewrite !filter_cons. destruct b; simpl;
      rewrite ?(decide_True (P := true = true)) by reflexivity;
      rewrite ?(decide_False (P := false = true)) by discriminate;
      rewrite ?(decide_True (P := false = false)) by reflexivity;
      rewrite ?(decide_False (P := true = false)) by discriminate; cbn [length]; lia. }
  rewrite Hsplit. rewrite <- (length_seq n 0).
  apply NoDup_incl_length; [apply NoDup_ListNoDup, Hnd|].
  intros i Hi. apply list_elem_of_In in Hi. apply list_elem_of_In, elem_of_seq.
  apply list_elem_of_fmap in Hi as [[j b] [-> Hj]]. simpl. split; [lia|].
  apply Hs, (Hcs j b), Hj.
Qed.

(** Extra X16: in every schedule of the worker pool, at most [max_workers] jobs are running at once, and the successes and failures counted never exceed the number of jobs. *)
Theorem pool_bounds (mw : nat) (res : nat -> ret) (n : nat) (evs : list event) :
  running_count (pool_run mw res (pool_init n) evs) <= mw /\
  pl_succ (pool_run mw res (pool_init n) evs) + pl_fail (pool_run mw res (pool_init n) evs) <= n.
Proof.
  assert (H0 : pool_shape n mw (pool_init n)).
  { unfold pool_shape, pool_init, running_count. simpl. split; [apply length_replicate|].
    split; [intros i Hi; apply elem_of_nil in Hi; contradiction|].
    clear. induction n; simpl; [lia|]. rewrite filter_cons.
    rewrite (decide_False (P := false = true)) by discriminate. exact IHn. }
  assert (Hs : pool_shape n mw (pool_run mw res (pool_init n) evs)).
  { unfold pool_run. revert H0. generalize (pool_init n) as p.
    induction evs as [|e evs IH]; intros p Hp; [exact Hp|]. apply IH, pool_shape_step, Hp. }
  destruct Hs as (_ & Hst & Hr). split; [exact Hr|].
  apply counted_bound; [apply pool_run_inv, pool_inv_init | exact Hst].
Qed.

(** ** Failed conversions *)

Lemma write_out_other (fs : FS) (chd q : Path) (out : option string) :
  q <> chd -> write_out fs chd out !! q = fs !! q.
Proof. intros Hq. destruct out; simpl; [apply lookup_insert_ne; congruence | reflexivity]. Qed.

Lemma convert_failure_local (chdman : chdman_fn) (st : state) (f : Path) :
  snd (convert_to_chd chdman st f) <> RBool true ->
  st_orig (fst (convert_to_chd chdman st f)) = st_orig st /\
  st_chd (fst (convert_to_chd chdman st f)) = st_chd st /\
  (forall q, q <> with_suffix f ".chd" -> st_fs (fst (convert_to_chd chdman st f)) !! q = st_fs st !! q).
Proof.
  unfold convert_to_chd.
  destruct (file_exists (st_fs st) (with_suffix f ".chd"));
    [simpl; intros H; exfalso; apply H; reflexivity|].
  repeat match goal with
         | |- context [if ?b then _ else _] => destruct b
         | |- context [match chdman ?m ?p ?q ?fs with _ => _ end] => destruct (chdman m p q fs)
         end; simpl; intros H; try (exfalso; apply H; reflexivity);
    (split; [reflexivity|]); (split; [reflexivity|]);
    intros q Hq; try reflexivity; apply write_out_other, Hq.
Qed.

(** Extra X17: a job that does not succeed leaves the size totals unchanged and changes no file other than its CHD path (the originals are neither deleted nor moved). *)
Theorem failed_job_touches_only_chd (chdman : chdman_fn) (cfg : config) (st : state) (f : Path) :
  snd (process_single_file chdman cfg true st f) <> RBool true ->
  st_orig (fst (process_single_file chdman cfg true st f)) = st_orig st /\
  st_chd (fst (process_single_file chdman cfg true st f)) = st_chd st /\
  (forall q, q <> with_suffix f ".chd" ->
     st_fs (fst (process_single_file chdman cfg true st f)) !! q = st_fs st !! q).
Proof.
  pose proof (convert_failure_local chdman st f) as Hc.
  unfold process_single_file. simpl negb. cbv iota.
  destruct (convert_to_chd chdman st f) as [st1 r]. simpl in *.
  destruct r as [|[]|]; simpl; intros H; [auto| |auto|auto].
  - destruct (cfg_delete_originals cfg), (cfg_move_to_backup cfg); simpl in *;
      exfalso; apply H; reflexivity.
Qed.

Lemma failed_job_touches_only_chd_witness :
  snd (process_single_file chdman_fail (cfg_with true false) true (st_of fs_sidecars)
         ["roms"; "Game.cue"]) <> RBool true /\
  st_orig (fst (process_single_file chdman_fail (cfg_with true false) true (st_of fs_sidecars)
                  ["roms"; "Game.cue"])) = st_orig (st_of fs_sidecars).
Proof.
  assert (H : snd (process_single_file chdman_fail (cfg_with true false) true (st_of fs_sidecars)
                     ["roms"; "Game.cue"]) <> RBool true) by (vm_compute; discriminate).
  split; [exact H|].
  exact (proj1 (failed_job_touches_only_chd chdman_fail (cfg_with true false) (st_of fs_sidecars) _ H)).
Defined.

(** ** CUE round trip *)



Lemma match_cue_entry (n rest : string) :
  n <> "" -> char_free dquote n = true ->
  match_file_entry (cue_entry n +:+ rest) = Some (n, nl +:+ rest).
Proof.
  intros Hne Hq. unfold cue_entry, quoted.
  rewrite <- !str_app_assoc.
  change ("FILE " +:+ (String dquote (n +:+ String dquote "") +:+ (" BINARY" +:+ (nl +:+ rest))))
    with (String "F" (String "I" (String "L" (String "E" (String " "
          (String dquote ((n +:+ String dquote "") +:+ (" BINARY" +:+ (nl +:+ rest))))))))).
  unfold match_file_entry. cbn [prefix_ci].
  change ((lower "f" =? lower "F")%char) with true. change ((lower "i" =? lower "I")%char) with true.
  change ((lower "l" =? lower "L")%char) with true. change ((lower "e" =? lower "E")%char) with true.
  cbv iota. rewrite opt_bind_some.
  change (spaces1 (String " " (String dquote ((n +:+ String dquote "") +:+ (" BINARY" +:+ (nl +:+ rest))))))
    with (Some (String dquote ((n +:+ String dquote "") +:+ (" BINARY" +:+ (nl +:+ rest))))).
  rewrite opt_bind_some, expect_cons, opt_bind_some.
  rewrite <- str_app_assoc, (str_app_cons dquote ""), str_app_nil_l, take_until_free by exact Hq.
  cbv iota. destruct (String.eqb_spec n "") as [|_]; [contradiction|].
  rewrite expect_cons, opt_bind_some.
  change (" BINARY" +:+ (nl +:+ rest)) with (String " " ("BINARY" +:+ (nl +:+ rest))).
  change (spaces1 (String " " ("BINARY" +:+ (nl +:+ rest)))) with (Some ("BINARY" +:+ (nl +:+ rest))).
  rewrite opt_bind_some.
  change ("BINARY" +:+ (nl +:+ rest)) with (String "B" (String "I" (String "N" (String "A" (String "R" (String "Y" (nl +:+ rest))))))).
  cbn [prefix_ci].
  change ((lower "b" =? lower "B")%char) with true. change ((lower "i" =? lower "I")%char) with true.
  change ((lower "n" =? lower "N")%char) with true. change ((lower "a" =? lower "A")%char) with true.
  change ((lower "r" =? lower "R")%char) with true. change ((lower "y" =? lower "Y")%char) with true.
  cbv iota. rewrite opt_bind_some. reflexivity.
Qed.

Lemma findall_cue_of (names : list string) (f : nat) :
  Forall (fun n => n <> "" /\ char_free dquote n = true) names ->
  String.length (cue_of names) <= f -> findall_fuel f (cue_of names) = names.
Proof.
  revert f. induction names as [|n ns IH]; intros f Hn Hf.
  - destruct f; reflexivity.
  - inversion Hn as [|? ? [Hne Hq] Hns]; subst.
    cbn [cue_of foldr] in *. fold (cue_of ns) in *.
    assert (Hlen : String.length (cue_entry n +:+ cue_of ns) = S (S (String.length (cue_entry n) - 2 + String.length (cue_of ns)))).
    { rewrite str_length_app. unfold cue_entry, quoted. rewrite !str_length_app. simpl. lia. }
    destruct f as [|[|f]]; [lia|lia|].
    assert (Hs : exists c s', cue_entry n +:+ cue_of ns = String c s') by (eexists _, _; reflexivity).
    destruct Hs as (c & s' & Hcs).
    cbn [findall_fuel]. rewrite Hcs. rewrite <- Hcs, match_cue_entry by assumption.
    change (nl +:+ cue_of ns) with (String (ascii_of_nat 10) (cue_of ns)).
    cbn [findall_fuel]. f_equal.
    change (match_file_entry (String (ascii_of_nat 10) (cue_of ns))) with (@None (string * string)).
    apply IH; [exact Hns|]. rewrite Hlen in Hf.
    assert (2 <= String.length (cue_entry n)).
    { unfold cue_entry, quoted. rewrite !str_length_app. simpl. lia. }
    lia.
Qed.

(** Extra X18: a CUE text made of [FILE "name" BINARY] lines, with names that are non-empty, made of printable ASCII characters and without double quote (so that the UTF-8 decoding of the source changes nothing), is parsed back by [findall] to exactly those names in order; when all of them exist, [parse_cue_file] returns all of them. *)
Theorem cue_round_trip (fs : FS) (cue : Path) (names : list string) :
  Forall (fun n => n <> "" /\ printable_ascii n = true /\ char_free dquote n = true) names ->
  cue_findall (cue_of names) = names /\
  (fs !! cue = Some (cue_of names) ->
   Forall (fun n => file_exists fs (path_join (path_parent cue) n) = true) names ->
   parse_cue_file fs cue = map (path_join (path_parent cue)) names).
Proof.
  intros Hn. assert (Hf : cue_findall (cue_of names) = names).
  { apply findall_cue_of; [|lia]. eapply Forall_impl; [exact Hn|]. intros n (H1 & _ & H3). auto. }
  split; [exact Hf|]. intros Hc He. unfold parse_cue_file. rewrite Hc, Hf.
  clear Hc Hf Hn. induction names as [|n ns IH]; [reflexivity|].
  inversion He as [|? ? Hx Hxs]; subst. cbn [map].
  rewrite filter_cons_True by exact Hx. rewrite IH by exact Hxs. reflexivity.
Qed.

Lemma cue_round_trip_witness :
  Forall (fun n => n <> "" /\ printable_ascii n = true /\ char_free dquote n = true)
    ["Game (Track 1).bin"; "Game (Track 2).bin"] /\
  cue_findall (cue_of ["Game (Track 1).bin"; "Game (Track 2).bin"]) =
    ["Game (Track 1).bin"; "Game (Track 2).bin"].
Proof.
  assert (H : Forall (fun n => n <> "" /\ printable_ascii n = true /\ char_free dquote n = true)
                ["Game (Track 1).bin"; "Game (Track 2).bin"])
    by (apply (bool_decide_unpack _); vm_compute; reflexivity).
  split; [exact H|].
  exact (proj1 (cue_round_trip ∅ ["roms"; "Game.cue"] _ H)).
Defined.
